(** * wavesurfer-multitrack: the synchronisation engine of [MultiTrack]

    A shallow embedding of [src/multitrack.ts] (class [MultiTrack]) and the
    properties of its position model, drag controller, cue policy and
    synchronisation clock.

    Numbers.  A JavaScript [number] is modelled by a rational [Q]: the finite
    values, with exact arithmetic.  Where the script reads [undefined] out
    of an array and only compares it, the comparison is [false] as in
    JavaScript and the model says so; where it would compute with it, the
    run leaves the rationals (error [Unmodelled]).  [NaN] is a value of
    [Js.num], which models the numbers [NaN] can reach from outside: the
    argument of [setAudioRate] and the playback rate it assigns, and the
    durations and the timeline length in [Nan], the embedding of
    [initDurations] and of the continuation of [addTrack] on such numbers.
    [Infinity] appears once in the source, as the default end cue, and is
    modelled by the extended bound [Bound]. *)

From stdpp Require Import base list.
From Stdlib Require Import QArith Qminmax Qabs Lqa ZArith String Bool Lia.

Local Open Scope string_scope.
Local Open Scope list_scope.
Local Open Scope Q_scope.

(** ** Numbers *)

(** [x < y], [x <= y], [x === y] on numbers, as booleans. *)
Definition Qltb (x y : Q) : bool := negb (Qle_bool y x).
Definition Qleb (x y : Q) : bool := Qle_bool x y.
Definition Qeqb (x y : Q) : bool := Qeq_bool x y.

(** A number or [Infinity]. *)
Inductive Bound : Type :=
| Finite (q : Q)
| Infinity.

(** [x > b] *)
Definition gt_bound (x : Q) (b : Bound) : bool :=
  match b with
  | Finite q => Qltb q x
  | Infinity => false
  end.

(** [o || d] for an optional number [o]: [undefined] and [0] are falsy. *)
Definition or_default (o : option Q) (d : Q) : Q :=
  match o with
  | Some q => if Qeqb q 0 then d else q
  | None => d
  end.

(** [o || Infinity] *)
Definition or_Infinity (o : option Q) : Bound :=
  match o with
  | Some q => if Qeqb q 0 then Infinity else Finite q
  | None => Infinity
  end.

(** JavaScript truthiness of an optional string and of an optional boolean. *)
Definition truthy_str (o : option string) : bool :=
  match o with
  | Some s => negb (String.eqb s "")
  | None => false
  end.

Definition truthy_media {A} (o : option A) : bool :=
  match o with
  | Some _ => true
  | None => false
  end.

Definition truthy_bool (o : option bool) : bool :=
  match o with
  | Some b => b
  | None => false
  end.

(** ** Numbers that may be [NaN] *)

Module Js.
Inductive num : Type :=
| Num (q : Q)
| NaN.

(** [x + y], [x * y] *)
Definition add (x y : num) : num :=
  match x, y with
  | Num a, Num b => Num (a + b)
  | _, _ => NaN
  end.

Definition mul (x y : num) : num :=
  match x, y with
  | Num a, Num b => Num (a * b)
  | _, _ => NaN
  end.

(** [Math.max(x, y)]: [NaN] when an argument is. *)
Definition max (x y : num) : num :=
  match x, y with
  | Num a, Num b => Num (Qmax a b)
  | _, _ => NaN
  end.

(** [x < y], [x <= y]: false when an operand is [NaN]. *)
Definition ltb (x y : num) : bool :=
  match x, y with
  | Num a, Num b => Qltb a b
  | _, _ => false
  end.

Definition leb (x y : num) : bool :=
  match x, y with
  | Num a, Num b => Qleb a b
  | _, _ => false
  end.

(** A number read where [undefined] may be found: [undefined] behaves as
    [NaN] in arithmetic. *)
Definition of_option (o : option Q) : num :=
  match o with
  | Some q => Num q
  | None => NaN
  end.

Definition to_option (x : num) : option Q :=
  match x with
  | Num q => Some q
  | NaN => None
  end.
End Js.

(** ** The playback resource: [HTMLAudioElement | WebAudioPlayer] *)

(** What the engine asks of an element besides the fields below: [play()],
    [pause()], and the assignment [playbackRate = rate]. *)
Inductive AudioCall : Type :=
| CallPlay
| CallPause
| CallSetPlaybackRate (rate : Js.num).

Module Audio.
(** The part of the media element the engine reads and writes.  [duration]
    is [None] for [NaN] (no media loaded).  [calls] records the [play()]
    and [pause()] calls the element received and the rates it was assigned,
    oldest first. *)
Record t : Type := mk {
  src : string;
  duration : option Q;
  currentTime : Q;
  paused : bool;
  muted : bool;
  playbackRate : Js.num;
  volume : Q;
  calls : list AudioCall
}.

(** [new Audio()] *)
Definition fresh : t :=
  {| src := ""; duration := None; currentTime := 0; paused := true;
     muted := false; playbackRate := Js.Num 1; volume := 1; calls := [] |}.

Definition set_src (s : string) (a : t) : t :=
  {| src := s; duration := duration a; currentTime := currentTime a;
     paused := paused a; muted := muted a; playbackRate := playbackRate a;
     volume := volume a; calls := calls a |}.

Definition set_duration (d : option Q) (a : t) : t :=
  {| src := src a; duration := d; currentTime := currentTime a;
     paused := paused a; muted := muted a; playbackRate := playbackRate a;
     volume := volume a; calls := calls a |}.

(** [audio.currentTime = x].  The value is kept as written: the engine
    seeks to [Math.max(0, newTime)], which lies within the media unless the
    clip has ended before the position sought (an element then ends the
    seek at its end); what is stated of the position an audio is left at
    is stated for local times within the clip. *)
Definition set_currentTime (x : Q) (a : t) : t :=
  {| src := src a; duration := duration a; currentTime := x;
     paused := paused a; muted := muted a; playbackRate := playbackRate a;
     volume := volume a; calls := calls a |}.

Definition set_muted (b : bool) (a : t) : t :=
  {| src := src a; duration := duration a; currentTime := currentTime a;
     paused := paused a; muted := b; playbackRate := playbackRate a;
     volume := volume a; calls := calls a |}.

(** Modelled from the spec: the [playbackRate] of the Playback Resource
    Adapter, whose implementations (the media element of the browser, the
    WebAudioPlayer of [./webaudio.js]) are not in this source.  By the
    adapter's uniform contract the resource takes the rate it is given;
    the assignment [audio.playbackRate = r] itself is recorded in [calls]. *)
Definition set_playbackRate (r : Js.num) (a : t) : t :=
  {| src := src a; duration := duration a; currentTime := currentTime a;
     paused := paused a; muted := muted a; playbackRate := r;
     volume := volume a; calls := calls a ++ [CallSetPlaybackRate r] |}.

Definition set_volume (v : Q) (a : t) : t :=
  {| src := src a; duration := duration a; currentTime := currentTime a;
     paused := paused a; muted := muted a; playbackRate := playbackRate a;
     volume := v; calls := calls a |}.

(** [audio.play()]: the element is no longer paused. *)
Definition play (a : t) : t :=
  {| src := src a; duration := duration a; currentTime := currentTime a;
     paused := false; muted := muted a; playbackRate := playbackRate a;
     volume := volume a; calls := calls a ++ [CallPlay] |}.

(** [audio.pause()] *)
Definition pause (a : t) : t :=
  {| src := src a; duration := duration a; currentTime := currentTime a;
     paused := true; muted := muted a; playbackRate := playbackRate a;
     volume := volume a; calls := calls a ++ [CallPause] |}.
End Audio.

(** ** Tracks *)

(** [type TrackId = string | number] *)
Inductive TrackId : Type :=
| IdString (s : string)
| IdNumber (n : Q).

(** [a === b] on track ids. *)
Definition TrackId_eqb (a b : TrackId) : bool :=
  match a, b with
  | IdString s, IdString s' => String.eqb s s'
  | IdNumber n, IdNumber n' => Qeqb n n'
  | _, _ => false
  end.

(** [TrackOptions], the fields the engine's timing logic uses.  [media] is
    [options.media], [optDuration] is [options.duration]. *)
Record TrackOptions : Type := mkTrack {
  id : TrackId;
  url : option string;
  media : option Audio.t;
  optDuration : option Q;
  draggable : option bool;
  startPosition : Q;
  startCue : option Q;
  endCue : option Q;
  volume : option Q
}.

Definition set_startPosition (x : Q) (t : TrackOptions) : TrackOptions :=
  {| id := id t; url := url t; media := media t; optDuration := optDuration t;
     draggable := draggable t; startPosition := x; startCue := startCue t;
     endCue := endCue t; volume := volume t |}.

(** The data URL of the silent clip; its payload is elided here. *)
Definition webkitUrl : string := "data:audio/mpeg;base64,SUQzBABAAAAAQwAAAAwBIAULaBs3cUNPTU0".

Definition PLACEHOLDER_TRACK : TrackOptions :=
  {| id := IdString "placeholder"; url := Some webkitUrl; media := None;
     optDuration := None; draggable := None; startPosition := 0;
     startCue := None; endCue := None; volume := None |}.

(** ** The Cue policy of [updatePosition]

    [newTime < (track.startCue || 0) || newTime > (track.endCue || Infinity)] *)
Definition isMuted (newTime : Q) (track : TrackOptions) : bool :=
  Qltb newTime (or_default (startCue track) 0)
  || gt_bound newTime (or_Infinity (endCue track)).

(** The rule as the specification words it, with [??]: only an absent cue
    takes the default bound. *)
Definition isMuted_spec (localTime : Q) (track : TrackOptions) : bool :=
  Qltb localTime (match startCue track with Some c => c | None => 0 end)
  || gt_bound localTime
       (match endCue track with Some c => Finite c | None => Infinity end).

(** ** The engine state *)

(** [MultitrackEvents], the events the modelled operations emit. *)
Inductive Event : Type :=
| EvCanplay
| EvStartPositionChange (i : TrackId) (startPosition : Q).

(** Calls into the rendering collaborator ([initRendering]), with their
    arguments; [UpdateCursor time maxDuration autoCenter] stands for
    [updateCursor(time / maxDuration, autoCenter)]. *)
Inductive RenderCall : Type :=
| SetMainWidth (durations : list Q) (maxDuration : Q)
| SetContainerOffsets
| UpdateCursor (time maxDuration : Q) (autoCenter : bool)
| RenderDestroy.

(** The private fields of [MultiTrack], then what the engine does to its
    surroundings: the animation-frame callbacks the browser still holds
    ([pendingFrames], by handle), the next handle [requestAnimationFrame]
    returns, the events emitted and the calls made to the rendering. *)
Record MultiTrack : Type := mkMultiTrack {
  tracks : list TrackOptions;
  dragBounds : option bool;
  audios : list Audio.t;
  durations : list Q;
  currentTime : Q;
  maxDuration : Q;
  frameRequest : option nat;
  pendingFrames : list nat;
  nextFrame : nat;
  emitted : list Event;
  rendered : list RenderCall
}.

Definition with_tracks (f : list TrackOptions -> list TrackOptions) (s : MultiTrack) :=
  mkMultiTrack (f (tracks s)) (dragBounds s) (audios s) (durations s) (currentTime s)
    (maxDuration s) (frameRequest s) (pendingFrames s) (nextFrame s) (emitted s) (rendered s).
Definition with_audios (f : list Audio.t -> list Audio.t) (s : MultiTrack) :=
  mkMultiTrack (tracks s) (dragBounds s) (f (audios s)) (durations s) (currentTime s)
    (maxDuration s) (frameRequest s) (pendingFrames s) (nextFrame s) (emitted s) (rendered s).
Definition with_durations (f : list Q -> list Q) (s : MultiTrack) :=
  mkMultiTrack (tracks s) (dragBounds s) (audios s) (f (durations s)) (currentTime s)
    (maxDuration s) (frameRequest s) (pendingFrames s) (nextFrame s) (emitted s) (rendered s).
Definition with_currentTime (x : Q) (s : MultiTrack) :=
  mkMultiTrack (tracks s) (dragBounds s) (audios s) (durations s) x
    (maxDuration s) (frameRequest s) (pendingFrames s) (nextFrame s) (emitted s) (rendered s).
Definition with_maxDuration (x : Q) (s : MultiTrack) :=
  mkMultiTrack (tracks s) (dragBounds s) (audios s) (durations s) (currentTime s)
    x (frameRequest s) (pendingFrames s) (nextFrame s) (emitted s) (rendered s).
Definition with_frameRequest (h : option nat) (s : MultiTrack) :=
  mkMultiTrack (tracks s) (dragBounds s) (audios s) (durations s) (currentTime s)
    (maxDuration s) h (pendingFrames s) (nextFrame s) (emitted s) (rendered s).
Definition with_pendingFrames (f : list nat -> list nat) (s : MultiTrack) :=
  mkMultiTrack (tracks s) (dragBounds s) (audios s) (durations s) (currentTime s)
    (maxDuration s) (frameRequest s) (f (pendingFrames s)) (nextFrame s) (emitted s) (rendered s).
Definition with_nextFrame (n : nat) (s : MultiTrack) :=
  mkMultiTrack (tracks s) (dragBounds s) (audios s) (durations s) (currentTime s)
    (maxDuration s) (frameRequest s) (pendingFrames s) n (emitted s) (rendered s).
Definition with_emitted (f : list Event -> list Event) (s : MultiTrack) :=
  mkMultiTrack (tracks s) (dragBounds s) (audios s) (durations s) (currentTime s)
    (maxDuration s) (frameRequest s) (pendingFrames s) (nextFrame s) (f (emitted s)) (rendered s).
Definition with_rendered (f : list RenderCall -> list RenderCall) (s : MultiTrack) :=
  mkMultiTrack (tracks s) (dragBounds s) (audios s) (durations s) (currentTime s)
    (maxDuration s) (frameRequest s) (pendingFrames s) (nextFrame s) (emitted s) (f (rendered s)).

(** ** Methods as state transformers that may throw *)

Inductive Error : Type :=
| TypeError                 (* a property of [undefined] is read *)
| RateError (msg : string)  (* [new Error(msg)] of [setAudioRate] *)
| Unmodelled.               (* the script goes on with [NaN] or an array hole *)

(** A method call ends normally with a value, or throws; in both cases the
    fields keep what was written before. *)
Inductive Res (A : Type) : Type :=
| Ok (a : A) (s : MultiTrack)
| Throw (e : Error) (s : MultiTrack).
Arguments Ok {A} a s.
Arguments Throw {A} e s.

Definition M (A : Type) : Type := MultiTrack -> Res A.

Definition ret {A} (a : A) : M A := fun s => Ok a s.
Definition bind {A B} (m : M A) (k : A -> M B) : M B :=
  fun s => match m s with
           | Ok a s' => k a s'
           | Throw e s' => Throw e s'
           end.
Definition throw {A} (e : Error) : M A := fun s => Throw e s.
Definition get : M MultiTrack := fun s => Ok s s.
Definition modify (f : MultiTrack -> MultiTrack) : M unit := fun s => Ok tt (f s).

Declare Scope js_scope.
Delimit Scope js_scope with js.
Notation "x <- c1 ;; c2" := (bind c1 (fun x => c2))
  (at level 100, c1 at next level, right associativity) : js_scope.
Notation "c1 ;; c2" := (bind c1 (fun _ => c2))
  (at level 100, right associativity) : js_scope.
Local Open Scope js_scope.

(** The state a call leaves behind, thrown or not. *)
Definition state_of {A} (r : Res A) : MultiTrack :=
  match r with Ok _ s => s | Throw _ s => s end.

Definition emit (e : Event) : M unit := modify (with_emitted (fun l => l ++ [e])).
Definition render (c : RenderCall) : M unit := modify (with_rendered (fun l => l ++ [c])).

(** [arr.findIndex(p)]; [None] is [-1]. *)
Fixpoint findIndex_from {A} (p : A -> bool) (l : list A) (i : nat) : option nat :=
  match l with
  | [] => None
  | x :: l' => if p x then Some i else findIndex_from p l' (S i)
  end.
Definition findIndex {A} (p : A -> bool) (l : list A) : option nat := findIndex_from p l 0.

(** [arr[i] = x]: in range it overwrites, at the end it appends, further out
    it would leave holes, which lists do not have ([None]). *)
Definition array_set {A} (i : nat) (x : A) (l : list A) : option (list A) :=
  if (i <? List.length l)%nat then Some (<[i:=x]> l)
  else if (i =? List.length l)%nat then Some (l ++ [x])
  else None.

(** [isPlaying()] *)
Definition isPlaying (s : MultiTrack) : bool :=
  existsb (fun audio => negb (Audio.paused audio)) (audios s).

(** [getCurrentTime()] *)
Definition getCurrentTime (s : MultiTrack) : Q := currentTime s.

(** *** [updatePosition] *)

Definition precisionSeconds : Q := 3 # 10.

(** [newTime > duration], where [duration] may be [undefined]. *)
Definition gt_undef (x : Q) (d : option Q) : bool :=
  match d with
  | Some d => Qltb d x
  | None => false
  end.

(** The callback of [this.tracks.forEach] in [updatePosition], on the audio
    of the track. *)
Definition updatePosition_track (isPaused : bool) (time : Q) (track : TrackOptions)
    (duration : option Q) (audio : Audio.t) : Audio.t :=
  let newTime := time - startPosition track in
  let audio :=
    if Qltb precisionSeconds (Qabs (Audio.currentTime audio - newTime))
    then Audio.set_currentTime (Qmax 0 newTime) audio
    else audio in
  let audio :=
    if isPaused || Qltb newTime 0 || gt_undef newTime duration then
      (if negb (Audio.paused audio) then Audio.pause audio else audio)
    else if negb isPaused then
      (if Audio.paused audio then Audio.play audio else audio)
    else audio in
  let isMuted := isMuted newTime track in
  if negb (Bool.eqb isMuted (Audio.muted audio)) then Audio.set_muted isMuted audio
  else audio.

Fixpoint updatePosition_forEach (isPaused : bool) (time : Q)
    (ts : list TrackOptions) (index : nat) : M unit :=
  match ts with
  | [] => ret tt
  | track :: ts' =>
      s <- get ;;
      match audios s !! index with
      | None => throw TypeError
      | Some audio =>
          modify (with_audios
            <[index := updatePosition_track isPaused time track (durations s !! index) audio]>) ;;
          updatePosition_forEach isPaused time ts' (S index)
      end
  end.

Definition updatePosition (time : Q) (autoCenter : bool) : M unit :=
  s <- get ;;
  let isPaused := negb (isPlaying s) in
  (if negb (Qeqb time (currentTime s)) then
     modify (with_currentTime time) ;;
     render (UpdateCursor time (maxDuration s) autoCenter)
   else ret tt) ;;
  updatePosition_forEach isPaused time (tracks s) 0.

(** *** [initDurations] *)

(** [this.tracks.reduce((max, track, index) =>
       Math.max(max, track.startPosition + durations[index]), 0)];
    [None] when a duration is missing (the sum is [NaN]). *)
Fixpoint maxDuration_reduce (max : Q) (ts : list TrackOptions) (durations : list Q)
    (index : nat) : option Q :=
  match ts with
  | [] => Some max
  | track :: ts' =>
      match durations !! index with
      | None => None
      | Some d => maxDuration_reduce (Qmax max (startPosition track + d)) ts' durations (S index)
      end
  end.

(** [a.src === PLACEHOLDER_TRACK.url] *)
Definition is_placeholder_audio (a : Audio.t) : bool :=
  match url PLACEHOLDER_TRACK with
  | Some u => String.eqb (Audio.src a) u
  | None => false
  end.

Definition initDurations (durations0 : list Q) : M unit :=
  modify (with_durations (fun _ => durations0)) ;;
  s <- get ;;
  match maxDuration_reduce 0 (tracks s) durations0 0 with
  | None => throw Unmodelled
  | Some m =>
      modify (with_maxDuration m) ;;
      match findIndex is_placeholder_audio (audios s) with
      | None => ret tt
      | Some placeholderAudioIndex =>
          modify (with_audios
            (alter (Audio.set_duration (Some m)) placeholderAudioIndex)) ;;
          match array_set placeholderAudioIndex m durations0 with
          | None => throw Unmodelled
          | Some durations1 => modify (with_durations (fun _ => durations1))
          end
      end ;;
      s <- get ;;
      render (SetMainWidth (durations s) (maxDuration s))
  end.

(** *** [onDrag] and [setTrackStartPosition] *)

Definition onDrag (index : nat) (delta : Q) : M unit :=
  s <- get ;;
  match tracks s !! index with
  | None => throw TypeError
  | Some track =>
      if negb (truthy_bool (draggable track)) then ret tt
      else
        let newStartPosition := startPosition track + delta * maxDuration s in
        match durations s !! index with
        | None => ret tt   (* [maxStart] is [NaN]: the test below is false *)
        | Some d =>
            let minStart := if truthy_bool (dragBounds s) then 0 else - d - 1 in
            let maxStart := maxDuration s - d in
            if Qleb minStart newStartPosition && Qleb newStartPosition maxStart then
              modify (with_tracks <[index := set_startPosition newStartPosition track]>) ;;
              initDurations (durations s) ;;
              render SetContainerOffsets ;;
              updatePosition (currentTime s) false ;;
              emit (EvStartPositionChange (id track) newStartPosition)
            else ret tt
        end
  end.

Definition setTrackStartPosition (index : nat) (value : Q) : M unit :=
  s <- get ;;
  match tracks s !! index with
  | None => throw TypeError
  | Some track =>
      if negb (truthy_bool (draggable track)) then ret tt
      else
        let newStartPosition := value in
        match durations s !! index with
        | None => ret tt   (* [maxStart] is [NaN]: the test below is false *)
        | Some d =>
            let minStart := if truthy_bool (dragBounds s) then 0 else - d - 1 in
            let maxStart := maxDuration s - d in
            if Qleb minStart newStartPosition && Qleb newStartPosition maxStart then
              modify (with_tracks <[index := set_startPosition newStartPosition track]>) ;;
              initDurations (durations s) ;;
              render SetContainerOffsets ;;
              updatePosition (currentTime s) false ;;
              emit (EvStartPositionChange (id track) newStartPosition)
            else ret tt
        end
  end.

(** *** The clock: [startSync] and its [onFrame] *)

(** [requestAnimationFrame(onFrame)]: the browser keeps the callback under a
    new handle. *)
Definition requestAnimationFrame : M nat :=
  s <- get ;;
  let h := nextFrame s in
  modify (with_pendingFrames (fun l => l ++ [h])) ;;
  modify (with_nextFrame (S h)) ;;
  ret h.

(** [cancelAnimationFrame(h)] *)
Definition cancelAnimationFrame (h : nat) : M unit :=
  modify (with_pendingFrames (List.filter (fun x => negb (x =? h)%nat))).

(** [this.audios.reduce((pos, audio, index) => ..., this.currentTime)];
    [None] when [this.tracks[index]] is [undefined] for a playing audio. *)
Fixpoint onFrame_reduce (pos : Q) (l : list Audio.t) (ts : list TrackOptions)
    (index : nat) : option Q :=
  match l with
  | [] => Some pos
  | audio :: l' =>
      if negb (Audio.paused audio) then
        match ts !! index with
        | None => None
        | Some track =>
            onFrame_reduce (Qmax pos (Audio.currentTime audio + startPosition track))
              l' ts (S index)
        end
      else onFrame_reduce pos l' ts (S index)
  end.

Definition onFrame : M unit :=
  s <- get ;;
  match onFrame_reduce (currentTime s) (audios s) (tracks s) 0 with
  | None => throw TypeError
  | Some position =>
      (if Qltb (currentTime s) position then updatePosition position true else ret tt) ;;
      h <- requestAnimationFrame ;;
      modify (with_frameRequest (Some h))
  end.

Definition startSync : M unit := onFrame.

(** The browser runs the callback kept under handle [h], if it is still
    pending. *)
Definition animationFrame (h : nat) : M unit :=
  s <- get ;;
  if existsb (fun x => (x =? h)%nat) (pendingFrames s) then
    cancelAnimationFrame h ;; onFrame
  else ret tt.

(** *** [play], [pause], [destroy] *)

Fixpoint findCurrentTracks_forEach (s : MultiTrack) (ts : list TrackOptions)
    (index : nat) : list Z :=
  match ts with
  | [] => []
  | track :: ts' =>
      (if (truthy_str (url track) || truthy_media (media track))
          && Qleb (startPosition track) (currentTime s)
          && match durations s !! index with
             | Some d => Qltb (currentTime s) (startPosition track + d)
             | None => false
             end
       then [Z.of_nat index] else [])
      ++ findCurrentTracks_forEach s ts' (S index)
  end.

(** [Math.min(...l)]; [None] is [Infinity], the minimum of no number. *)
Fixpoint Math_min (l : list Q) : option Q :=
  match l with
  | [] => None
  | x :: l' => match Math_min l' with
               | None => Some x
               | Some m => Some (Qmin x m)
               end
  end.

Definition findCurrentTracks (s : MultiTrack) : list Z :=
  let indexes := findCurrentTracks_forEach s (tracks s) 0 in
  match indexes with
  | [] =>
      let minStartTime :=
        Math_min (List.map startPosition
                    (List.filter (fun t => truthy_str (url t)) (tracks s))) in
      let found :=
        match minStartTime with
        | Some m => findIndex (fun track => Qeqb (startPosition track) m) (tracks s)
        | None => None
        end in
      [match found with Some i => Z.of_nat i | None => (-1)%Z end]
  | _ => indexes
  end.

(** [this.audios[index]?.play()] *)
Definition play_index (index : Z) : M unit :=
  if (index <? 0)%Z then ret tt
  else modify (with_audios (alter Audio.play (Z.to_nat index))).

Fixpoint play_forEach (indexes : list Z) : M unit :=
  match indexes with
  | [] => ret tt
  | index :: rest => play_index index ;; play_forEach rest
  end.

Definition play : M unit :=
  startSync ;;
  s <- get ;;
  play_forEach (findCurrentTracks s).

Definition pause : M unit :=
  modify (with_audios (List.map Audio.pause)).

Definition destroy : M unit :=
  s <- get ;;
  match frameRequest s with
  | Some h => if (h =? 0)%nat then ret tt else cancelAnimationFrame h
  | None => ret tt
  end ;;
  render RenderDestroy ;;
  modify (with_audios (List.map (fun audio => Audio.set_src "" (Audio.pause audio)))).

(** *** Rate and seeking *)

Definition getAudioRate (s : MultiTrack) : Js.num :=
  match audios s with
  | audio :: _ => Audio.playbackRate audio
  | [] => Js.Num 1
  end.

Definition setAudioRate (rate : Js.num) : M unit :=
  if Js.ltb rate (Js.Num (1 # 4)) || Js.ltb (Js.Num 5) rate then
    throw (RateError "Playback rate must be between 0.25 and 5.0")
  else modify (with_audios (List.map (Audio.set_playbackRate rate))).

Definition seekTo (position : Q) : M unit :=
  s <- get ;;
  let wasPlaying := isPlaying s in
  updatePosition (position * maxDuration s) false ;;
  if wasPlaying then play else ret tt.

Definition setTime (time : Q) : M unit :=
  s <- get ;;
  let wasPlaying := isPlaying s in
  updatePosition time false ;;
  if wasPlaying then play else ret tt.

(** *** Construction and loading

    [loaded] is what the surroundings supply: the duration the element of a
    track reports once its promise resolves ([None] is [NaN]). *)

Definition initAudio (track : TrackOptions) (loaded : option Q) : Audio.t :=
  let audio := match media track with Some m => m | None => Audio.fresh end in
  let audio :=
    if truthy_str (url track)
    then Audio.set_src (match url track with Some u => u | None => "" end) audio
    else audio in
  let audio := match volume track with
               | Some v => Audio.set_volume v audio
               | None => audio
               end in
  if String.eqb (Audio.src audio) "" then audio
  else Audio.set_duration loaded audio.

(** [this.audios.map((a) => (a.src ? a.duration : 0))] *)
Fixpoint initAllAudios_durations (l : list Audio.t) : option (list Q) :=
  match l with
  | [] => Some []
  | a :: l' =>
      match (if String.eqb (Audio.src a) "" then Some 0 else Audio.duration a),
            initAllAudios_durations l' with
      | Some d, Some ds => Some (d :: ds)
      | _, _ => None
      end
  end.

Definition initAllAudios (loaded : TrackOptions -> option Q) : M (list Q) :=
  s <- get ;;
  modify (with_audios (fun _ => List.map (fun track => initAudio track (loaded track)) (tracks s))) ;;
  s <- get ;;
  match initAllAudios_durations (audios s) with
  | Some ds => ret ds
  | None => throw Unmodelled
  end.

(** The synchronous part of the constructor. *)
Definition create (tracks0 : list TrackOptions) (options_dragBounds : option bool) : MultiTrack :=
  {| tracks := List.map (fun track =>
                 set_startPosition (or_default (Some (startPosition track)) 0) track)
                 (tracks0 ++ [PLACEHOLDER_TRACK]);
     dragBounds := options_dragBounds;
     audios := []; durations := []; currentTime := 0; maxDuration := 0;
     frameRequest := None; pendingFrames := []; nextFrame := 1%nat;
     emitted := []; rendered := [] |}.

(** The continuation [this.initAllAudios().then(...)] of the constructor. *)
Definition create_then (loaded : TrackOptions -> option Q) : M unit :=
  ds <- initAllAudios loaded ;;
  initDurations ds ;;
  emit EvCanplay.

(** *** [addTrack]: replace a track in place *)

(** The synchronous part: the index of the track with that id, replaced. *)
Definition addTrack (track : TrackOptions) : M (option nat) :=
  s <- get ;;
  match findIndex (fun t => TrackId_eqb (id t) (id track)) (tracks s) with
  | None => ret None
  | Some index =>
      modify (with_tracks <[index := track]>) ;;
      ret (Some index)
  end.

(** The continuation [this.initAudio(track).then((audio) => ...)], run when
    the new element has loaded.  With a duration that is [NaN] (an element
    without media, and no [options.duration]) the script goes on with
    [NaN]: that run is [Nan.addTrack_then] below, and here it leaves the
    rationals. *)
Definition addTrack_then (index : nat) (track : TrackOptions) (audio : Audio.t) : M unit :=
  s <- get ;;
  match array_set index audio (audios s) with
  | None => throw Unmodelled
  | Some audios1 =>
      modify (with_audios (fun _ => audios1)) ;;
      match (match optDuration track with
             | Some d => Some d
             | None => Audio.duration audio
             end) with
      | None => throw Unmodelled
      | Some d =>
          match array_set index d (durations s) with
          | None => throw Unmodelled
          | Some durations1 =>
              modify (with_durations (fun _ => durations1)) ;;
              initDurations durations1 ;;
              emit EvCanplay
          end
      end
  end.

(** ** The timeline on numbers that may be [NaN]

    [initDurations] and the continuation of [addTrack] once more, on the
    fields they compute: here a duration and the timeline length may be
    [NaN], as [audio.duration] is for an element without media. *)
Module Nan.
Record state : Type := mk {
  tracks : list TrackOptions;
  audios : list Audio.t;
  durations : list Js.num;
  maxDuration : Js.num
}.

(** [arr[i] = x] on numbers: the holes left when [i] is beyond the end read
    as [undefined], which is [NaN] to the sums that read them. *)
Definition store (i : nat) (x : Js.num) (l : list Js.num) : list Js.num :=
  if (i <? List.length l)%nat then <[i:=x]> l
  else l ++ repeat Js.NaN (i - List.length l) ++ [x].

(** [this.tracks.reduce((max, track, index) =>
       Math.max(max, track.startPosition + durations[index]), 0)] *)
Fixpoint maxDuration_reduce (max : Js.num) (ts : list TrackOptions)
    (ds : list Js.num) (index : nat) : Js.num :=
  match ts with
  | [] => max
  | track :: ts' =>
      maxDuration_reduce
        (Js.max max (Js.add (Js.Num (startPosition track))
                       (match ds !! index with Some d => d | None => Js.NaN end)))
        ts' ds (S index)
  end.

Definition initDurations (durations0 : list Js.num) (s : state) : state :=
  let m := maxDuration_reduce (Js.Num 0) (tracks s) durations0 0 in
  match findIndex is_placeholder_audio (audios s) with
  | None => mk (tracks s) (audios s) durations0 m
  | Some placeholderAudioIndex =>
      mk (tracks s)
         (alter (Audio.set_duration (Js.to_option m)) placeholderAudioIndex (audios s))
         (store placeholderAudioIndex m durations0) m
  end.

(** The continuation of [addTrack]; [None] when [this.audios[index] = audio]
    would leave holes in [audios]. *)
Definition addTrack_then (index : nat) (track : TrackOptions) (audio : Audio.t)
    (s : state) : option state :=
  match array_set index audio (audios s) with
  | None => None
  | Some audios1 =>
      let d := match optDuration track with
               | Some d => Js.Num d
               | None => Js.of_option (Audio.duration audio)
               end in
      Some (initDurations (store index d (durations s))
              (mk (tracks s) audios1 (durations s) (maxDuration s)))
  end.
End Nan.

(** The fields of the engine as numbers that may be [NaN]. *)
Definition nan_state (s : MultiTrack) : Nan.state :=
  Nan.mk (tracks s) (audios s) (List.map Js.Num (durations s)) (Js.Num (maxDuration s)).

(** ** Concrete inputs used by the examples below *)

Definition cue_track (s e : option Q) : TrackOptions :=
  {| id := IdString "a"; url := Some "a.mp3"; media := None; optDuration := None;
     draggable := Some true; startPosition := 0; startCue := s; endCue := e;
     volume := None |}.


Definition trackA : TrackOptions :=
  {| id := IdString "A"; url := Some "a.mp3"; media := None; optDuration := None;
     draggable := Some true; startPosition := 0; startCue := None; endCue := None;
     volume := None |}.

Definition trackB : TrackOptions :=
  {| id := IdString "B"; url := Some "b.mp3"; media := None; optDuration := None;
     draggable := Some true; startPosition := 5; startCue := None; endCue := None;
     volume := None |}.

(** A lane that cannot be dragged. *)
Definition trackC : TrackOptions :=
  {| id := IdString "C"; url := Some "c.mp3"; media := None; optDuration := None;
     draggable := None; startPosition := 2; startCue := None; endCue := None;
     volume := None |}.

(** Every clip lasts 10 seconds; the silent clip reports 0. *)
Definition demo_loaded (track : TrackOptions) : option Q :=
  if TrackId_eqb (id track) (id PLACEHOLDER_TRACK) then Some 0 else Some 10.

(** Two tracks, A at 0 and B at 5, loaded: the timeline lasts 15 seconds. *)
Definition demo : MultiTrack :=
  state_of (create_then demo_loaded (create [trackA; trackB] None)).

(** The same with drag bounds, and with the third, fixed lane. *)
Definition demo_bounded : MultiTrack :=
  state_of (create_then demo_loaded (create [trackA; trackB] (Some true))).

Definition demo_fixed : MultiTrack :=
  state_of (create_then demo_loaded (create [trackA; trackC] None)).

(** [demo] after [play()]: A is playing, the first tick is scheduled. *)
Definition demo_playing : MultiTrack := state_of (play demo).

(** ** Notions the statements use *)

(** [startPosition + duration] of every track. *)
Definition track_ends (s : MultiTrack) : list Q :=
  zip_with (fun track d => startPosition track + d) (tracks s) (durations s).

(** [m] is the maximum of [l]: attained in [l] and an upper bound of it. *)
Definition is_maximum (m : Q) (l : list Q) : Prop :=
  Exists (fun x => x == m) l /\ Forall (fun x => x <= m) l.

(** One audio and one duration per track. *)
Definition aligned (s : MultiTrack) : Prop :=
  List.length (audios s) = List.length (tracks s)
  /\ List.length (durations s) = List.length (tracks s).

(** The audio [initDurations] finds by the silent clip's url is that of the
    track at index [p], which starts at 0 and is not draggable. *)
Definition placeholder_at (p : nat) (s : MultiTrack) : Prop :=
  findIndex is_placeholder_audio (audios s) = Some p
  /\ exists tp, tracks s !! p = Some tp
       /\ startPosition tp == 0 /\ truthy_bool (draggable tp) = false.

(** The shape of the state once the constructor's load has completed. *)
Definition loaded_state (s : MultiTrack) : Prop :=
  aligned s /\ exists p, placeholder_at p s.

(** ... and the placeholder lasts as long as the timeline. *)
Definition timeline_state (s : MultiTrack) : Prop :=
  aligned s /\ exists p, placeholder_at p s
     /\ exists dp, durations s !! p = Some dp /\ dp == maxDuration s.

(** [t'] is [t] but for its start position. *)
Definition same_but_start (t t' : TrackOptions) : Prop :=
  id t' = id t /\ url t' = url t /\ media t' = media t
  /\ optDuration t' = optDuration t /\ draggable t' = draggable t
  /\ startCue t' = startCue t /\ endCue t' = endCue t /\ volume t' = volume t.

(** In [s'] the track at [index] is [track] moved to [x], and every other
    track is as in [s]. *)
Definition moved_to (index : nat) (track : TrackOptions) (x : Q) (s s' : MultiTrack) : Prop :=
  (exists t', tracks s' !! index = Some t'
     /\ startPosition t' = x /\ same_but_start track t')
  /\ (forall j, j <> index -> tracks s' !! j = tracks s !! j)
  /\ List.length (tracks s') = List.length (tracks s).

(** A drag or set to [newStart] of track [index] passes the bounds test. *)
Definition commits (index : nat) (newStart : Q) (s : MultiTrack) : Prop :=
  exists track d,
    tracks s !! index = Some track
    /\ truthy_bool (draggable track) = true
    /\ durations s !! index = Some d
    /\ (if truthy_bool (dragBounds s) then 0 else - d - 1) <= newStart
    /\ newStart <= maxDuration s - d.

Definition drag_target (index : nat) (delta : Q) (s : MultiTrack) : Q :=
  match tracks s !! index with
  | Some track => startPosition track + delta * maxDuration s
  | None => 0
  end.

(** The mutations of start offsets and durations. *)
Inductive Mutation : Type :=
| InitialLoad (tracks0 : list TrackOptions) (loaded : TrackOptions -> option Q)
| Replacement (index : nat) (track : TrackOptions) (audio : Audio.t)
| DragCommit (index : nat) (delta : Q)
| SetStart (index : nat) (value : Q).

Definition mutate (m : Mutation) : M unit :=
  match m with
  | InitialLoad _ loaded => create_then loaded
  | Replacement index track audio => addTrack_then index track audio
  | DragCommit index delta => onDrag index delta
  | SetStart index value => setTrackStartPosition index value
  end.

(** When a mutation applies: the load runs on the state the constructor
    left, with no user track on the silent clip and every element reporting
    a duration; a replacement puts an element other than the silent clip in
    the place of a track other than the placeholder; a drag or set passes
    its bounds test. *)
Definition applies (m : Mutation) (s : MultiTrack) : Prop :=
  match m with
  | InitialLoad tracks0 loaded =>
      (exists db, s = create tracks0 db)
      /\ Forall (fun t => is_placeholder_audio (initAudio t None) = false) tracks0
      /\ (forall t, loaded t <> None)
  | Replacement index track audio =>
      loaded_state s
      /\ (index < List.length (tracks s))%nat
      /\ findIndex is_placeholder_audio (audios s) <> Some index
      /\ is_placeholder_audio audio = false
      /\ (optDuration track <> None \/ Audio.duration audio <> None)
  | DragCommit index delta =>
      loaded_state s /\ commits index (drag_target index delta s) s
  | SetStart index value =>
      loaded_state s /\ commits index value s
  end.

(** The durations a mutation hands to [initDurations]. *)
Definition handed_durations (m : Mutation) (s : MultiTrack) : option (list Q) :=
  match m with
  | InitialLoad _ loaded =>
      initAllAudios_durations
        (List.map (fun track => initAudio track (loaded track)) (tracks s))
  | Replacement index track audio =>
      match (match optDuration track with
             | Some d => Some d
             | None => Audio.duration audio
             end) with
      | Some d => array_set index d (durations s)
      | None => None
      end
  | DragCommit _ _ => Some (durations s)
  | SetStart _ _ => Some (durations s)
  end.

(** [audio.currentTime + track.startPosition] of every audio that is not
    paused. *)
Definition playing_positions (s : MultiTrack) : list Q :=
  List.map (fun at_ => Audio.currentTime (fst at_) + startPosition (snd at_))
    (List.filter (fun at_ => negb (Audio.paused (fst at_)))
       (zip (audios s) (tracks s))).

(** The surroundings: [dt] seconds pass, every audio that is not paused
    advances at its rate (an element whose rate is not a number is left
    where it is). *)
Definition elapse (dt : Q) (s : MultiTrack) : MultiTrack :=
  with_audios
    (List.map (fun a =>
       if Audio.paused a then a
       else match Audio.playbackRate a with
            | Js.Num rate => Audio.set_currentTime (Audio.currentTime a + dt * rate) a
            | Js.NaN => a
            end))
    s.

(** The operations a client and the browser run on the engine, and the
    passing of time between them. *)
Inductive Op : Type :=
| OpLoaded (loaded : TrackOptions -> option Q)
| OpPlay
| OpPause
| OpSetTime (time : Q)
| OpSeekTo (position : Q)
| OpSetAudioRate (rate : Js.num)
| OpAddTrack (track : TrackOptions)
| OpAddTrackLoaded (index : nat) (track : TrackOptions) (audio : Audio.t)
| OpSetTrackStartPosition (index : nat) (value : Q)
| OpDrag (index : nat) (delta : Q)
| OpFrame (h : nat)
| OpElapse (dt : Q)
| OpDestroy.

(** The state after an operation; an operation that throws leaves what it
    had written.  A run in which a step leaves the rationals is told apart
    by [numeric_run] below. *)
Definition run_op (s : MultiTrack) (o : Op) : MultiTrack :=
  match o with
  | OpLoaded loaded => state_of (create_then loaded s)
  | OpPlay => state_of (play s)
  | OpPause => state_of (pause s)
  | OpSetTime time => state_of (setTime time s)
  | OpSeekTo position => state_of (seekTo position s)
  | OpSetAudioRate rate => state_of (setAudioRate rate s)
  | OpAddTrack track => state_of (addTrack track s)
  | OpAddTrackLoaded index track audio => state_of (addTrack_then index track audio s)
  | OpSetTrackStartPosition index value => state_of (setTrackStartPosition index value s)
  | OpDrag index delta => state_of (onDrag index delta s)
  | OpFrame h => state_of (animationFrame h s)
  | OpElapse dt => elapse dt s
  | OpDestroy => state_of (destroy s)
  end.

Definition run_ops (ops : list Op) (s : MultiTrack) : MultiTrack :=
  fold_left run_op ops s.

(** A call that ended outside the rationals: the script went on with
    [NaN] or with a hole in an array. *)
Definition left_rationals {A} (r : Res A) : bool :=
  match r with
  | Throw Unmodelled _ => true
  | _ => false
  end.

(** The operation stays within the rationals. *)
Definition numeric_op (s : MultiTrack) (o : Op) : bool :=
  negb
    match o with
    | OpLoaded loaded => left_rationals (create_then loaded s)
    | OpPlay => left_rationals (play s)
    | OpPause => left_rationals (pause s)
    | OpSetTime time => left_rationals (setTime time s)
    | OpSeekTo position => left_rationals (seekTo position s)
    | OpSetAudioRate rate =>
        match rate with Js.NaN => true | Js.Num _ => left_rationals (setAudioRate rate s) end
    | OpAddTrack track => left_rationals (addTrack track s)
    | OpAddTrackLoaded index track audio => left_rationals (addTrack_then index track audio s)
    | OpSetTrackStartPosition index value =>
        left_rationals (setTrackStartPosition index value s)
    | OpDrag index delta => left_rationals (onDrag index delta s)
    | OpFrame h => left_rationals (animationFrame h s)
    | OpElapse _ => false
    | OpDestroy => left_rationals (destroy s)
    end.

(** Every operation of the run does. *)
Fixpoint numeric_run (ops : list Op) (s : MultiTrack) : bool :=
  match ops with
  | [] => true
  | o :: rest => numeric_op s o && numeric_run rest (run_op s o)
  end.


(** [m] keeps [P] true of the state, whether it returns or throws. *)
Definition keeps (P : MultiTrack -> Prop) {A} (m : M A) : Prop :=
  forall s, P s -> P (state_of (m s)).

(** The state [updatePosition] leaves before it visits the tracks. *)
Definition moved (time : Q) (autoCenter : bool) (s : MultiTrack) : MultiTrack :=
  if negb (Qeqb time (currentTime s))
  then with_rendered (fun l => l ++ [UpdateCursor time (maxDuration s) autoCenter])
         (with_currentTime time s)
  else s.

(** The state [initDurations] leaves when the reduce gives [m] and the
    placeholder audio is at index [p]. *)
Definition initDurations_done (p : nat) (m : Q) (ds : list Q) (s : MultiTrack) : MultiTrack :=
  with_rendered (fun l => l ++ [SetMainWidth (<[p:=m]> ds) m])
    (with_durations (fun _ => <[p:=m]> ds)
       (with_audios (alter (Audio.set_duration (Some m)) p)
          (with_maxDuration m s))).

(** The state a committed drag or set leaves: track [index] moved to
    [newStart], the durations recomputed (reduce [m], placeholder at [p]),
    the audios re-synchronised to [l'], the event emitted. *)
Definition commit_done (p : nat) (m : Q) (l' : list Audio.t) (index : nat) (newStart : Q)
    (track : TrackOptions) (s : MultiTrack) : MultiTrack :=
  with_emitted (fun l => l ++ [EvStartPositionChange (id track) newStart])
    (with_audios (fun _ => l')
       (with_rendered (fun l => l ++ [SetContainerOffsets])
          (initDurations_done p m (durations s)
             (with_tracks <[index := set_startPosition newStart track]> s)))).

(** The state after [this.frameRequest = requestAnimationFrame(onFrame)]. *)
Definition rescheduled (s : MultiTrack) : MultiTrack :=
  with_frameRequest (Some (nextFrame s))
    (with_nextFrame (S (nextFrame s))
       (with_pendingFrames (fun l => l ++ [nextFrame s]) s)).


(** Consecutive ticks: before each one [dt] seconds pass, and nothing else
    happens in between. *)
Fixpoint ticks (dts : list Q) (s : MultiTrack) : MultiTrack :=
  match dts with
  | [] => s
  | dt :: rest => ticks rest (state_of (onFrame (elapse dt s)))
  end.

(** A lane without a clip to put in the place of track B: no url, no media
    element, no duration given. *)
Definition trackB_empty : TrackOptions :=
  {| id := IdString "B"; url := None; media := None; optDuration := None;
     draggable := Some true; startPosition := 5; startCue := None; endCue := None;
     volume := None |}.

(** A clip of 3 seconds to put in the place of track A, 100 seconds in. *)
Definition trackA_late : TrackOptions :=
  {| id := IdString "A"; url := Some "a2.mp3"; media := None; optDuration := None;
     draggable := Some true; startPosition := 100; startCue := None; endCue := None;
     volume := None |}.

(** ** The clock's handles *)

(** Handles are positive and below the next one to be given out, no handle
    is pending twice, and [frameRequest] holds such a handle. *)
Definition clock_wf (s : MultiTrack) : Prop :=
  (1 <= nextFrame s)%nat
  /\ Forall (fun h => 1 <= h < nextFrame s)%nat (pendingFrames s)
  /\ NoDup (pendingFrames s)
  /\ (forall h, frameRequest s = Some h -> (1 <= h < nextFrame s)%nat).

(** The state a tick leaves when its reduce gives [position] and the
    re-synchronised audios are [l']. *)
Definition ticked (position : Q) (l' : list Audio.t) (s : MultiTrack) : MultiTrack :=
  rescheduled
    (if Qltb (currentTime s) position
     then with_audios (fun _ => l') (moved position true s)
     else s).

(** ** Moving the cues

    The handlers of the cue regions: [track.startCue = startCueRegion.end]
    and [track.endCue = endCueRegion.start]. *)
Definition set_startCue (c : Q) (t : TrackOptions) : TrackOptions :=
  {| id := id t; url := url t; media := media t; optDuration := optDuration t;
     draggable := draggable t; startPosition := startPosition t; startCue := Some c;
     endCue := endCue t; volume := volume t |}.

Definition set_endCue (c : Q) (t : TrackOptions) : TrackOptions :=
  {| id := id t; url := url t; media := media t; optDuration := optDuration t;
     draggable := draggable t; startPosition := startPosition t; startCue := startCue t;
     endCue := Some c; volume := volume t |}.

(** The test of [findCurrentTracks] on one track. *)
Definition is_current (s : MultiTrack) (index : nat) (track : TrackOptions) : bool :=
  (truthy_str (url track) || truthy_media (media track))
  && Qleb (startPosition track) (currentTime s)
  && match durations s !! index with
     | Some d => Qltb (currentTime s) (startPosition track + d)
     | None => false
     end.

(** ** The rendering: [initRendering]

    The variables of the closure ([pxPerSec], [durations], [mainWidth]), the
    [clientWidth] read once from the wrapper, [options.minPxPerSec], which
    [zoom] writes, and what is written to the page: the wrapper's width and,
    for the container of each track, its width (when set) and its horizontal
    translation, in pixels.  The [tracks] the closure reads are those of the
    engine, passed along. *)
Module Rendering.
Record container : Type := mkContainer {
  width : option Q;
  translateX : Q
}.

Record t : Type := mk {
  pxPerSec : Q;
  durations : list Q;
  mainWidth : Q;
  clientWidth : Q;
  minPxPerSec : option Q;
  wrapperWidth : Q;
  containers : list container
}.

(** How a call ends: normally, with a [TypeError] ([tracks[i]] is
    [undefined]), or outside the finite numbers (a division by zero). *)
Inductive outcome (A : Type) : Type :=
| Done (a : A)
| TypeErr
| NotFinite.
Arguments Done {A} a.
Arguments TypeErr {A}.
Arguments NotFinite {A}.

(** The state [initRendering] starts from: a container per track. *)
Definition init (tracks : list TrackOptions) (clientWidth0 : Q) (minPxPerSec0 : option Q) : t :=
  {| pxPerSec := 0; durations := []; mainWidth := 0; clientWidth := clientWidth0;
     minPxPerSec := minPxPerSec0; wrapperWidth := 0;
     containers := List.map (fun _ => mkContainer None 0) tracks |}.

(** [containers.forEach((container, i) => ...)] of [setContainerOffsets]:
    the width is written only for a truthy [durations[i]]. *)
Fixpoint setContainerOffsets_forEach (tracks : list TrackOptions) (px : Q) (ds : list Q)
    (cs : list container) (i : nat) : outcome (list container) :=
  match cs with
  | [] => Done []
  | c :: cs' =>
      match tracks !! i with
      | None => TypeErr
      | Some track =>
          let offset := startPosition track * px in
          let c' := mkContainer
                      (match ds !! i with
                       | Some d => if Qeqb d 0 then width c else Some (d * px)
                       | None => width c
                       end)
                      offset in
          match setContainerOffsets_forEach tracks px ds cs' (S i) with
          | Done cs'' => Done (c' :: cs'')
          | TypeErr => TypeErr
          | NotFinite => NotFinite
          end
      end
  end.

Definition setContainerOffsets (tracks : list TrackOptions) (r : t) : outcome t :=
  match setContainerOffsets_forEach tracks (pxPerSec r) (durations r) (containers r) 0 with
  | Done cs => Done (mk (pxPerSec r) (durations r) (mainWidth r) (clientWidth r)
                       (minPxPerSec r) (wrapperWidth r) cs)
  | TypeErr => TypeErr
  | NotFinite => NotFinite
  end.

(** [setMainWidth(trackDurations, maxDuration)]; [clientWidth / 0] is not a
    finite number. *)
Definition setMainWidth (trackDurations : list Q) (maxDuration : Q)
    (tracks : list TrackOptions) (r : t) : outcome t :=
  if Qeqb maxDuration 0 then NotFinite
  else
    let px := Qmax (or_default (minPxPerSec r) 0) (clientWidth r / maxDuration) in
    let w := px * maxDuration in
    setContainerOffsets tracks
      (mk px trackDurations w (clientWidth r) (minPxPerSec r) w (containers r)).

End Rendering.

(** ** [zoom]

    The last two lines of [zoom(pxPerSec)], on the rendering with
    [options.minPxPerSec] written: the widths, then the offsets. *)
Definition zoom_redraw (px : Q) (s : MultiTrack) (r : Rendering.t) :
    Rendering.outcome Rendering.t :=
  match Rendering.setMainWidth (durations s) (maxDuration s) (tracks s)
          (Rendering.mk (Rendering.pxPerSec r) (Rendering.durations r)
             (Rendering.mainWidth r) (Rendering.clientWidth r)
             (Some px) (Rendering.wrapperWidth r) (Rendering.containers r)) with
  | Rendering.Done r' => Rendering.setContainerOffsets (tracks s) r'
  | Rendering.TypeErr => Rendering.TypeErr
  | Rendering.NotFinite => Rendering.NotFinite
  end.

(** What stops the loop over [this.wavesurfers]: [this.tracks[index]] is
    [undefined], or [ws.zoom] throws. *)
Inductive ZoomError : Type :=
| ZoomTypeError
| ZoomWaveSurferError.

(** [this.wavesurfers.forEach((ws, index) =>
       this.tracks[index].url && ws.zoom(pxPerSec))].  [ws.zoom] belongs to
    wavesurfer.js; of each wavesurfer the loop only needs to know whether
    its [zoom] returns ([true]) or throws (as it does while no audio is
    decoded). *)
Fixpoint zoom_forEach (wavesurfers : list bool) (ts : list TrackOptions) (index : nat) :
    option ZoomError :=
  match wavesurfers with
  | [] => None
  | returns :: rest =>
      match ts !! index with
      | None => Some ZoomTypeError
      | Some track =>
          if truthy_str (url track) && negb returns then Some ZoomWaveSurferError
          else zoom_forEach rest ts (S index)
      end
  end.

(** How [zoom] ends: thrown out of the loop, with the rendering as it then
    is, or through to the redrawing. *)
Inductive ZoomOutcome : Type :=
| ZoomThrows (e : ZoomError) (r : Rendering.t)
| ZoomRedrawn (o : Rendering.outcome Rendering.t).

(** [zoom(pxPerSec)] of the engine in state [s], on its rendering:
    [options.minPxPerSec] is written, every wavesurfer of a track with a
    url is zoomed, then the widths and the offsets are redrawn. *)
Definition zoom (px : Q) (wavesurfers : list bool) (s : MultiTrack) (r : Rendering.t) :
    ZoomOutcome :=
  match zoom_forEach wavesurfers (tracks s) 0 with
  | Some e =>
      ZoomThrows e
        (Rendering.mk (Rendering.pxPerSec r) (Rendering.durations r)
           (Rendering.mainWidth r) (Rendering.clientWidth r)
           (Some px) (Rendering.wrapperWidth r) (Rendering.containers r))
  | None => ZoomRedrawn (zoom_redraw px s r)
  end.

(** ** [initDragging]: from pixels to a drag

    The callback given to [makeDraggable]: [onDrag(dx / overallWidth)], with
    the width of the containers' parent read when the drag starts.  With a
    width of 0 the quotient is infinite or [NaN] and no bounds test of
    [onDrag] can pass: the call stops at its guards. *)
Definition initDragging_onDrag (overallWidth : Q) (index : nat) (dx : Q) : M unit :=
  if Qeqb overallWidth 0 then
    s <- get ;;
    match tracks s !! index with
    | None => throw TypeError
    | Some _ => ret tt
    end
  else onDrag index (dx / overallWidth).

(** The rendering of [demo] in a wrapper of 600 pixels, at 40 pixels a
    second. *)
Definition demo_rendering : Rendering.t :=
  Rendering.mk 40 [10; 10; 15] 600 600 None 600
    [Rendering.mkContainer (Some 400) 0; Rendering.mkContainer (Some 400) 200;
     Rendering.mkContainer (Some 600) 0].
(** * Properties *)

(** ** Comparisons *)

Lemma Qltb_lt (x y : Q) : Qltb x y = true <-> x < y.
Proof.
  unfold Qltb. rewrite negb_true_iff, <- not_true_iff_false, Qle_bool_iff.
  split; [apply Qnot_le_lt | apply Qlt_not_le].
Qed.

Lemma Qltb_ge (x y : Q) : Qltb x y = false <-> y <= x.
Proof.
  unfold Qltb. rewrite negb_false_iff. apply Qle_bool_iff.
Qed.

Lemma Qleb_le (x y : Q) : Qleb x y = true <-> x <= y.
Proof. apply Qle_bool_iff. Qed.

Lemma Qeqb_eq (x y : Q) : Qeqb x y = true <-> x == y.
Proof. apply Qeq_bool_iff. Qed.

Lemma Qeqb_neq (x y : Q) : Qeqb x y = false <-> ~ x == y.
Proof. unfold Qeqb. rewrite <- not_true_iff_false, Qeq_bool_iff. tauto. Qed.

(** ** The cue policy *)

(** The scenario of the specification: cues 2 and 8, local times 1, 5, 9. *)
Example isMuted_scenario :
  isMuted 1 (cue_track (Some 2) (Some 8)) = true
  /\ isMuted 5 (cue_track (Some 2) (Some 8)) = false
  /\ isMuted 9 (cue_track (Some 2) (Some 8)) = true.
Proof. repeat split; reflexivity. Qed.

(** What [isMuted] computes: a start cue counts from [0] when absent, an end
    cue bounds the track only when it is present and not zero. *)
Lemma isMuted_iff (newTime : Q) (track : TrackOptions) :
  isMuted newTime track = true <->
  (newTime < match startCue track with Some c => c | None => 0 end)
  \/ (exists c, endCue track = Some c /\ ~ c == 0 /\ c < newTime).
Proof.
  unfold isMuted, or_default, or_Infinity. rewrite orb_true_iff, Qltb_lt.
  assert (Hs : (if startCue track is Some q then if Qeqb q 0 then 0 else q else 0)
               == match startCue track with Some c => c | None => 0 end).
  { destruct (startCue track) as [c|]; [|reflexivity].
    destruct (Qeqb c 0) eqn:E; [|reflexivity].
    apply Qeqb_eq in E. symmetry. exact E. }
  rewrite Hs. clear Hs.
  destruct (endCue track) as [c|]; simpl.
  - destruct (Qeqb c 0) eqn:E; simpl.
    + apply Qeqb_eq in E. split; [intros [H|H]; [left; exact H | discriminate]|].
      intros [H|(c' & Hc & Hn & _)]; [left; exact H|].
      injection Hc as <-. contradiction.
    + apply Qeqb_neq in E. rewrite Qltb_lt.
      split; [intros [H|H]; [left; exact H | right; eauto]|].
      intros [H|(c' & Hc & _ & Hlt)]; [left; exact H|].
      injection Hc as <-. right. exact Hlt.
  - split; [intros [H|H]; [left; exact H | discriminate]|].
    intros [H|(c' & Hc & _)]; [left; exact H | discriminate].
Qed.

(** The code's rule and the specification's rule agree on every track whose
    end cue is absent or not zero. *)
Lemma isMuted_agrees (newTime : Q) (track : TrackOptions) :
  (forall c, endCue track = Some c -> ~ c == 0) ->
  isMuted newTime track = isMuted_spec newTime track.
Proof.
  intros Hend. unfold isMuted, isMuted_spec, or_default, or_Infinity.
  f_equal.
  - destruct (startCue track) as [c|]; [|reflexivity].
    destruct (Qeqb c 0) eqn:E; [|reflexivity].
    apply Qeqb_eq in E. apply eq_true_iff_eq. rewrite !Qltb_lt, E. tauto.
  - destruct (endCue track) as [c|]; [|reflexivity].
    destruct (Qeqb c 0) eqn:E; [|reflexivity].
    apply Qeqb_eq in E. exfalso. exact (Hend c eq_refl E).
Qed.

(** C1, at the input where the code leaves the claim: a track whose end cue is
    present and zero, local time 5.  The claim's rule ([localTime > endCue],
    the default only for an absent cue, [isMuted_spec]) mutes the track; the
    code's [track.endCue || Infinity] takes the zero cue for an absent one
    and leaves the track audible, while it stays muted before a start cue
    and after a non-zero end cue as the claim says. *)
Theorem isMuted_zero_endCue_unmuted :
  isMuted 5 (cue_track None (Some 0)) = false
  /\ isMuted_spec 5 (cue_track None (Some 0)) = true
  /\ isMuted 1 (cue_track (Some 2) (Some 8)) = true
  /\ isMuted 5 (cue_track (Some 2) (Some 8)) = false
  /\ isMuted 9 (cue_track (Some 2) (Some 8)) = true.
Proof. repeat split; reflexivity. Qed.

Example demo_maxDuration : maxDuration demo = 15 /\ durations demo = [10; 10; 15].
Proof. vm_compute. split; reflexivity. Qed.

(** ** What a computation keeps true of the state, thrown or not *)


Section Keeps.
Context (P : MultiTrack -> Prop).

Lemma keeps_ret {A} (a : A) : keeps P (ret a).
Proof. intros s H. exact H. Qed.

Lemma keeps_throw {A} (e : Error) : keeps P (@throw A e).
Proof. intros s H. exact H. Qed.

Lemma keeps_modify (f : MultiTrack -> MultiTrack) :
  (forall s, P s -> P (f s)) -> keeps P (modify f).
Proof. intros Hf s H. apply Hf, H. Qed.

Lemma keeps_bind {A B} (m : M A) (k : A -> M B) :
  keeps P m -> (forall a, keeps P (k a)) -> keeps P (bind m k).
Proof.
  intros Hm Hk s H. unfold bind. specialize (Hm s H).
  destruct (m s) as [a s'|e s']; simpl in *; [apply Hk, Hm | exact Hm].
Qed.

(** After [s <- get], the continuation runs in the state it was given. *)
Lemma keeps_get_bind {B} (k : MultiTrack -> M B) :
  (forall s, P s -> P (state_of (k s s))) -> keeps P (bind get k).
Proof. intros Hk s H. unfold bind, get. apply Hk, H. Qed.

(** ... and what holds of that state may be used for it. *)
Lemma keeps_get_bind' {B} (k : MultiTrack -> M B) :
  (forall s, P s -> keeps P (k s)) -> keeps P (bind get k).
Proof. intros Hk s H. unfold bind, get. exact (Hk s H s H). Qed.

Lemma keeps_if {A} (b : bool) (m1 m2 : M A) :
  keeps P m1 -> keeps P m2 -> keeps P (if b then m1 else m2).
Proof. destruct b; auto. Qed.
End Keeps.

(** Steps through returns, throws, field updates that do not touch [P],
    sequencing and conditionals. *)
Ltac keeps_steps :=
  repeat first
    [ apply keeps_ret
    | apply keeps_throw
    | apply keeps_modify; intros ? ?; assumption
    | apply keeps_bind; [|intros ?]
    | apply keeps_if ].

(** ** [updatePosition] *)

(** With an audio for every track the loop ends normally; it rewrites the
    audio of each track by [updatePosition_track] and nothing else. *)
Lemma updatePosition_forEach_ok (isPaused : bool) (time : Q) (ts : list TrackOptions) :
  forall (index : nat) (s : MultiTrack),
    (index + List.length ts <= List.length (audios s))%nat ->
    exists l' : list Audio.t,
      updatePosition_forEach isPaused time ts index s
        = Ok tt (with_audios (fun _ => l') s)
      /\ List.length l' = List.length (audios s)
      /\ (forall j track, ts !! j = Some track ->
            exists a, audios s !! (index + j)%nat = Some a
              /\ l' !! (index + j)%nat
                 = Some (updatePosition_track isPaused time track
                           (durations s !! (index + j)%nat) a))
      /\ (forall i, (i < index \/ index + List.length ts <= i)%nat ->
            l' !! i = audios s !! i).
Proof.
  induction ts as [|track ts IH]; intros index s Hlen.
  - exists (audios s). simpl. repeat split; try done.
    destruct s; reflexivity.
  - simpl in Hlen.
    destruct (lookup_lt_is_Some_2 (audios s) index) as [audio Ha]; [lia|].
    set (s1 := with_audios
           <[index := updatePosition_track isPaused time track (durations s !! index) audio]> s).
    destruct (IH (S index) s1) as (l' & Hrun & Hl & Hin & Hout).
    { subst s1; simpl. rewrite length_insert. lia. }
    exists l'. split; [|split; [|split]].
    + simpl. unfold bind at 1, get. rewrite Ha. unfold bind at 1, modify.
      fold s1. rewrite Hrun. reflexivity.
    + rewrite Hl. subst s1; simpl. apply length_insert.
    + intros [|j] tr Hj.
      * simpl in Hj. injection Hj as <-. rewrite Nat.add_0_r.
        exists audio. split; [exact Ha|].
        rewrite Hout by lia. subst s1; simpl.
        apply list_lookup_insert_eq. apply lookup_lt_Some in Ha. exact Ha.
      * simpl in Hj. destruct (Hin j tr Hj) as (a & Ha' & Hl').
        replace (index + S j)%nat with (S index + j)%nat by lia.
        exists a. split; [|exact Hl'].
        subst s1; simpl in Ha'. rewrite list_lookup_insert_ne in Ha' by lia. exact Ha'.
    + intros i Hi. rewrite Hout by (simpl in Hi; lia).
      subst s1; simpl. apply list_lookup_insert_ne. simpl in Hi. lia.
Qed.


Lemma updatePosition_ok (time : Q) (autoCenter : bool) (s : MultiTrack) :
  (List.length (tracks s) <= List.length (audios s))%nat ->
  exists l' : list Audio.t,
    updatePosition time autoCenter s
      = Ok tt (with_audios (fun _ => l') (moved time autoCenter s))
    /\ List.length l' = List.length (audios s)
    /\ (forall j track, tracks s !! j = Some track ->
          exists a, audios s !! j = Some a
            /\ l' !! j = Some (updatePosition_track (negb (isPlaying s)) time track
                                 (durations s !! j) a))
    /\ (forall i, (List.length (tracks s) <= i)%nat -> l' !! i = audios s !! i).
Proof.
  intros Hlen.
  assert (Hm : audios (moved time autoCenter s) = audios s
               /\ durations (moved time autoCenter s) = durations s).
  { unfold moved. destruct (negb (Qeqb time (currentTime s))); split; reflexivity. }
  destruct Hm as [Hma Hmd].
  destruct (updatePosition_forEach_ok (negb (isPlaying s)) time (tracks s) 0
              (moved time autoCenter s)) as (l' & Hrun & Hl & Hin & Hout).
  { rewrite Hma. simpl. exact Hlen. }
  exists l'. split; [|split; [|split]].
  - unfold updatePosition, bind at 1, get. unfold bind at 1.
    replace ((if negb (Qeqb time (currentTime s))
              then bind (modify (with_currentTime time))
                     (fun _ => render (UpdateCursor time (maxDuration s) autoCenter))
              else ret tt) s)
      with (Ok tt (moved time autoCenter s)).
    + exact Hrun.
    + unfold moved. destruct (negb (Qeqb time (currentTime s))); reflexivity.
  - rewrite Hl, Hma. reflexivity.
  - intros j track Hj. specialize (Hin j track Hj). simpl in Hin.
    rewrite Hma, Hmd in Hin. exact Hin.
  - intros i Hi. rewrite Hout by (simpl; right; lia). rewrite Hma. reflexivity.
Qed.

(** ** [initDurations] *)

Lemma Qmax_l_le (x y : Q) : x <= Qmax x y.
Proof. apply Q.le_max_l. Qed.

Lemma Qmax_r_le (x y : Q) : y <= Qmax x y.
Proof. apply Q.le_max_r. Qed.

Lemma Qmax_cases (x y : Q) : Qmax x y == x \/ Qmax x y == y.
Proof.
  destruct (Q.max_spec x y) as [[_ H]|[_ H]]; [right | left]; exact H.
Qed.

(** The reduce of [initDurations], when every track has a duration: the
    result bounds the start value and every [startPosition + duration],
    and is one of them. *)
Lemma maxDuration_reduce_spec (ts : list TrackOptions) (ds : list Q) :
  forall (index : nat) (acc : Q),
    (index + List.length ts <= List.length ds)%nat ->
    exists m, maxDuration_reduce acc ts ds index = Some m
      /\ acc <= m
      /\ (forall j t d, ts !! j = Some t -> ds !! (index + j)%nat = Some d ->
            startPosition t + d <= m)
      /\ (m == acc
          \/ exists j t d, ts !! j = Some t /\ ds !! (index + j)%nat = Some d
               /\ m == startPosition t + d).
Proof.
  induction ts as [|t ts IH]; intros index acc Hlen.
  - exists acc. simpl. repeat split; [apply Qle_refl | | left; reflexivity].
    intros j t d Hj. discriminate.
  - simpl in Hlen.
    destruct (lookup_lt_is_Some_2 ds index) as [d Hd]; [lia|].
    destruct (IH (S index) (Qmax acc (startPosition t + d))) as (m & Hm & Hacc & Hub & Hatt);
      [lia|].
    exists m. simpl. rewrite Hd. split; [exact Hm|]. split; [|split].
    + eapply Qle_trans; [apply Qmax_l_le | exact Hacc].
    + intros [|j] t' d' Hj Hd'.
      * simpl in Hj. injection Hj as <-. rewrite Nat.add_0_r, Hd in Hd'.
        injection Hd' as <-. eapply Qle_trans; [apply Qmax_r_le | exact Hacc].
      * simpl in Hj. apply (Hub j); [exact Hj|].
        replace (S index + j)%nat with (index + S j)%nat by lia. exact Hd'.
    + destruct Hatt as [Heq|(j & t' & d' & Hj & Hd' & Heq)].
      * destruct (Qmax_cases acc (startPosition t + d)) as [Hc|Hc].
        -- left. rewrite Heq. exact Hc.
        -- right. exists 0%nat, t, d. rewrite Nat.add_0_r.
           repeat split; [exact Hd|]. rewrite Heq. exact Hc.
      * right. exists (S j), t', d'. repeat split; [exact Hj| |exact Heq].
        replace (index + S j)%nat with (S index + j)%nat by lia. exact Hd'.
Qed.

Lemma array_set_in_range {A} (i : nat) (x : A) (l : list A) :
  (i < List.length l)%nat -> array_set i x l = Some (<[i:=x]> l).
Proof.
  intros H. unfold array_set. apply Nat.ltb_lt in H. rewrite H. reflexivity.
Qed.

Lemma initDurations_ok (ds : list Q) (s : MultiTrack) (p : nat) (tp : TrackOptions) :
  List.length ds = List.length (tracks s) ->
  findIndex is_placeholder_audio (audios s) = Some p ->
  tracks s !! p = Some tp ->
  startPosition tp == 0 ->
  exists m,
    initDurations ds s = Ok tt (initDurations_done p m ds s)
    /\ maxDuration_reduce 0 (tracks s) ds 0 = Some m
    /\ 0 <= m
    /\ is_maximum m
         (zip_with (fun track d => startPosition track + d) (tracks s) (<[p:=m]> ds))
    /\ (forall dp, ds !! p = Some dp -> dp <= m).
Proof.
  intros Hlen Hfind Htp Hzero.
  destruct (maxDuration_reduce_spec (tracks s) ds 0 0) as (m & Hm & Hpos & Hub & _);
    [simpl; lia|].
  assert (Hp : (p < List.length ds)%nat).
  { rewrite Hlen. eapply lookup_lt_Some, Htp. }
  exists m. split; [|split; [exact Hm|split; [exact Hpos|split]]].
  - unfold initDurations, bind, modify, get. simpl.
    rewrite Hm, Hfind. simpl. rewrite (array_set_in_range p m ds Hp). reflexivity.
  - split.
    + apply stdpp.list_relations.list.Exists_exists. exists (startPosition tp + m). split.
      * apply list_elem_of_lookup. exists p.
        apply lookup_zip_with_Some. exists tp, m. repeat split; [exact Htp|].
        apply list_lookup_insert_eq, Hp.
      * rewrite Hzero. apply Qplus_0_l.
    + apply Forall_lookup. intros i x Hx.
      apply lookup_zip_with_Some in Hx as (t & d & -> & Ht & Hd).
      destruct (decide (i = p)) as [->|Hne].
      * rewrite list_lookup_insert_eq in Hd by exact Hp. injection Hd as <-.
        rewrite Htp in Ht. injection Ht as <-. rewrite Hzero, Qplus_0_l. apply Qle_refl.
      * rewrite list_lookup_insert_ne in Hd by congruence.
        apply (Hub i t d Ht). exact Hd.
  - intros dp Hdp. specialize (Hub p tp dp Htp Hdp).
    rewrite Hzero, Qplus_0_l in Hub. exact Hub.
Qed.

(** ** The placeholder audio stays where it is *)

Lemma updatePosition_track_src isPaused time track duration a :
  Audio.src (updatePosition_track isPaused time track duration a) = Audio.src a.
Proof.
  unfold updatePosition_track. repeat case_match; reflexivity.
Qed.

Lemma findIndex_from_ext {A} (p : A -> bool) (l l' : list A) :
  List.length l = List.length l' ->
  (forall i a a', l !! i = Some a -> l' !! i = Some a' -> p a = p a') ->
  forall k, findIndex_from p l k = findIndex_from p l' k.
Proof.
  revert l'. induction l as [|x l IH]; intros [|x' l'] Hlen Hp k; try discriminate.
  - reflexivity.
  - simpl. rewrite (Hp 0%nat x x' eq_refl eq_refl).
    destruct (p x'); [reflexivity|].
    apply IH; [simpl in Hlen; lia|].
    intros i a a' Ha Ha'. exact (Hp (S i) a a' Ha Ha').
Qed.

Lemma findIndex_ext {A} (p : A -> bool) (l l' : list A) :
  List.length l = List.length l' ->
  (forall i a a', l !! i = Some a -> l' !! i = Some a' -> p a = p a') ->
  findIndex p l = findIndex p l'.
Proof. intros Hlen Hp. apply findIndex_from_ext; assumption. Qed.

Lemma findIndex_alter_duration (l : list Audio.t) (p : nat) (d : option Q) :
  findIndex is_placeholder_audio (alter (Audio.set_duration d) p l)
  = findIndex is_placeholder_audio l.
Proof.
  apply findIndex_ext; [apply length_alter|].
  intros i a a' Ha Ha'. rewrite list_lookup_alter in Ha. case_decide.
  - subst i. rewrite Ha' in Ha. simpl in Ha. injection Ha as <-. reflexivity.
  - congruence.
Qed.

(** Re-synchronising the audios and setting a duration do not move the
    placeholder audio. *)
Lemma findIndex_resync (l l' : list Audio.t) (f : Audio.t -> Audio.t)
    (q : nat) isPaused time (ds : list Q) (ts : list TrackOptions) :
  (forall a, Audio.src (f a) = Audio.src a) ->
  List.length l' = List.length l ->
  (forall j track, ts !! j = Some track ->
     exists a, alter f q l !! j = Some a
       /\ l' !! j = Some (updatePosition_track isPaused time track (ds !! j) a)) ->
  (forall i, (List.length ts <= i)%nat -> l' !! i = alter f q l !! i) ->
  findIndex is_placeholder_audio l' = findIndex is_placeholder_audio l.
Proof.
  intros Hf Hlen Hin Hout. apply findIndex_ext; [exact Hlen|].
  intros i a' a Ha' Ha.
  assert (Hsrc : forall b, alter f q l !! i = Some b -> Audio.src b = Audio.src a).
  { intros b Hb. rewrite list_lookup_alter in Hb. case_decide.
    - subst q. rewrite Ha in Hb. simpl in Hb. injection Hb as <-. apply Hf.
    - rewrite Ha in Hb. injection Hb as <-. reflexivity. }
  unfold is_placeholder_audio. simpl.
  destruct (ts !! i) as [track|] eqn:Ht.
  - destruct (Hin i track Ht) as (b & Hb & Hl'). rewrite Ha' in Hl'.
    injection Hl' as ->. rewrite updatePosition_track_src, (Hsrc b Hb). reflexivity.
  - apply lookup_ge_None in Ht. rewrite Hout in Ha' by exact Ht.
    rewrite (Hsrc a' Ha'). reflexivity.
Qed.

(** ** A committed drag or set *)

Lemma bind_ok {A B} (m : M A) (k : A -> M B) (s s' : MultiTrack) (a : A) :
  m s = Ok a s' -> bind m k s = k a s'.
Proof. intros H. unfold bind. rewrite H. reflexivity. Qed.

Lemma Qeqb_refl (x : Q) : Qeqb x x = true.
Proof. apply Qeqb_eq. reflexivity. Qed.

Lemma placeholder_not_dragged (s : MultiTrack) (p index : nat) (track : TrackOptions) :
  placeholder_at p s -> tracks s !! index = Some track ->
  truthy_bool (draggable track) = true -> index <> p.
Proof.
  intros (_ & tp & Htp & _ & Hnd) Ht Hd ->. rewrite Htp in Ht.
  injection Ht as ->. congruence.
Qed.

Lemma commit_ok (s : MultiTrack) (p index : nat) (track : TrackOptions) (newStart : Q) :
  aligned s -> placeholder_at p s ->
  tracks s !! index = Some track -> truthy_bool (draggable track) = true ->
  exists m l',
    (modify (with_tracks <[index := set_startPosition newStart track]>) ;;
     initDurations (durations s) ;;
     render SetContainerOffsets ;;
     updatePosition (currentTime s) false ;;
     emit (EvStartPositionChange (id track) newStart)) s
      = Ok tt (commit_done p m l' index newStart track s)
    /\ 0 <= m
    /\ is_maximum m (track_ends (commit_done p m l' index newStart track s))
    /\ (forall dp, durations s !! p = Some dp -> dp <= m)
    /\ aligned (commit_done p m l' index newStart track s)
    /\ placeholder_at p (commit_done p m l' index newStart track s).
Proof.
  intros [Hla Hld] Hp Ht Hdrag.
  pose proof (placeholder_not_dragged s p index track Hp Ht Hdrag) as Hne.
  destruct Hp as (Hfind & tp & Htp & Hzero & Hnd).
  set (s1 := with_tracks <[index := set_startPosition newStart track]> s).
  destruct (initDurations_ok (durations s) s1 p tp) as (m & Hinit & _ & Hpos & Hmax & Hdp).
  { subst s1; simpl. rewrite length_insert. exact Hld. }
  { exact Hfind. }
  { subst s1; simpl. rewrite list_lookup_insert_ne by exact Hne. exact Htp. }
  { exact Hzero. }
  set (s3 := with_rendered (fun l => l ++ [SetContainerOffsets])
               (initDurations_done p m (durations s) s1)).
  destruct (updatePosition_ok (currentTime s) false s3) as (l' & Hupd & Hl' & Hin & Hout).
  { subst s3 s1; simpl. rewrite length_insert, length_alter. lia. }
  assert (Hmoved : moved (currentTime s) false s3 = s3).
  { unfold moved. subst s3 s1; simpl. rewrite Qeqb_refl. reflexivity. }
  rewrite Hmoved in Hupd.
  exists m, l'. split; [|split; [exact Hpos|split; [|split; [exact Hdp|split]]]].
  - erewrite bind_ok by reflexivity. fold s1.
    erewrite bind_ok by exact Hinit.
    erewrite bind_ok by reflexivity. fold s3.
    erewrite bind_ok by exact Hupd. reflexivity.
  - exact Hmax.
  - unfold aligned, commit_done; simpl. rewrite Hl'. subst s3 s1; simpl.
    rewrite !length_insert, length_alter. split; [exact Hla | exact Hld].
  - split.
    + unfold commit_done; simpl.
      rewrite <- Hfind.
      eapply (findIndex_resync (audios s) l' (Audio.set_duration (Some m)) p).
      * reflexivity.
      * rewrite Hl'. subst s3 s1; simpl. apply length_alter.
      * exact Hin.
      * exact Hout.
    + exists tp. unfold commit_done; simpl.
      rewrite list_lookup_insert_ne by exact Hne. auto.
Qed.

(** ** What each method leaves untouched, thrown or not *)

Lemma with_audios_id (s : MultiTrack) : with_audios (fun _ => audios s) s = s.
Proof. destruct s; reflexivity. Qed.

Lemma updatePosition_forEach_frame (isPaused : bool) (time : Q) (ts : list TrackOptions) :
  forall (index : nat) (s : MultiTrack),
    exists l', state_of (updatePosition_forEach isPaused time ts index s)
               = with_audios (fun _ => l') s.
Proof.
  induction ts as [|track ts IH]; intros index s; simpl.
  - exists (audios s). symmetry. apply with_audios_id.
  - unfold bind at 1, get. destruct (audios s !! index) as [audio|].
    + unfold bind at 1, modify.
      destruct (IH (S index) (with_audios
        <[index := updatePosition_track isPaused time track (durations s !! index) audio]> s))
        as (l' & Hl').
      exists l'. rewrite Hl'. reflexivity.
    + exists (audios s). simpl. symmetry. apply with_audios_id.
Qed.

Lemma updatePosition_frame (time : Q) (autoCenter : bool) (s : MultiTrack) :
  exists l', state_of (updatePosition time autoCenter s)
             = with_audios (fun _ => l') (moved time autoCenter s).
Proof.
  destruct (updatePosition_forEach_frame (negb (isPlaying s)) time (tracks s) 0
              (moved time autoCenter s)) as (l' & Hl').
  exists l'. rewrite <- Hl'. unfold updatePosition, bind at 1, get. unfold bind at 1, moved.
  destruct (negb (Qeqb time (currentTime s))); reflexivity.
Qed.

Lemma maxDuration_reduce_ge (ts : list TrackOptions) (ds : list Q) :
  forall (index : nat) (acc m : Q),
    maxDuration_reduce acc ts ds index = Some m -> acc <= m.
Proof.
  induction ts as [|t ts IH]; intros index acc m H; simpl in H.
  - injection H as <-. apply Qle_refl.
  - destruct (ds !! index) as [d|]; [|discriminate].
    eapply Qle_trans; [apply Qmax_l_le | exact (IH _ _ _ H)].
Qed.

(** [initDurations] writes the durations, the maximum, the placeholder's
    duration and the rendering; the maximum it writes is not negative. *)
Lemma initDurations_frame (ds : list Q) (s : MultiTrack) :
  exists ds' m l' r',
    state_of (initDurations ds s)
      = with_rendered (fun _ => r')
          (with_audios (fun _ => l')
             (with_maxDuration m (with_durations (fun _ => ds') s)))
    /\ (m = maxDuration s \/ 0 <= m).
Proof.
  unfold initDurations, bind, modify, get, render, throw. simpl.
  destruct (maxDuration_reduce 0 (tracks s) ds 0) as [m|] eqn:Hm; simpl.
  - apply maxDuration_reduce_ge in Hm.
    destruct (findIndex is_placeholder_audio (audios s)) as [p|]; simpl;
      [destruct (array_set p m ds) as [ds1|]; simpl|];
      destruct s; eexists _, m, _, _;
      (split; [unfold with_rendered, with_durations, with_audios, with_maxDuration; simpl;
               reflexivity | right; exact Hm]).
  - exists ds, (maxDuration s), (audios s), (rendered s).
    split; [destruct s; reflexivity | left; reflexivity].
Qed.

Lemma initDurations_keeps (P : MultiTrack -> Prop) (ds : list Q) :
  (forall s ds' m l' r', P s -> m = maxDuration s \/ 0 <= m ->
     P (with_rendered (fun _ => r')
          (with_audios (fun _ => l')
             (with_maxDuration m (with_durations (fun _ => ds') s))))) ->
  keeps P (initDurations ds).
Proof.
  intros HP s Hs. destruct (initDurations_frame ds s) as (ds' & m & l' & r' & -> & Hm).
  apply HP; assumption.
Qed.

Lemma updatePosition_keeps (P : MultiTrack -> Prop) (time : Q) (autoCenter : bool) :
  (forall s l', P s -> P (with_audios (fun _ => l') (moved time autoCenter s))) ->
  keeps P (updatePosition time autoCenter).
Proof.
  intros HP s Hs. destruct (updatePosition_frame time autoCenter s) as (l' & ->).
  apply HP, Hs.
Qed.

(** The tracks after the sequence a committed drag or set runs, whether or
    not a later step throws. *)
Lemma commit_tracks (s : MultiTrack) (index : nat) (track : TrackOptions) (newStart : Q) :
  tracks (state_of
    ((modify (with_tracks <[index := set_startPosition newStart track]>) ;;
      initDurations (durations s) ;;
      render SetContainerOffsets ;;
      updatePosition (currentTime s) false ;;
      emit (EvStartPositionChange (id track) newStart)) s))
  = <[index := set_startPosition newStart track]> (tracks s).
Proof.
  erewrite bind_ok by reflexivity.
  set (s1 := with_tracks <[index := set_startPosition newStart track]> s).
  change (<[index := set_startPosition newStart track]> (tracks s)) with (tracks s1).
  clearbody s1.
  assert (K : keeps (fun s' => tracks s' = tracks s1)
                (initDurations (durations s) ;;
                 render SetContainerOffsets ;;
                 updatePosition (currentTime s) false ;;
                 emit (EvStartPositionChange (id track) newStart))).
  { apply keeps_bind; [|intros _; apply keeps_bind; [|intros _; apply keeps_bind]].
    - apply initDurations_keeps. intros; assumption.
    - apply keeps_modify. intros; assumption.
    - apply updatePosition_keeps. intros s0 l' H. unfold moved.
      destruct (negb (Qeqb (currentTime s) (currentTime s0))); exact H.
    - intros _. apply keeps_modify. intros; assumption. }
  apply K. reflexivity.
Qed.

(** What the two entry points do once the track, its draggable mark and its
    duration are known: the bounds test, then the commit or nothing. *)
Lemma onDrag_unfold (s : MultiTrack) (index : nat) (delta : Q) (track : TrackOptions) (d : Q) :
  tracks s !! index = Some track ->
  truthy_bool (draggable track) = true ->
  durations s !! index = Some d ->
  onDrag index delta s =
    let newStartPosition := startPosition track + delta * maxDuration s in
    if Qleb (if truthy_bool (dragBounds s) then 0 else - d - 1) newStartPosition
       && Qleb newStartPosition (maxDuration s - d)
    then (modify (with_tracks <[index := set_startPosition newStartPosition track]>) ;;
          initDurations (durations s) ;;
          render SetContainerOffsets ;;
          updatePosition (currentTime s) false ;;
          emit (EvStartPositionChange (id track) newStartPosition)) s
    else Ok tt s.
Proof.
  intros Ht Hd Hdur. unfold onDrag, bind at 1, get. rewrite Ht, Hd, Hdur. simpl.
  destruct (Qleb _ _ && Qleb _ _); reflexivity.
Qed.

Lemma setTrackStartPosition_unfold (s : MultiTrack) (index : nat) (value : Q)
    (track : TrackOptions) (d : Q) :
  tracks s !! index = Some track ->
  truthy_bool (draggable track) = true ->
  durations s !! index = Some d ->
  setTrackStartPosition index value s =
    if Qleb (if truthy_bool (dragBounds s) then 0 else - d - 1) value
       && Qleb value (maxDuration s - d)
    then (modify (with_tracks <[index := set_startPosition value track]>) ;;
          initDurations (durations s) ;;
          render SetContainerOffsets ;;
          updatePosition (currentTime s) false ;;
          emit (EvStartPositionChange (id track) value)) s
    else Ok tt s.
Proof.
  intros Ht Hd Hdur. unfold setTrackStartPosition, bind at 1, get. rewrite Ht, Hd, Hdur. simpl.
  destruct (Qleb _ _ && Qleb _ _); reflexivity.
Qed.

Lemma bounds_test (lo x hi : Q) :
  Qleb lo x && Qleb x hi = true <-> lo <= x /\ x <= hi.
Proof. rewrite andb_true_iff, !Qleb_le. tauto. Qed.

(** ** The drag controller *)

Lemma insert_moved_to (s s' : MultiTrack) (index : nat) (track : TrackOptions) (x : Q) :
  (index < List.length (tracks s))%nat ->
  tracks s' = <[index := set_startPosition x track]> (tracks s) ->
  moved_to index track x s s'.
Proof.
  intros Hi H. unfold moved_to. rewrite H. split; [|split].
  - exists (set_startPosition x track).
    split; [apply list_lookup_insert_eq, Hi|]. split; [reflexivity|].
    unfold same_but_start; simpl. repeat split; reflexivity.
  - intros j Hj. apply list_lookup_insert_ne. congruence.
  - apply length_insert.
Qed.

(** C2.  For a draggable track with a duration, with
    [proposedStart = startPosition + delta * maxDuration],
    [minStart = dragBounds ? 0 : -duration - 1] and
    [maxStart = maxDuration - duration]: inside the bounds the start
    position the track has afterwards is exactly [proposedStart], its other
    fields and the other tracks being as before (by [onDrag], and by
    [setTrackStartPosition] given that value; in a loaded state the call
    returns normally and emits [start-position-change] with that value);
    outside them the call changes nothing at all. *)
Theorem drag_commit_all_or_nothing (s : MultiTrack) (index : nat) (delta : Q)
    (track : TrackOptions) (d : Q) :
  tracks s !! index = Some track ->
  truthy_bool (draggable track) = true ->
  durations s !! index = Some d ->
  let proposedStart := startPosition track + delta * maxDuration s in
  let minStart := if truthy_bool (dragBounds s) then 0 else - d - 1 in
  let maxStart := maxDuration s - d in
  (minStart <= proposedStart /\ proposedStart <= maxStart ->
     tracks (state_of (onDrag index delta s)) !! index
       = Some (set_startPosition proposedStart track)
     /\ tracks (state_of (setTrackStartPosition index proposedStart s)) !! index
       = Some (set_startPosition proposedStart track)
     /\ moved_to index track proposedStart s (state_of (onDrag index delta s))
     /\ moved_to index track proposedStart s
          (state_of (setTrackStartPosition index proposedStart s))
     /\ (loaded_state s ->
         exists s1 s2, onDrag index delta s = Ok tt s1
           /\ setTrackStartPosition index proposedStart s = Ok tt s2
           /\ emitted s1 = emitted s ++ [EvStartPositionChange (id track) proposedStart]
           /\ emitted s2 = emitted s ++ [EvStartPositionChange (id track) proposedStart]))
  /\ (~ (minStart <= proposedStart /\ proposedStart <= maxStart) ->
     onDrag index delta s = Ok tt s
     /\ setTrackStartPosition index proposedStart s = Ok tt s).
Proof.
  intros Ht Hd Hdur proposedStart minStart maxStart.
  pose proof (onDrag_unfold s index delta track d Ht Hd Hdur) as Hdrag.
  pose proof (setTrackStartPosition_unfold s index proposedStart track d Ht Hd Hdur) as Hset.
  simpl in Hdrag. fold proposedStart minStart maxStart in Hdrag, Hset.
  assert (Hi : (index < List.length (tracks s))%nat) by (eapply lookup_lt_Some, Ht).
  split.
  - intros Hin. apply bounds_test in Hin. rewrite Hin in Hdrag, Hset.
    rewrite Hdrag, Hset.
    split; [rewrite commit_tracks; apply list_lookup_insert_eq, Hi|].
    split; [rewrite commit_tracks; apply list_lookup_insert_eq, Hi|].
    split; [apply insert_moved_to; [exact Hi | apply commit_tracks]|].
    split; [apply insert_moved_to; [exact Hi | apply commit_tracks]|].
    intros [Hal [p Hp]].
    destruct (commit_ok s p index track proposedStart Hal Hp Ht Hd) as (m & l' & Hrun & _).
    exists (commit_done p m l' index proposedStart track s),
           (commit_done p m l' index proposedStart track s).
    split; [exact Hrun|]. split; [exact Hrun|]. split; reflexivity.
  - intros Hout. rewrite <- bounds_test in Hout. apply not_true_is_false in Hout.
    rewrite Hout in Hdrag, Hset. split; assumption.
Qed.

Lemma drag_commit_all_or_nothing_witness :
  (exists t', tracks (state_of (onDrag 1 (-1 # 5) demo)) !! 1%nat = Some t'
     /\ startPosition t' = startPosition trackB + (-1 # 5) * maxDuration demo)
  /\ onDrag 0 (-1 # 10) demo_bounded = Ok tt demo_bounded.
Proof.
  assert (H1 : tracks demo !! 1%nat = Some trackB) by (vm_compute; reflexivity).
  assert (H2 : durations demo !! 1%nat = Some 10) by (vm_compute; reflexivity).
  assert (H3 : tracks demo_bounded !! 0%nat = Some trackA) by (vm_compute; reflexivity).
  assert (H4 : durations demo_bounded !! 0%nat = Some 10) by (vm_compute; reflexivity).
  pose proof (drag_commit_all_or_nothing demo 1 (-1 # 5) trackB 10 H1 eq_refl H2) as Hin.
  pose proof (drag_commit_all_or_nothing demo_bounded 0 (-1 # 10) trackA 10 H3 eq_refl H4)
    as Hout.
  cbv zeta in Hin, Hout. destruct Hin as [Hin _]. destruct Hout as [_ Hout].
  split.
  - destruct Hin as (_ & _ & [(t' & Ht' & Hs & _) _] & _).
    + split; apply Qleb_le; vm_compute; reflexivity.
    + exists t'. split; assumption.
  - refine (proj1 (Hout _)). intros [H _]. apply Qleb_le in H. vm_compute in H. discriminate.
Defined.

(** C10.  For a track that is not marked draggable, [setTrackStartPosition]
    returns at once for every value: the whole state, the events emitted
    included, is the one before the call. *)
Theorem setTrackStartPosition_not_draggable (s : MultiTrack) (index : nat) (value : Q)
    (track : TrackOptions) :
  tracks s !! index = Some track ->
  truthy_bool (draggable track) = false ->
  setTrackStartPosition index value s = Ok tt s.
Proof.
  intros Ht Hd. unfold setTrackStartPosition, bind, get. rewrite Ht, Hd. reflexivity.
Qed.

Lemma setTrackStartPosition_not_draggable_witness :
  setTrackStartPosition 1 7 demo_fixed = Ok tt demo_fixed.
Proof.
  refine (setTrackStartPosition_not_draggable demo_fixed 1 7 trackC _ eq_refl).
  vm_compute. reflexivity.
Defined.

(** ** Recomputing the timeline *)

Lemma placeholder_at_lt (p : nat) (s : MultiTrack) :
  placeholder_at p s -> (p < List.length (tracks s))%nat.
Proof. intros (_ & tp & Htp & _). eapply lookup_lt_Some, Htp. Qed.

Lemma placeholder_at_unique (p q : nat) (s : MultiTrack) :
  placeholder_at p s -> placeholder_at q s -> p = q.
Proof. intros [Hp _] [Hq _]. congruence. Qed.

(** A committed drag or set in a loaded state. *)
Lemma commit_timeline (s : MultiTrack) (index : nat) (newStart : Q) (run : M unit) :
  loaded_state s -> commits index newStart s ->
  (forall track d, tracks s !! index = Some track -> durations s !! index = Some d ->
     run s = (modify (with_tracks <[index := set_startPosition newStart track]>) ;;
              initDurations (durations s) ;;
              render SetContainerOffsets ;;
              updatePosition (currentTime s) false ;;
              emit (EvStartPositionChange (id track) newStart)) s) ->
  exists s', run s = Ok tt s'
    /\ is_maximum (maxDuration s') (track_ends s')
    /\ 0 <= maxDuration s'
    /\ timeline_state s'
    /\ (forall p dp, placeholder_at p s -> durations s !! p = Some dp ->
          dp <= maxDuration s').
Proof.
  intros [Hal [p Hp]] (track & d & Ht & Hdrag & Hd & _ & _) Hrun.
  destruct (commit_ok s p index track newStart Hal Hp Ht Hdrag)
    as (m & l' & Hok & Hpos & Hmax & Hdp & Hal' & Hp').
  exists (commit_done p m l' index newStart track s).
  split; [rewrite (Hrun track d Ht Hd); exact Hok|].
  split; [exact Hmax|]. split; [exact Hpos|]. split.
  - split; [exact Hal'|]. exists p. split; [exact Hp'|].
    exists m. split; [|reflexivity]. unfold commit_done; simpl.
    apply list_lookup_insert_eq. destruct Hal as [_ Hld]. rewrite Hld.
    apply (placeholder_at_lt p s Hp).
  - intros q dq Hq Hdq. rewrite (placeholder_at_unique q p s Hq Hp) in Hdq.
    exact (Hdp dq Hdq).
Qed.

Lemma findIndex_from_insert {A} (f : A -> bool) (l : list A) (x : A) :
  forall k i j, findIndex_from f l k = Some i -> (k + j)%nat <> i -> f x = false ->
    findIndex_from f (<[j:=x]> l) k = Some i.
Proof.
  induction l as [|y l IH]; intros k i j H Hne Hx; [discriminate|].
  simpl in H. destruct j as [|j]; simpl.
  - rewrite Hx. destruct (f y).
    + injection H as <-. lia.
    + exact H.
  - destruct (f y); [exact H|]. apply IH; [exact H | lia | exact Hx].
Qed.

(** A track other than the placeholder replaced, once its element loaded. *)
Lemma replacement_timeline (s : MultiTrack) (index : nat) (track : TrackOptions)
    (audio : Audio.t) :
  applies (Replacement index track audio) s ->
  exists s', addTrack_then index track audio s = Ok tt s'
    /\ is_maximum (maxDuration s') (track_ends s')
    /\ 0 <= maxDuration s'
    /\ timeline_state s'
    /\ (forall p dp, placeholder_at p s -> durations s !! p = Some dp ->
          dp <= maxDuration s').
Proof.
  intros ([[Hla Hld] [p Hp]] & Hi & Hne & Haudio & Hdur).
  pose proof (placeholder_at_lt p s Hp) as Hplt.
  destruct Hp as (Hfind & tp & Htp & Hzero & Hnd).
  assert (Hd : exists d, match optDuration track with
                         | Some d => Some d
                         | None => Audio.duration audio
                         end = Some d).
  { destruct (optDuration track) as [d|]; [eauto|].
    destruct (Audio.duration audio) as [d|]; [eauto|]. destruct Hdur; congruence. }
  destruct Hd as [d Hd].
  set (s2 := with_durations (fun _ => <[index:=d]> (durations s))
               (with_audios (fun _ => <[index:=audio]> (audios s)) s)).
  assert (Hfind2 : findIndex is_placeholder_audio (audios s2) = Some p).
  { subst s2; simpl. apply findIndex_from_insert; [exact Hfind | | exact Haudio].
    simpl. congruence. }
  destruct (initDurations_ok (<[index:=d]> (durations s)) s2 p tp)
    as (m & Hinit & _ & Hpos & Hmax & Hdp).
  { subst s2; simpl. rewrite length_insert. exact Hld. }
  { exact Hfind2. }
  { exact Htp. }
  { exact Hzero. }
  exists (with_emitted (fun l => l ++ [EvCanplay])
            (initDurations_done p m (<[index:=d]> (durations s)) s2)).
  split; [|split; [exact Hmax|split; [exact Hpos|split]]].
  - unfold addTrack_then, bind at 1, get.
    rewrite (array_set_in_range index audio (audios s)) by (rewrite Hla; exact Hi).
    erewrite bind_ok by reflexivity. rewrite Hd.
    rewrite (array_set_in_range index d (durations s)) by (rewrite Hld; exact Hi).
    erewrite bind_ok by reflexivity.
    erewrite bind_ok by exact Hinit. reflexivity.
  - split; [|exists p; split; [split|]].
    + unfold aligned; simpl. rewrite length_alter, !length_insert. split; assumption.
    + etransitivity; [apply findIndex_alter_duration | exact Hfind2].
    + exists tp. simpl. auto.
    + exists m. split; [|reflexivity]. simpl.
      apply list_lookup_insert_eq. rewrite length_insert, Hld. exact Hplt.
  - intros q dq [Hq _] Hdq. rewrite Hfind in Hq. injection Hq as <-.
    apply Hdp. rewrite list_lookup_insert_ne; [exact Hdq|]. congruence.
Qed.

(** ** The constructor's load *)

Lemma initAudio_src (track : TrackOptions) (x : Q) (loaded : option Q) :
  Audio.src (initAudio (set_startPosition x track) loaded)
  = Audio.src (initAudio track None).
Proof.
  unfold initAudio; simpl.
  destruct (truthy_str (url track)), (media track), (volume track); simpl;
    repeat case_match; reflexivity.
Qed.

Lemma initAudio_duration (track : TrackOptions) (loaded : option Q) :
  loaded <> None ->
  Audio.src (initAudio track loaded) = "" \/ Audio.duration (initAudio track loaded) <> None.
Proof.
  intros Hl. unfold initAudio.
  match goal with |- context [String.eqb ?x ""] => destruct (String.eqb x "") eqn:E end.
  - left. apply String.eqb_eq in E. exact E.
  - right. simpl. exact Hl.
Qed.

Lemma initAllAudios_durations_ok (l : list Audio.t) :
  Forall (fun a => Audio.src a = "" \/ Audio.duration a <> None) l ->
  exists ds, initAllAudios_durations l = Some ds /\ List.length ds = List.length l.
Proof.
  induction 1 as [|a l Ha _ (ds & Hds & Hlen)]; [exists []; split; reflexivity|].
  simpl. rewrite Hds.
  destruct (String.eqb (Audio.src a) "") eqn:E.
  - exists (0 :: ds). split; [reflexivity | simpl; congruence].
  - destruct Ha as [Ha|Ha]; [rewrite Ha in E; discriminate|].
    destruct (Audio.duration a) as [d|]; [|congruence].
    exists (d :: ds). split; [reflexivity | simpl; congruence].
Qed.

Lemma findIndex_from_app {A} (f : A -> bool) (l1 l2 : list A) (x : A) :
  Forall (fun y => f y = false) l1 -> f x = true ->
  forall k, findIndex_from f (l1 ++ x :: l2) k = Some (k + List.length l1)%nat.
Proof.
  induction 1 as [|y l1 Hy _ IH]; intros Hx k; simpl.
  - rewrite Hx. f_equal. lia.
  - rewrite Hy, IH by exact Hx. f_equal. lia.
Qed.

Lemma create_then_timeline (tracks0 : list TrackOptions) (db : option bool)
    (loaded : TrackOptions -> option Q) :
  Forall (fun t => is_placeholder_audio (initAudio t None) = false) tracks0 ->
  (forall t, loaded t <> None) ->
  exists s', create_then loaded (create tracks0 db) = Ok tt s'
    /\ is_maximum (maxDuration s') (track_ends s')
    /\ 0 <= maxDuration s'
    /\ timeline_state s'.
Proof.
  intros Huser Hloaded.
  set (s0 := create tracks0 db).
  set (norm := fun track => set_startPosition (or_default (Some (startPosition track)) 0) track).
  set (s1 := with_audios
               (fun _ => List.map (fun track => initAudio track (loaded track)) (tracks s0)) s0).
  set (p := List.length tracks0).
  destruct (initAllAudios_durations_ok (audios s1)) as (ds & Hds & Hlen).
  { subst s1; simpl. apply Forall_map, Forall_forall. intros t _.
    apply initAudio_duration, Hloaded. }
  assert (Hlen1 : List.length (audios s1) = List.length (tracks s1)).
  { subst s1; simpl. apply length_map. }
  assert (Hfind : findIndex is_placeholder_audio (audios s1) = Some p).
  { subst s1 s0; simpl. rewrite !map_app. simpl.
    unfold findIndex. rewrite findIndex_from_app.
    - rewrite !length_map. reflexivity.
    - apply Forall_map, Forall_map.
      eapply Forall_impl; [exact Huser|]. intros t Ht. simpl.
      unfold is_placeholder_audio in *. simpl in *.
      rewrite initAudio_src. exact Ht.
    - unfold is_placeholder_audio. simpl.
      unfold initAudio. simpl. reflexivity. }
  assert (Htp : tracks s1 !! p = Some (norm PLACEHOLDER_TRACK)).
  { subst s1 s0 p; simpl. rewrite map_app. simpl.
    rewrite lookup_app_r by (rewrite length_map; lia).
    rewrite length_map, Nat.sub_diag. reflexivity. }
  destruct (initDurations_ok ds s1 p (norm PLACEHOLDER_TRACK))
    as (m & Hinit & _ & Hpos & Hmax & _).
  { rewrite Hlen. exact Hlen1. }
  { exact Hfind. }
  { exact Htp. }
  { reflexivity. }
  exists (with_emitted (fun l => l ++ [EvCanplay]) (initDurations_done p m ds s1)).
  split; [|split; [exact Hmax|split; [exact Hpos|]]].
  - unfold create_then. fold s0.
    assert (Hall : initAllAudios loaded s0 = Ok ds s1).
    { unfold initAllAudios, bind at 1, get. erewrite bind_ok by reflexivity. fold s1.
      unfold bind, get. rewrite Hds. reflexivity. }
    erewrite bind_ok by exact Hall. erewrite bind_ok by exact Hinit. reflexivity.
  - assert (Hp : (p < List.length (tracks s1))%nat) by (eapply lookup_lt_Some, Htp).
    split; [|exists p; split; [split|]].
    + unfold aligned; simpl. rewrite length_alter, length_insert.
      split; [exact Hlen1 | rewrite Hlen; exact Hlen1].
    + etransitivity; [apply findIndex_alter_duration | exact Hfind].
    + exists (norm PLACEHOLDER_TRACK). simpl. split; [exact Htp|]. split; reflexivity.
    + exists m. split; [|reflexivity]. simpl.
      apply list_lookup_insert_eq. rewrite Hlen, Hlen1. exact Hp.
Qed.

(** Every mutation that applies returns normally, leaves the maximum of the
    track ends in [maxDuration], and leaves the placeholder as long as the
    timeline, which is at least as long as the placeholder was. *)
Lemma mutation_timeline (m : Mutation) (s : MultiTrack) :
  applies m s ->
  exists s', mutate m s = Ok tt s'
    /\ is_maximum (maxDuration s') (track_ends s')
    /\ 0 <= maxDuration s'
    /\ timeline_state s'
    /\ (forall p dp, placeholder_at p s -> durations s !! p = Some dp ->
          dp <= maxDuration s').
Proof.
  destruct m as [tracks0 loaded|index track audio|index delta|index value]; simpl.
  - intros ([db ->] & Huser & Hloaded).
    destruct (create_then_timeline tracks0 db loaded Huser Hloaded)
      as (s' & Hrun & Hmax & Hpos & Htl).
    exists s'. split; [exact Hrun|]. split; [exact Hmax|]. split; [exact Hpos|].
    split; [exact Htl|]. intros p dp [Hfind _]. discriminate.
  - apply replacement_timeline.
  - intros [Hl Hc]. apply (commit_timeline s index (drag_target index delta s)); try assumption.
    intros track d Ht Hd. destruct Hc as (track' & d' & Ht' & Hdrag & Hd' & Hlo & Hhi).
    rewrite Ht in Ht'. injection Ht' as <-. rewrite Hd in Hd'. injection Hd' as <-.
    rewrite (onDrag_unfold s index delta track d Ht Hdrag Hd). simpl.
    unfold drag_target in *. rewrite Ht in *.
    rewrite (proj2 (bounds_test _ _ _) (conj Hlo Hhi)). reflexivity.
  - intros [Hl Hc]. apply (commit_timeline s index value); try assumption.
    intros track d Ht Hd. destruct Hc as (track' & d' & Ht' & Hdrag & Hd' & Hlo & Hhi).
    rewrite Ht in Ht'. injection Ht' as <-. rewrite Hd in Hd'. injection Hd' as <-.
    rewrite (setTrackStartPosition_unfold s index value track d Ht Hdrag Hd).
    rewrite (proj2 (bounds_test _ _ _) (conj Hlo Hhi)). reflexivity.
Qed.

Lemma is_maximum_cons_max (m a x : Q) (l : list Q) :
  is_maximum m (Qmax a x :: l) -> is_maximum m (a :: x :: l).
Proof.
  intros [Hex Hall]. inversion Hall as [|? ? Hmax Hrest]; subst. split.
  - inversion Hex as [? ? H|? ? H]; subst.
    + destruct (Qmax_cases a x) as [Hc|Hc]; rewrite Hc in H.
      * apply Exists_cons_hd. exact H.
      * apply Exists_cons_tl, Exists_cons_hd. exact H.
    + apply Exists_cons_tl, Exists_cons_tl. exact H.
  - repeat constructor; try assumption.
    + eapply Qle_trans; [apply Qmax_l_le | exact Hmax].
    + eapply Qle_trans; [apply Qmax_r_le | exact Hmax].
Qed.

(** ** The value [initDurations] leaves in [maxDuration] *)

Lemma bind_Ok_inv {A B} (m : M A) (k : A -> M B) (s s2 : MultiTrack) (b : B) :
  bind m k s = Ok b s2 -> exists a s1, m s = Ok a s1 /\ k a s1 = Ok b s2.
Proof.
  unfold bind. destruct (m s) as [a s1|e s1]; [|discriminate].
  intros H. exists a, s1. split; [reflexivity | exact H].
Qed.

(** The reduce gives the maximum of its start value and of the ends
    [startPosition + durations[index]] of the tracks. *)
Lemma maxDuration_reduce_is_maximum (ts : list TrackOptions) (ds : list Q) :
  forall (index : nat) (acc m : Q),
    maxDuration_reduce acc ts ds index = Some m ->
    is_maximum m
      (acc :: zip_with (fun track d => startPosition track + d) ts (drop index ds)).
Proof.
  induction ts as [|t ts IH]; intros index acc m H; simpl in H.
  - injection H as <-. simpl. split.
    + apply Exists_cons_hd. reflexivity.
    + constructor; [apply Qle_refl | constructor].
  - destruct (ds !! index) as [d|] eqn:Hd; [|discriminate].
    rewrite (drop_S _ _ _ Hd). simpl.
    apply is_maximum_cons_max. exact (IH _ _ _ H).
Qed.

Lemma initDurations_reduce (ds : list Q) (s s' : MultiTrack) :
  initDurations ds s = Ok tt s' ->
  maxDuration_reduce 0 (tracks s) ds 0 = Some (maxDuration s') /\ tracks s' = tracks s.
Proof.
  unfold initDurations, bind, modify, get, render, throw. simpl.
  destruct (maxDuration_reduce 0 (tracks s) ds 0) as [m|]; [|discriminate]. simpl.
  destruct (findIndex is_placeholder_audio (audios s)) as [p|]; simpl;
    [destruct (array_set p m ds) as [ds1|]; simpl|];
    intros H; try discriminate; injection H as <-; split; reflexivity.
Qed.

Lemma settled_keeps (m : Q) (ts : list TrackOptions) (time : Q) (e : Event) :
  keeps (fun x => maxDuration x = m /\ tracks x = ts)
    (render SetContainerOffsets ;; updatePosition time false ;; emit e).
Proof.
  apply keeps_bind; [unfold render; keeps_steps | intros _].
  apply keeps_bind; [|intros _; unfold emit; keeps_steps].
  apply updatePosition_keeps. intros x l' H. unfold moved.
  destruct (negb (Qeqb time (currentTime x))); exact H.
Qed.

Lemma commit_reduce (s s' : MultiTrack) (index : nat) (track : TrackOptions) (x : Q) :
  (modify (with_tracks <[index := set_startPosition x track]>) ;;
   initDurations (durations s) ;;
   render SetContainerOffsets ;;
   updatePosition (currentTime s) false ;;
   emit (EvStartPositionChange (id track) x)) s = Ok tt s' ->
  maxDuration_reduce 0 (tracks s') (durations s) 0 = Some (maxDuration s').
Proof.
  intros H. apply bind_Ok_inv in H as ([] & s1 & H1 & H). injection H1 as <-.
  apply bind_Ok_inv in H as ([] & s2 & H2 & H).
  apply initDurations_reduce in H2 as [Hm Ht].
  pose proof (settled_keeps (maxDuration s2) (tracks s2) (currentTime s)
                (EvStartPositionChange (id track) x) s2 (conj eq_refl eq_refl)) as K.
  rewrite H in K. simpl in K. destruct K as [-> ->]. rewrite Ht. exact Hm.
Qed.

(** Every mutation that returns has handed [initDurations] the durations
    [handed_durations] names, and [maxDuration] is the reduce over them. *)
Lemma mutation_reduce (m : Mutation) (s s' : MultiTrack) :
  applies m s -> mutate m s = Ok tt s' ->
  exists ds, handed_durations m s = Some ds
    /\ maxDuration_reduce 0 (tracks s') ds 0 = Some (maxDuration s').
Proof.
  destruct m as [tracks0 loaded|index track audio|index delta|index value]; simpl.
  - intros _ H. unfold create_then in H.
    apply bind_Ok_inv in H as (ds & s1 & H1 & H).
    apply bind_Ok_inv in H as ([] & s2 & H2 & H).
    unfold initAllAudios, bind, get, modify in H1. simpl in H1.
    destruct (initAllAudios_durations
                (List.map (fun track => initAudio track (loaded track)) (tracks s)))
      as [ds0|] eqn:Hds; [|discriminate].
    injection H1 as <- <-. exists ds0. split; [reflexivity|].
    apply initDurations_reduce in H2 as [Hm Ht]. injection H as <-.
    simpl in *. rewrite Ht. exact Hm.
  - intros _ H. unfold addTrack_then in H.
    apply bind_Ok_inv in H as (s0 & s1 & H0 & H). injection H0 as <- <-.
    destruct (array_set index audio (audios s)) as [audios1|]; [|discriminate].
    apply bind_Ok_inv in H as ([] & s1 & H1 & H). injection H1 as <-.
    destruct (match optDuration track with
              | Some d => Some d
              | None => Audio.duration audio
              end) as [d|]; [|discriminate].
    simpl in H.
    destruct (array_set index d (durations s)) as [durations1|]; [|discriminate].
    exists durations1. split; [reflexivity|].
    apply bind_Ok_inv in H as ([] & s2 & H2 & H). injection H2 as <-.
    apply bind_Ok_inv in H as ([] & s3 & H3 & H).
    apply initDurations_reduce in H3 as [Hm Ht]. injection H as <-.
    simpl in *. rewrite Ht. exact Hm.
  - intros [_ (track & d & Ht & Hdrag & Hd & Hlo & Hhi)] H.
    rewrite (onDrag_unfold s index delta track d Ht Hdrag Hd) in H. simpl in H.
    unfold drag_target in Hlo, Hhi. rewrite Ht in Hlo, Hhi.
    rewrite (proj2 (bounds_test _ _ _) (conj Hlo Hhi)) in H.
    exists (durations s). split; [reflexivity|]. exact (commit_reduce _ _ _ _ _ H).
  - intros [_ (track & d & Ht & Hdrag & Hd & Hlo & Hhi)] H.
    rewrite (setTrackStartPosition_unfold s index value track d Ht Hdrag Hd) in H.
    rewrite (proj2 (bounds_test _ _ _) (conj Hlo Hhi)) in H.
    exists (durations s). split; [reflexivity|]. exact (commit_reduce _ _ _ _ _ H).
Qed.

(** C3, at the input where the code leaves the claim.  [addTrack] puts the
    new track A, which starts at 100, in the place of the old one and
    returns; until the new element has loaded, the lane still has the old
    clip's duration and [maxDuration] is the old 15, less than the end of
    the lane: it is not the maximum of [startPosition + duration]. *)
Lemma addTrack_leaves_maxDuration_stale :
  addTrack trackA_late demo = Ok (Some 0%nat) (with_tracks <[0%nat := trackA_late]> demo)
  /\ track_ends (state_of (addTrack trackA_late demo)) = [100 + 10; 5 + 10; 0 + 15]
  /\ maxDuration (state_of (addTrack trackA_late demo)) = 15
  /\ ~ is_maximum (maxDuration (state_of (addTrack trackA_late demo)))
        (track_ends (state_of (addTrack trackA_late demo))).
Proof.
  split; [vm_compute; reflexivity|]. split; [vm_compute; reflexivity|].
  split; [vm_compute; reflexivity|].
  intros [_ H]. apply Forall_inv in H. apply Qleb_le in H. vm_compute in H. discriminate.
Qed.

(** C3, amended.  After the initial load, after the continuation of a track
    replacement (run once the new element has loaded, its duration being a
    number), after a committed drag and after a committed
    [setTrackStartPosition], [maxDuration] is the maximum of 0 and of
    [startPosition + duration] over the tracks, with the durations as they
    were handed to the recomputation; the placeholder lane then lasts
    [maxDuration], so that [maxDuration] is the maximum over all tracks of
    [startPosition + duration]; and it is not negative. *)
Theorem maxDuration_after_mutation (m : Mutation) (s : MultiTrack) :
  applies m s ->
  exists s' ds, mutate m s = Ok tt s'
    /\ handed_durations m s = Some ds
    /\ is_maximum (maxDuration s')
         (0 :: zip_with (fun track d => startPosition track + d) (tracks s') ds)
    /\ is_maximum (maxDuration s') (track_ends s')
    /\ 0 <= maxDuration s'.
Proof.
  intros H. destruct (mutation_timeline m s H) as (s' & Hrun & Hmax & Hpos & _).
  destruct (mutation_reduce m s s' H Hrun) as (ds & Hds & Hred).
  exists s', ds. split; [exact Hrun|]. split; [exact Hds|].
  split; [exact (maxDuration_reduce_is_maximum _ _ _ _ _ Hred)|].
  split; assumption.
Qed.

(** Once the load has completed, every recomputation on durations that
    are numbers (a replacement whose duration is one, a committed drag, a
    committed set) leaves a [maxDuration] at least the previous one: the
    placeholder starts at 0, lasts the previous [maxDuration] and takes
    part in the maximum. *)
Lemma maxDuration_grows (m : Mutation) (s : MultiTrack) :
  timeline_state s ->
  applies m s ->
  exists s', mutate m s = Ok tt s'
    /\ maxDuration s <= maxDuration s'
    /\ timeline_state s'.
Proof.
  intros (_ & p & Hp & dp & Hdp & Heq) H.
  destruct (mutation_timeline m s H) as (s' & Hrun & _ & _ & Htl & Hge).
  exists s'. split; [exact Hrun|]. split; [|exact Htl].
  rewrite <- Heq. exact (Hge p dp Hp Hdp).
Qed.

Lemma demo_timeline_state : timeline_state demo.
Proof.
  split; [split; vm_compute; reflexivity|].
  exists 2%nat. split.
  - split; [vm_compute; reflexivity|].
    eexists. split; [vm_compute; reflexivity|]. split; reflexivity.
  - eexists. split; [vm_compute; reflexivity|]. vm_compute. reflexivity.
Defined.

Lemma demo_loaded_state : loaded_state demo.
Proof.
  destruct demo_timeline_state as (Hal & p & Hp & _). split; [exact Hal | exists p; exact Hp].
Defined.

Lemma demo_drag_commits : commits 1 (drag_target 1 (-1 # 5) demo) demo.
Proof.
  exists trackB, 10. split; [vm_compute; reflexivity|]. split; [reflexivity|].
  split; [vm_compute; reflexivity|].
  split; apply Qleb_le; vm_compute; reflexivity.
Defined.

Lemma maxDuration_after_mutation_witness :
  exists s' ds, mutate (DragCommit 1 (-1 # 5)) demo = Ok tt s'
    /\ handed_durations (DragCommit 1 (-1 # 5)) demo = Some ds
    /\ is_maximum (maxDuration s')
         (0 :: zip_with (fun track d => startPosition track + d) (tracks s') ds)
    /\ is_maximum (maxDuration s') (track_ends s')
    /\ 0 <= maxDuration s'.
Proof.
  refine (maxDuration_after_mutation (DragCommit 1 (-1 # 5)) demo _).
  change (loaded_state demo /\ commits 1 (drag_target 1 (-1 # 5) demo) demo).
  exact (conj demo_loaded_state demo_drag_commits).
Defined.

Lemma demo_set_commits : commits 1 2 demo.
Proof.
  exists trackB, 10. split; [vm_compute; reflexivity|]. split; [reflexivity|].
  split; [vm_compute; reflexivity|].
  split; apply Qleb_le; vm_compute; reflexivity.
Defined.

Example demo_set_grows :
  exists s', mutate (SetStart 1 2) demo = Ok tt s'
    /\ maxDuration demo <= maxDuration s'
    /\ timeline_state s'.
Proof.
  refine (maxDuration_grows (SetStart 1 2) demo demo_timeline_state _).
  change (loaded_state demo /\ commits 1 2 demo).
  exact (conj demo_loaded_state demo_set_commits).
Qed.

(** The load of [demo] and the replacement of its track A both apply. *)
Example demo_mutations_apply :
  applies (InitialLoad [trackA; trackB] demo_loaded) (create [trackA; trackB] None)
  /\ applies (Replacement 0 trackA_late (initAudio trackA_late (Some 3)))
       (state_of (addTrack trackA_late demo)).
Proof.
  split.
  - split; [exists None; reflexivity|]. split.
    + repeat constructor.
    + intros t. unfold demo_loaded. destruct (TrackId_eqb _ _); discriminate.
  - split; [|split; [vm_compute; lia|split; [vm_compute; discriminate|split]]].
    + split; [split; vm_compute; reflexivity|]. exists 2%nat.
      split; [vm_compute; reflexivity|].
      eexists. split; [vm_compute; reflexivity|]. split; reflexivity.
    + reflexivity.
    + right. discriminate.
Qed.

(** Between [addTrack] and its continuation the new track stands with the
    old clip's duration and [maxDuration] is the old one; the continuation
    recomputes it. *)
Example demo_replacement :
  let s1 := state_of (addTrack trackA_late demo) in
  let s2 := state_of (addTrack_then 0 trackA_late (initAudio trackA_late (Some 3)) s1) in
  track_ends s1 = [100 + 10; 5 + 10; 0 + 15] /\ maxDuration s1 = 15
  /\ track_ends s2 = [100 + 3; 5 + 10; 0 + (100 + 3)] /\ maxDuration s2 = 100 + 3.
Proof. vm_compute. repeat split; reflexivity. Qed.

(** Moving B from 5 back to 2 leaves the timeline at 15 seconds, although
    the tracks now end at 10 and 12: the placeholder keeps it. *)
Example demo_shrink_keeps_timeline :
  let s' := state_of (setTrackStartPosition 1 2 demo) in
  maxDuration s' = 15 /\ track_ends s' = [0 + 10; 2 + 10; 0 + 15].
Proof. vm_compute. split; reflexivity. Qed.

(** ** A replacement by an element without duration *)

Lemma findIndex_from_lt {A} (p : A -> bool) (l : list A) :
  forall k i, findIndex_from p l k = Some i -> (k <= i < k + List.length l)%nat.
Proof.
  induction l as [|x l IH]; intros k i H; [discriminate|].
  simpl in H. destruct (p x).
  - injection H as <-. simpl. lia.
  - apply IH in H. simpl. lia.
Qed.

Lemma Nan_reduce_NaN (ts : list TrackOptions) (ds : list Js.num) :
  forall index, Nan.maxDuration_reduce Js.NaN ts ds index = Js.NaN.
Proof. induction ts as [|t ts IH]; intros index; simpl; [reflexivity | apply IH]. Qed.

Lemma Js_max_NaN_r (x : Js.num) : Js.max x Js.NaN = Js.NaN.
Proof. destruct x; reflexivity. Qed.

Lemma Js_add_NaN_r (x : Js.num) : Js.add x Js.NaN = Js.NaN.
Proof. destruct x; reflexivity. Qed.

(** One duration that is [NaN] makes the reduce [NaN]. *)
Lemma Nan_reduce_at (ts : list TrackOptions) (ds : list Js.num) :
  forall (index j : nat) (acc : Js.num),
    (j < List.length ts)%nat -> ds !! (index + j)%nat = Some Js.NaN ->
    Nan.maxDuration_reduce acc ts ds index = Js.NaN.
Proof.
  induction ts as [|t ts IH]; intros index j acc Hj Hd; [simpl in Hj; lia|].
  simpl in Hj. cbn [Nan.maxDuration_reduce]. destruct j as [|j].
  - rewrite Nat.add_0_r in Hd. rewrite Hd, Js_add_NaN_r, Js_max_NaN_r.
    apply Nan_reduce_NaN.
  - apply (IH (S index) j); [lia|].
    replace (S index + j)%nat with (index + S j)%nat by lia. exact Hd.
Qed.

Lemma Nan_store_lookup (i : nat) (x : Js.num) (l : list Js.num) :
  (i < List.length l)%nat -> Nan.store i x l !! i = Some x.
Proof.
  intros H. unfold Nan.store. apply Nat.ltb_lt in H as H'. rewrite H'.
  apply list_lookup_insert_eq, H.
Qed.

Lemma Nan_store_length (i : nat) (x : Js.num) (l : list Js.num) :
  (i < List.length l)%nat -> List.length (Nan.store i x l) = List.length l.
Proof.
  intros H. unfold Nan.store. apply Nat.ltb_lt in H. rewrite H. apply length_insert.
Qed.

(** On numbers the two embeddings of the reduce agree. *)
Lemma Nan_reduce_numbers (ts : list TrackOptions) (ds : list Q) :
  forall (index : nat) (acc m : Q),
    maxDuration_reduce acc ts ds index = Some m ->
    Nan.maxDuration_reduce (Js.Num acc) ts (List.map Js.Num ds) index = Js.Num m.
Proof.
  induction ts as [|t ts IH]; intros index acc m H; simpl in *.
  - injection H as <-. reflexivity.
  - rewrite list_lookup_fmap. destruct (ds !! index) as [d|]; [|discriminate].
    simpl. exact (IH _ _ _ H).
Qed.

Lemma Nan_store_numbers (i : nat) (x : Q) (l l' : list Q) :
  array_set i x l = Some l' ->
  Nan.store i (Js.Num x) (List.map Js.Num l) = List.map Js.Num l'.
Proof.
  unfold array_set, Nan.store. rewrite length_map.
  destruct (i <? List.length l)%nat.
  - intros H. injection H as <-. symmetry. apply (list_fmap_insert Js.Num).
  - destruct (i =? List.length l)%nat eqn:E; [|discriminate].
    intros H. injection H as <-. apply Nat.eqb_eq in E. subst i.
    rewrite Nat.sub_diag. simpl. rewrite map_app. reflexivity.
Qed.

(** ... and so do the two embeddings of [initDurations] and of the
    continuation of [addTrack], wherever the one on rationals returns. *)
Lemma Nan_initDurations_numbers (ds : list Q) (s s' : MultiTrack) :
  initDurations ds s = Ok tt s' ->
  Nan.initDurations (List.map Js.Num ds)
    (Nan.mk (tracks s) (audios s) (List.map Js.Num (durations s)) (Js.Num (maxDuration s)))
  = nan_state s'.
Proof.
  unfold initDurations, Nan.initDurations, bind, modify, get, render, throw. simpl.
  destruct (maxDuration_reduce 0 (tracks s) ds 0) as [m|] eqn:Hm; [|discriminate].
  rewrite (Nan_reduce_numbers _ _ _ _ _ Hm). simpl.
  destruct (findIndex is_placeholder_audio (audios s)) as [p|]; simpl.
  - destruct (array_set p m ds) as [ds1|] eqn:Hset; simpl; [|discriminate].
    intros H. injection H as <-. unfold nan_state. simpl.
    rewrite (Nan_store_numbers _ _ _ _ Hset). reflexivity.
  - intros H. injection H as <-. reflexivity.
Qed.

Lemma Nan_addTrack_then_numbers (index : nat) (track : TrackOptions) (audio : Audio.t)
    (s s' : MultiTrack) :
  addTrack_then index track audio s = Ok tt s' ->
  exists n, Nan.addTrack_then index track audio (nan_state s) = Some n
    /\ Nan.tracks n = tracks s' /\ Nan.audios n = audios s'
    /\ Nan.durations n = List.map Js.Num (durations s')
    /\ Nan.maxDuration n = Js.Num (maxDuration s').
Proof.
  intros H. unfold addTrack_then in H. unfold Nan.addTrack_then. simpl.
  apply bind_Ok_inv in H as (s0 & s1 & H0 & H). injection H0 as <- <-.
  destruct (array_set index audio (audios s)) as [audios1|]; [|discriminate].
  apply bind_Ok_inv in H as ([] & s1 & H1 & H). injection H1 as <-.
  assert (Hd : exists d, match optDuration track with
                         | Some d => Some d
                         | None => Audio.duration audio
                         end = Some d
                 /\ match optDuration track with
                    | Some d => Js.Num d
                    | None => Js.of_option (Audio.duration audio)
                    end = Js.Num d).
  { destruct (optDuration track) as [d|]; [exists d; split; reflexivity|].
    destruct (Audio.duration audio) as [d|]; [exists d; split; reflexivity|].
    discriminate. }
  destruct Hd as (d & Hd & Hd'). rewrite Hd in H. rewrite Hd'. simpl in H.
  destruct (array_set index d (durations s)) as [durations1|] eqn:Hset; [|discriminate].
  apply bind_Ok_inv in H as ([] & s2 & H2 & H). injection H2 as <-.
  apply bind_Ok_inv in H as ([] & s3 & H3 & H). injection H as <-.
  apply Nan_initDurations_numbers in H3. simpl in H3.
  rewrite (Nan_store_numbers _ _ _ _ Hset).
  eexists. split; [reflexivity|].
  unfold Nan.initDurations in *. simpl in *.
  destruct (findIndex is_placeholder_audio audios1) as [p|]; simpl in *;
    injection H3 as Ht Ha Hds Hm; try rewrite Hm in Ha; try rewrite Hm in Hds;
    rewrite Hm; repeat split; assumption.
Qed.

(** C9, at the input where the code leaves the claim.  The track put in
    the place of another has no clip ([new Audio()], whose [duration] is
    [NaN]) and gives no duration.  The continuation of [addTrack] stores
    that [NaN] in [durations] and recomputes: [maxDuration] is [NaN], which
    is not greater than or equal to the previous value.  The constructor
    takes the duration of such an element for 0. *)
Theorem addTrack_then_NaN_maxDuration (s : MultiTrack) (index : nat)
    (track : TrackOptions) (audio : Audio.t) :
  (index < List.length (tracks s))%nat ->
  List.length (audios s) = List.length (tracks s) ->
  List.length (durations s) = List.length (tracks s) ->
  optDuration track = None -> Audio.duration audio = None ->
  exists n, Nan.addTrack_then index track audio (nan_state s) = Some n
    /\ Nan.durations n !! index = Some Js.NaN
    /\ Nan.maxDuration n = Js.NaN
    /\ Js.leb (Js.Num (maxDuration s)) (Nan.maxDuration n) = false
    /\ (Audio.src audio = "" -> initAllAudios_durations [audio] = Some [0]).
Proof.
  intros Hi Hla Hld Hopt Hdur.
  unfold Nan.addTrack_then. simpl.
  rewrite array_set_in_range by (rewrite Hla; exact Hi).
  rewrite Hopt, Hdur. simpl.
  set (ds := Nan.store index Js.NaN (List.map Js.Num (durations s))).
  assert (Hlen : (index < List.length (List.map Js.Num (durations s)))%nat).
  { rewrite length_map, Hld. exact Hi. }
  assert (Hds : ds !! index = Some Js.NaN) by (apply Nan_store_lookup, Hlen).
  assert (Hm : Nan.maxDuration_reduce (Js.Num 0) (tracks s) ds 0 = Js.NaN).
  { apply (Nan_reduce_at (tracks s) ds 0 index); [exact Hi | exact Hds]. }
  eexists. split; [reflexivity|].
  unfold Nan.initDurations. simpl. rewrite Hm.
  destruct (findIndex is_placeholder_audio (<[index:=audio]> (audios s))) as [p|] eqn:Hp;
    simpl.
  - split; [|split; [reflexivity|split; [reflexivity|]]].
    + assert (Hpl : (p < List.length ds)%nat).
      { unfold findIndex in Hp. apply findIndex_from_lt in Hp.
        rewrite length_insert in Hp. subst ds.
        rewrite Nan_store_length by exact Hlen. rewrite length_map, Hld, <- Hla. lia. }
      unfold Nan.store at 1. apply Nat.ltb_lt in Hpl as Hpl'. rewrite Hpl'.
      destruct (decide (p = index)) as [->|Hne].
      * apply list_lookup_insert_eq, Hpl.
      * rewrite list_lookup_insert_ne by exact Hne. exact Hds.
    + intros Hsrc. simpl. rewrite Hsrc. reflexivity.
  - split; [exact Hds|]. split; [reflexivity|]. split; [reflexivity|].
    intros Hsrc. simpl. rewrite Hsrc. reflexivity.
Qed.

Lemma addTrack_then_NaN_maxDuration_witness :
  exists n, Nan.addTrack_then 1 trackB_empty (initAudio trackB_empty None)
              (nan_state (state_of (addTrack trackB_empty demo))) = Some n
    /\ Nan.durations n !! 1%nat = Some Js.NaN
    /\ Nan.maxDuration n = Js.NaN
    /\ Js.leb (Js.Num (maxDuration (state_of (addTrack trackB_empty demo))))
         (Nan.maxDuration n) = false
    /\ (Audio.src (initAudio trackB_empty None) = ""
        -> initAllAudios_durations [initAudio trackB_empty None] = Some [0]).
Proof.
  refine (addTrack_then_NaN_maxDuration (state_of (addTrack trackB_empty demo)) 1
            trackB_empty (initAudio trackB_empty None) _ _ _ _ _).
  - vm_compute. lia.
  - vm_compute. reflexivity.
  - vm_compute. reflexivity.
  - reflexivity.
  - reflexivity.
Defined.

(** The same replacement on the 15 second timeline of [demo]: the lane of B
    has no duration any more and the timeline length is [NaN]. *)
Example demo_replacement_NaN :
  (Nan.maxDuration <$>
     Nan.addTrack_then 1 trackB_empty (initAudio trackB_empty None)
       (nan_state (state_of (addTrack trackB_empty demo)))) = Some Js.NaN
  /\ maxDuration (state_of (addTrack trackB_empty demo)) = 15
  /\ addTrack_then 1 trackB_empty (initAudio trackB_empty None)
       (state_of (addTrack trackB_empty demo))
     = Throw Unmodelled
         (with_audios <[1%nat := initAudio trackB_empty None]>
            (state_of (addTrack trackB_empty demo))).
Proof. vm_compute. repeat split; reflexivity. Qed.

(** ** The synchronisation clock *)

Lemma onFrame_reduce_ge (l : list Audio.t) (ts : list TrackOptions) :
  forall (index : nat) (pos position : Q),
    onFrame_reduce pos l ts index = Some position -> pos <= position.
Proof.
  induction l as [|a l IH]; intros index pos position H; simpl in H.
  - injection H as <-. apply Qle_refl.
  - destruct (negb (Audio.paused a)).
    + destruct (ts !! index) as [t|]; [|discriminate].
      eapply Qle_trans; [apply Qmax_l_le | exact (IH _ _ _ H)].
    + exact (IH _ _ _ H).
Qed.

(** With a track for every audio the reduce of [onFrame] gives the maximum
    of its start value and the positions of the audios that are not paused. *)
Lemma onFrame_reduce_spec (l : list Audio.t) (ts : list TrackOptions) :
  forall (index : nat) (pos : Q),
    (index + List.length l <= List.length ts)%nat ->
    exists position, onFrame_reduce pos l ts index = Some position
      /\ is_maximum position
           (pos :: List.map (fun at_ => Audio.currentTime (fst at_) + startPosition (snd at_))
                     (List.filter (fun at_ => negb (Audio.paused (fst at_)))
                        (zip l (drop index ts)))).
Proof.
  induction l as [|a l IH]; intros index pos Hlen.
  - exists pos. split; [reflexivity|]. simpl. split.
    + apply Exists_cons_hd. reflexivity.
    + repeat constructor. apply Qle_refl.
  - simpl in Hlen.
    destruct (lookup_lt_is_Some_2 ts index) as [t Ht]; [lia|].
    rewrite (drop_S ts t index Ht). simpl.
    destruct (Audio.paused a) eqn:Hp; simpl.
    + apply IH. lia.
    + rewrite Ht.
      destruct (IH (S index) (Qmax pos (Audio.currentTime a + startPosition t)))
        as (position & Hrun & Hmax); [lia|].
      exists position. split; [exact Hrun|].
      apply is_maximum_cons_max. exact Hmax.
Qed.

Lemma rescheduled_run (s : MultiTrack) :
  (h <- requestAnimationFrame ;; modify (with_frameRequest (Some h))) s
  = Ok tt (rescheduled s).
Proof. reflexivity. Qed.

(** A tick never moves the global position back, in any state. *)
Lemma onFrame_never_decreases (c : Q) :
  keeps (fun s => c <= currentTime s) onFrame.
Proof.
  unfold onFrame. apply keeps_get_bind'. intros s Hc.
  destruct (onFrame_reduce (currentTime s) (audios s) (tracks s) 0) as [position|] eqn:Hred;
    [|apply keeps_throw].
  apply onFrame_reduce_ge in Hred.
  apply keeps_bind; [apply keeps_if; [|apply keeps_ret]|intros _].
  - apply updatePosition_keeps. intros s0 l' H0. unfold moved.
    destruct (negb (Qeqb position (currentTime s0))); [|exact H0].
    change (c <= position). exact (Qle_trans _ _ _ Hc Hred).
  - unfold requestAnimationFrame.
    apply keeps_bind; [apply keeps_get_bind'; intros s0 _|intros h];
      repeat first [ apply keeps_ret
                   | apply keeps_modify; intros ? ?; assumption
                   | apply keeps_bind; [|intros ?] ].
Qed.

Lemma ticks_never_decrease (dts : list Q) :
  forall s, currentTime s <= currentTime (ticks dts s).
Proof.
  induction dts as [|dt rest IH]; intros s; simpl; [apply Qle_refl|].
  eapply Qle_trans; [|apply IH].
  apply (onFrame_never_decreases (currentTime s) (elapse dt s)). apply Qle_refl.
Qed.

(** C4.  A tick computes the candidate, the maximum of the global position
    and of [currentTime + startPosition] over the audios that are not
    paused; it moves the global position to the candidate when the candidate
    is strictly greater and otherwise only reschedules itself; the global
    position after the tick, and after any number of consecutive ticks, is
    never less than before. *)
Theorem onFrame_candidate (s : MultiTrack) :
  aligned s ->
  (exists candidate s',
    onFrame s = Ok tt s'
    /\ is_maximum candidate (currentTime s :: playing_positions s)
    /\ (currentTime s < candidate -> currentTime s' = candidate)
    /\ (~ currentTime s < candidate -> s' = rescheduled s)
    /\ currentTime s <= currentTime s')
  /\ (forall dts, currentTime s <= currentTime (ticks dts s)).
Proof.
  intros [Hla _]. split; [|intros dts; apply ticks_never_decrease].
  destruct (onFrame_reduce_spec (audios s) (tracks s) 0 (currentTime s))
    as (position & Hred & Hmax); [simpl; lia|].
  rewrite drop_0 in Hmax. fold (playing_positions s) in Hmax.
  pose proof (onFrame_reduce_ge _ _ _ _ _ Hred) as Hge.
  exists position.
  destruct (Qltb (currentTime s) position) eqn:Hlt.
  - destruct (updatePosition_ok position true s) as (l' & Hupd & _); [lia|].
    exists (rescheduled (with_audios (fun _ => l') (moved position true s))).
    split; [|split; [exact Hmax|]].
    + unfold onFrame, bind at 1, get. rewrite Hred, Hlt.
      erewrite bind_ok by exact Hupd. apply rescheduled_run.
    + assert (Hcur : currentTime (rescheduled (with_audios (fun _ => l')
                        (moved position true s))) = position).
      { unfold moved. apply Qltb_lt in Hlt.
        destruct (Qeqb position (currentTime s)) eqn:E; [|reflexivity].
        apply Qeqb_eq in E. rewrite E in Hlt. exfalso. exact (Qlt_irrefl _ Hlt). }
      split; [intros _; exact Hcur|]. split.
      * intros Hn. exfalso. apply Hn, Qltb_lt, Hlt.
      * rewrite Hcur. exact Hge.
  - exists (rescheduled s). split; [|split; [exact Hmax|]].
    + unfold onFrame, bind at 1, get. rewrite Hred, Hlt.
      erewrite bind_ok by reflexivity. apply rescheduled_run.
    + split; [|split; [reflexivity | apply Qle_refl]].
      intros Hc. apply Qltb_lt in Hc. congruence.
Qed.

Lemma onFrame_candidate_witness :
  (exists candidate s',
    onFrame (elapse (1 # 2) demo_playing) = Ok tt s'
    /\ is_maximum candidate
         (currentTime (elapse (1 # 2) demo_playing)
            :: playing_positions (elapse (1 # 2) demo_playing))
    /\ (currentTime (elapse (1 # 2) demo_playing) < candidate -> currentTime s' = candidate)
    /\ (~ currentTime (elapse (1 # 2) demo_playing) < candidate
        -> s' = rescheduled (elapse (1 # 2) demo_playing))
    /\ currentTime (elapse (1 # 2) demo_playing) <= currentTime s')
  /\ (forall dts, currentTime (elapse (1 # 2) demo_playing)
                  <= currentTime (ticks dts (elapse (1 # 2) demo_playing))).
Proof.
  refine (onFrame_candidate (elapse (1 # 2) demo_playing) _).
  split; vm_compute; reflexivity.
Defined.

(** Half a second into playback the tick moves the position from 0 to 1/2. *)
Example demo_tick :
  playing_positions (elapse (1 # 2) demo_playing) = [0 + (1 # 2) * 1 + 0; 0 + (1 # 2) * 1 + 0]
  /\ currentTime (state_of (onFrame (elapse (1 # 2) demo_playing))) == 1 # 2.
Proof. vm_compute. split; reflexivity. Qed.

(** With every audio paused a tick only reschedules itself. *)
Lemma onFrame_reduce_paused (l : list Audio.t) (ts : list TrackOptions) :
  existsb (fun audio => negb (Audio.paused audio)) l = false ->
  forall index pos, onFrame_reduce pos l ts index = Some pos.
Proof.
  induction l as [|a l IH]; intros H index pos; [reflexivity|].
  simpl in *. apply orb_false_iff in H as [Ha Hl]. rewrite Ha. apply IH, Hl.
Qed.

Lemma Qltb_irrefl (x : Q) : Qltb x x = false.
Proof. apply Qltb_ge, Qle_refl. Qed.

Lemma onFrame_paused (s : MultiTrack) :
  isPlaying s = false -> onFrame s = Ok tt (rescheduled s).
Proof.
  intros H. unfold onFrame, bind at 1, get.
  rewrite (onFrame_reduce_paused _ _ H), Qltb_irrefl.
  erewrite bind_ok by reflexivity. apply rescheduled_run.
Qed.

Lemma existsb_map_pause (f : Audio.t -> Audio.t) (l : list Audio.t) :
  (forall a, Audio.paused (f a) = true) ->
  existsb (fun audio => negb (Audio.paused audio)) (List.map f l) = false.
Proof.
  intros Hf. induction l as [|a l IH]; [reflexivity|].
  simpl. rewrite Hf, IH. reflexivity.
Qed.

Lemma filter_not_In (h : nat) (l : list nat) :
  ~ In h (List.filter (fun x => negb (x =? h)%nat) l).
Proof.
  intros H. apply filter_In in H as [_ H]. rewrite Nat.eqb_refl in H. discriminate.
Qed.

(** After [play()] the tick with handle 1 is pending; [pause()] leaves it
    pending; the browser then runs it, and it schedules the next one. *)
Example demo_pause_leaves_tick :
  frameRequest demo_playing = Some 1%nat
  /\ pendingFrames demo_playing = [1%nat]
  /\ pendingFrames (state_of (pause demo_playing)) = [1%nat]
  /\ animationFrame 1 (state_of (pause demo_playing))
     = Ok tt (rescheduled (with_pendingFrames (fun _ => []) (state_of (pause demo_playing))))
  /\ pendingFrames (state_of (animationFrame 1 (state_of (pause demo_playing)))) = [2%nat].
Proof. vm_compute. repeat split; reflexivity. Qed.

(** [destroy()] pauses every audio and cancels the tick whose handle
    [frameRequest] holds. *)
Lemma destroy_cancels (s : MultiTrack) :
  exists s2, destroy s = Ok tt s2
     /\ isPlaying s2 = false
     /\ forall h, frameRequest s = Some h -> h <> 0%nat -> ~ In h (pendingFrames s2).
Proof.
  unfold destroy, bind at 1, get.
  destruct (frameRequest s) as [h|] eqn:Hf; [destruct (h =? 0)%nat eqn:Hz|].
  - eexists. split; [reflexivity|]. split.
    + apply existsb_map_pause. reflexivity.
    + intros h' Hh' Hne. injection Hh' as <-. apply Nat.eqb_eq in Hz. contradiction.
  - eexists. split; [reflexivity|]. split.
    + apply existsb_map_pause. reflexivity.
    + intros h' Hh' _. injection Hh' as <-. simpl. apply filter_not_In.
  - eexists. split; [reflexivity|]. split.
    + apply existsb_map_pause. reflexivity.
    + intros h' Hh'. discriminate.
Qed.

(** C5, where the code leaves the claim.  [pause()] pauses every audio and
    does nothing else: a tick the clock has pending stays pending and
    [frameRequest] keeps its handle.  When the browser runs that tick after
    the call, it runs, moves nothing and schedules the next tick under a new
    handle: the loop goes on.  ([destroy()] does cancel the handle in
    [frameRequest].) *)
Theorem pause_leaves_clock_running (s : MultiTrack) (h : nat) :
  In h (pendingFrames s) ->
  exists s1 s2,
    pause s = Ok tt s1
    /\ isPlaying s1 = false
    /\ pendingFrames s1 = pendingFrames s
    /\ frameRequest s1 = frameRequest s
    /\ animationFrame h s1 = Ok tt s2
    /\ In (nextFrame s) (pendingFrames s2)
    /\ frameRequest s2 = Some (nextFrame s)
    /\ nextFrame s2 = S (nextFrame s)
    /\ currentTime s2 = currentTime s
    /\ isPlaying s2 = false.
Proof.
  intros Hh.
  set (s1 := with_audios (List.map Audio.pause) s).
  assert (Hp : isPlaying s1 = false) by (apply existsb_map_pause; reflexivity).
  set (s1' := with_pendingFrames (List.filter (fun x => negb (x =? h)%nat)) s1).
  assert (Hp' : isPlaying s1' = false) by exact Hp.
  exists s1, (rescheduled s1').
  split; [reflexivity|]. split; [exact Hp|]. split; [reflexivity|]. split; [reflexivity|].
  split.
  - unfold animationFrame, bind at 1, get.
    assert (He : existsb (fun x => (x =? h)%nat) (pendingFrames s1) = true).
    { apply existsb_exists. exists h. split; [exact Hh | apply Nat.eqb_refl]. }
    rewrite He. unfold cancelAnimationFrame. erewrite bind_ok by reflexivity.
    apply onFrame_paused, Hp'.
  - split; [simpl; apply in_or_app; right; left; reflexivity|].
    split; [reflexivity|]. split; [reflexivity|]. split; [reflexivity | exact Hp'].
Qed.

Lemma pause_leaves_clock_running_witness :
  exists s1 s2,
    pause demo_playing = Ok tt s1
    /\ isPlaying s1 = false
    /\ pendingFrames s1 = pendingFrames demo_playing
    /\ frameRequest s1 = frameRequest demo_playing
    /\ animationFrame 1 s1 = Ok tt s2
    /\ In (nextFrame demo_playing) (pendingFrames s2)
    /\ frameRequest s2 = Some (nextFrame demo_playing)
    /\ nextFrame s2 = S (nextFrame demo_playing)
    /\ currentTime s2 = currentTime demo_playing
    /\ isPlaying s2 = false.
Proof.
  refine (pause_leaves_clock_running demo_playing 1 _).
  vm_compute. left. reflexivity.
Defined.

(** ** The position model: play state of a track's audio *)

(** The audio of a track ends up paused exactly when playback is paused or
    the local time is negative or greater than the duration. *)
Lemma updatePosition_track_paused isPaused time track duration a :
  Audio.paused (updatePosition_track isPaused time track duration a)
  = isPaused || Qltb (time - startPosition track) 0
    || gt_undef (time - startPosition track) duration.
Proof.
  unfold updatePosition_track. cbv zeta.
  generalize (Qltb precisionSeconds
                (Qabs (Audio.currentTime a - (time - startPosition track)))).
  generalize (isMuted (time - startPosition track) track).
  generalize (Qltb (time - startPosition track) 0).
  generalize (gt_undef (time - startPosition track) duration).
  generalize (Qmax 0 (time - startPosition track)).
  intros x far neg muted' seek.
  destruct a as [src0 dur0 cur0 paused0 muted0 rate0 vol0 calls0].
  destruct isPaused, far, neg, muted', seek, paused0, muted0; reflexivity.
Qed.

(** It receives [pause()] or [play()] only when its play state changes. *)
Lemma updatePosition_track_calls isPaused time track duration a :
  let paused' := Audio.paused (updatePosition_track isPaused time track duration a) in
  Audio.calls (updatePosition_track isPaused time track duration a)
  = Audio.calls a
    ++ (if Bool.eqb (Audio.paused a) paused' then []
        else [if paused' then CallPause else CallPlay]).
Proof.
  unfold updatePosition_track. cbv zeta.
  generalize (Qltb precisionSeconds
                (Qabs (Audio.currentTime a - (time - startPosition track)))).
  generalize (isMuted (time - startPosition track) track).
  generalize (Qltb (time - startPosition track) 0).
  generalize (gt_undef (time - startPosition track) duration).
  generalize (Qmax 0 (time - startPosition track)).
  intros x far neg muted' seek.
  destruct a as [src0 dur0 cur0 paused0 muted0 rate0 vol0 calls0].
  destruct isPaused, far, neg, muted', seek, paused0, muted0; simpl;
    rewrite ?app_nil_r; reflexivity.
Qed.

(** In a state with an audio for every track, [updatePosition] leaves the
    audio of every track in that play state. *)
Lemma updatePosition_play_state (time : Q) (autoCenter : bool) (s : MultiTrack)
    (j : nat) (track : TrackOptions) :
  (List.length (tracks s) <= List.length (audios s))%nat ->
  tracks s !! j = Some track ->
  exists s' a', updatePosition time autoCenter s = Ok tt s'
    /\ audios s' !! j = Some a'
    /\ Audio.paused a'
       = negb (isPlaying s) || Qltb (time - startPosition track) 0
         || gt_undef (time - startPosition track) (durations s !! j).
Proof.
  intros Hlen Hj.
  destruct (updatePosition_ok time autoCenter s Hlen) as (l' & Hrun & _ & Hin & _).
  destruct (Hin j track Hj) as (a & _ & Ha').
  eexists _, _. split; [exact Hrun|]. split; [exact Ha'|].
  apply updatePosition_track_paused.
Qed.

(** C6, at the input where the code leaves the claim.  In [demo_playing]
    playback is active and track B (start 5, duration 10) is paused.  At
    global position 15 its local time is 10, which is not less than its
    duration: by the claim the track is out of range and its audio stays
    paused.  [updatePosition] tests [newTime > duration], takes the track
    for in range and calls [play()] on it, while [findCurrentTracks] (with
    [currentTime < startPosition + duration]) does not list it. *)
Theorem updatePosition_plays_at_track_end :
  let s' := state_of (updatePosition 15 false demo_playing) in
  isPlaying demo_playing = true
  /\ startPosition <$> tracks demo_playing !! 1%nat = Some 5
  /\ durations demo_playing !! 1%nat = Some 10
  /\ Qltb (15 - 5) 10 = false
  /\ Audio.paused <$> audios demo_playing !! 1%nat = Some true
  /\ Audio.paused <$> audios s' !! 1%nat = Some false
  /\ Audio.calls <$> audios s' !! 1%nat = Some [CallPlay]
  /\ findCurrentTracks_forEach s' (tracks s') 0 = [].
Proof. vm_compute. repeat split; reflexivity. Qed.

(** ** Playback rate *)

Lemma setAudioRate_guard (rate : Js.num) :
  Js.ltb rate (Js.Num (1 # 4)) || Js.ltb (Js.Num 5) rate = true
  <-> exists q, rate = Js.Num q /\ (q < 1 # 4 \/ 5 < q).
Proof.
  destruct rate as [q|]; simpl.
  - rewrite orb_true_iff, !Qltb_lt. split.
    + intros H. exists q. split; [reflexivity | exact H].
    + intros (q' & Hq & H). injection Hq as <-. exact H.
  - split; [discriminate | intros (q & Hq & _); discriminate].
Qed.

(** C7.  [setAudioRate(rate)] throws its [Error] exactly when [rate] is a
    number below 0.25 or above 5.0, and then leaves the state, every audio
    included, as it was.  In every other case it returns, having made the
    assignment [playbackRate = rate] on every audio, once each, and nothing
    else: for a number within the range, and also for [NaN], which is not
    within the range and yet passes both comparisons of the guard. *)
Theorem setAudioRate_accepts_NaN (s : MultiTrack) (rate : Js.num) :
  ((exists q, rate = Js.Num q /\ (q < 1 # 4 \/ 5 < q)) <->
     exists e s', setAudioRate rate s = Throw e s')
  /\ (forall e s', setAudioRate rate s = Throw e s' ->
        s' = s /\ e = RateError "Playback rate must be between 0.25 and 5.0")
  /\ ((forall q, rate = Js.Num q -> 1 # 4 <= q /\ q <= 5) ->
      exists s', setAudioRate rate s = Ok tt s'
        /\ Forall2 (fun a a' => Audio.calls a' = Audio.calls a ++ [CallSetPlaybackRate rate])
             (audios s) (audios s')
        /\ List.length (audios s') = List.length (audios s)
        /\ List.map Audio.paused (audios s') = List.map Audio.paused (audios s)
        /\ List.map Audio.currentTime (audios s') = List.map Audio.currentTime (audios s)
        /\ List.map Audio.src (audios s') = List.map Audio.src (audios s)
        /\ currentTime s' = currentTime s /\ durations s' = durations s
        /\ maxDuration s' = maxDuration s /\ tracks s' = tracks s)
  /\ (exists s', setAudioRate Js.NaN s = Ok tt s'
        /\ Forall2 (fun a a' =>
                      Audio.calls a' = Audio.calls a ++ [CallSetPlaybackRate Js.NaN])
             (audios s) (audios s')
        /\ List.length (audios s') = List.length (audios s)).
Proof.
  assert (Hok : forall r, Js.ltb r (Js.Num (1 # 4)) || Js.ltb (Js.Num 5) r = false ->
            setAudioRate r s = Ok tt (with_audios (List.map (Audio.set_playbackRate r)) s)).
  { intros r E. unfold setAudioRate. rewrite E. reflexivity. }
  assert (Hall : forall r,
            Forall2 (fun a a' => Audio.calls a' = Audio.calls a ++ [CallSetPlaybackRate r])
              (audios s) (List.map (Audio.set_playbackRate r) (audios s))).
  { intros r. induction (audios s) as [|a l IH]; simpl; constructor;
      [reflexivity | exact IH]. }
  split; [|split; [|split]].
  - rewrite <- setAudioRate_guard. unfold setAudioRate.
    destruct (Js.ltb rate (Js.Num (1 # 4)) || Js.ltb (Js.Num 5) rate).
    + split; [intros _; eexists _, _; reflexivity | reflexivity].
    + split; [discriminate | intros (e & s' & H); discriminate].
  - unfold setAudioRate.
    destruct (Js.ltb rate (Js.Num (1 # 4)) || Js.ltb (Js.Num 5) rate).
    + intros e s' H. injection H as <- <-. split; reflexivity.
    + intros e s' H. discriminate.
  - intros Hin.
    assert (E : Js.ltb rate (Js.Num (1 # 4)) || Js.ltb (Js.Num 5) rate = false).
    { destruct (Js.ltb rate (Js.Num (1 # 4)) || Js.ltb (Js.Num 5) rate) eqn:E;
        [|reflexivity].
      apply setAudioRate_guard in E as (q & Hq & H). destruct (Hin q Hq) as [Hlo Hhi].
      exfalso. destruct H as [H|H].
      - exact (Qlt_not_le _ _ H Hlo).
      - exact (Qlt_not_le _ _ H Hhi). }
    eexists. split; [exact (Hok rate E)|]. simpl.
    split; [apply Hall|]. split; [apply length_map|].
    rewrite !List.map_map. simpl. repeat split; reflexivity.
  - eexists. split; [exact (Hok Js.NaN eq_refl)|]. simpl.
    split; [apply Hall | apply length_map].
Qed.

(** The two calls of the specification's example, and the call with [NaN]
    (the rates are those a resource that keeps to the adapter's contract
    then has). *)
Example setAudioRate_examples :
  setAudioRate (Js.Num (1 # 10)) demo
    = Throw (RateError "Playback rate must be between 0.25 and 5.0") demo
  /\ List.map Audio.playbackRate (audios (state_of (setAudioRate (Js.Num 2) demo)))
     = [Js.Num 2; Js.Num 2; Js.Num 2]
  /\ List.map Audio.playbackRate (audios (state_of (setAudioRate Js.NaN demo)))
     = [Js.NaN; Js.NaN; Js.NaN].
Proof. vm_compute. repeat split; reflexivity. Qed.

(** ** The global position is not negative unless set so *)

















(** The run of the witness: half a second into playback the tick moves the
    position to 0.5; the seek puts it at 7.5; a second later the tick finds
    the audios at 8.5. *)
Example demo_run_positions :
  getCurrentTime (run_ops [OpLoaded demo_loaded; OpPlay; OpElapse (1 # 2); OpFrame 1]
                    (create [trackA; trackB] None)) == 1 # 2
  /\ getCurrentTime
       (run_ops [OpLoaded demo_loaded; OpPlay; OpElapse (1 # 2); OpFrame 1;
                 OpSeekTo (1 # 2); OpElapse 1; OpFrame 2; OpPause]
          (create [trackA; trackB] None)) == 17 # 2.
Proof. split; vm_compute; reflexivity. Qed.

(** A run that leaves the rationals: the lane put in the place of B has no
    duration, and the recomputation goes on with [NaN]. *)
Example demo_run_not_numeric :
  numeric_run [OpLoaded demo_loaded; OpAddTrack trackB_empty;
               OpAddTrackLoaded 1 trackB_empty (initAudio trackB_empty None);
               OpSeekTo (1 # 2)]
    (create [trackA; trackB] None) = false.
Proof. vm_compute. reflexivity. Qed.

(** The scenario of the specification: [seekTo(0.5)] on the 15 second
    timeline puts the position at 7.5. *)
Example demo_seekTo : getCurrentTime (state_of (seekTo (1 # 2) demo)) == 15 # 2.
Proof. vm_compute. reflexivity. Qed.

(** * Further properties of the engine *)

(** ** Seeking *)

Lemma Qeqb_sym_true (x y : Q) : Qeqb x y = true -> y == x.
Proof. intros H. apply Qeqb_eq in H. symmetry. exact H. Qed.

(** The position [updatePosition] leaves is the one it was given. *)
Lemma moved_currentTime (time : Q) (autoCenter : bool) (s : MultiTrack) :
  currentTime (moved time autoCenter s) == time.
Proof.
  unfold moved. destruct (Qeqb time (currentTime s)) eqn:E; simpl.
  - apply Qeqb_sym_true, E.
  - reflexivity.
Qed.

Lemma updatePosition_track_currentTime isPaused time track duration a :
  Audio.currentTime (updatePosition_track isPaused time track duration a)
  = if Qltb precisionSeconds (Qabs (Audio.currentTime a - (time - startPosition track)))
    then Qmax 0 (time - startPosition track)
    else Audio.currentTime a.
Proof.
  unfold updatePosition_track. cbv zeta.
  generalize (Qltb precisionSeconds
                (Qabs (Audio.currentTime a - (time - startPosition track)))).
  generalize (isMuted (time - startPosition track) track).
  generalize (Qltb (time - startPosition track) 0).
  generalize (gt_undef (time - startPosition track) duration).
  generalize (Qmax 0 (time - startPosition track)).
  intros x far neg muted' seek.
  destruct a as [src0 dur0 cur0 paused0 muted0 rate0 vol0 calls0].
  destruct isPaused, far, neg, muted', seek, paused0, muted0; reflexivity.
Qed.

Lemma updatePosition_track_muted isPaused time track duration a :
  Audio.muted (updatePosition_track isPaused time track duration a)
  = isMuted (time - startPosition track) track.
Proof.
  unfold updatePosition_track. cbv zeta.
  generalize (Qltb precisionSeconds
                (Qabs (Audio.currentTime a - (time - startPosition track)))).
  generalize (isMuted (time - startPosition track) track).
  generalize (Qltb (time - startPosition track) 0).
  generalize (gt_undef (time - startPosition track) duration).
  generalize (Qmax 0 (time - startPosition track)).
  intros x far neg muted' seek.
  destruct a as [src0 dur0 cur0 paused0 muted0 rate0 vol0 calls0].
  destruct isPaused, far, neg, muted', seek, paused0, muted0; reflexivity.
Qed.

Lemma Qmax_0_nonneg (x : Q) : 0 <= x -> Qmax 0 x == x.
Proof. intros H. apply Q.max_r, H. Qed.

(** Where the local time is not negative, the audio is left within the
    tolerance of it. *)
Lemma updatePosition_track_within isPaused time track duration a :
  0 <= time - startPosition track ->
  Qabs (Audio.currentTime (updatePosition_track isPaused time track duration a)
        - (time - startPosition track)) <= precisionSeconds.
Proof.
  intros Hpos. rewrite updatePosition_track_currentTime.
  destruct (Qltb precisionSeconds _) eqn:E.
  - apply Qabs_Qle_condition. rewrite (Qmax_0_nonneg _ Hpos).
    unfold precisionSeconds. split; lra.
  - apply Qltb_ge in E. exact E.
Qed.

(** An audio left playing is at most the tolerance ahead of the position. *)
Lemma updatePosition_track_near isPaused time track duration a :
  Audio.paused (updatePosition_track isPaused time track duration a) = false ->
  Audio.currentTime (updatePosition_track isPaused time track duration a)
    + startPosition track <= time + precisionSeconds.
Proof.
  intros Hp. rewrite updatePosition_track_paused in Hp.
  apply orb_false_iff in Hp as [Hp _]. apply orb_false_iff in Hp as [_ Hneg].
  apply Qltb_ge in Hneg.
  pose proof (updatePosition_track_within isPaused time track duration a Hneg) as H.
  apply Qabs_Qle_condition in H as [_ H]. lra.
Qed.

(** The reduce of [onFrame] stays under every bound of its start value and
    of the positions of the audios that are not paused. *)
Lemma onFrame_reduce_le (l : list Audio.t) (ts : list TrackOptions) (B : Q) :
  forall (index : nat) (pos position : Q),
    pos <= B ->
    (forall j a t, l !! j = Some a -> Audio.paused a = false ->
       ts !! (index + j)%nat = Some t ->
       Audio.currentTime a + startPosition t <= B) ->
    onFrame_reduce pos l ts index = Some position ->
    position <= B.
Proof.
  induction l as [|a l IH]; intros index pos position Hpos Hall H; simpl in H.
  - injection H as <-. exact Hpos.
  - destruct (Audio.paused a) eqn:Hp; simpl in H.
    + apply (IH (S index) pos position Hpos); [|exact H].
      intros j a' t Ha' Hp' Ht. apply (Hall (S j) a' t Ha' Hp').
      replace (index + S j)%nat with (S index + j)%nat by lia. exact Ht.
    + destruct (ts !! index) as [t|] eqn:Ht; [|discriminate].
      apply (IH (S index) _ position) in H; [exact H| |].
      * apply Q.max_lub; [exact Hpos|].
        apply (Hall 0%nat a t eq_refl Hp). rewrite Nat.add_0_r. exact Ht.
      * intros j a' t' Ha' Hp' Ht'. apply (Hall (S j) a' t' Ha' Hp').
        replace (index + S j)%nat with (S index + j)%nat by lia. exact Ht'.
Qed.

Lemma moved_fields (time : Q) (autoCenter : bool) (s : MultiTrack) :
  tracks (moved time autoCenter s) = tracks s
  /\ audios (moved time autoCenter s) = audios s
  /\ durations (moved time autoCenter s) = durations s
  /\ maxDuration (moved time autoCenter s) = maxDuration s
  /\ pendingFrames (moved time autoCenter s) = pendingFrames s
  /\ nextFrame (moved time autoCenter s) = nextFrame s
  /\ frameRequest (moved time autoCenter s) = frameRequest s
  /\ emitted (moved time autoCenter s) = emitted s.
Proof. unfold moved. destruct (negb _); repeat split; reflexivity. Qed.

(** A tick in a state with as many audios as tracks. *)
Lemma onFrame_run (s : MultiTrack) :
  List.length (audios s) = List.length (tracks s) ->
  exists position l',
    onFrame_reduce (currentTime s) (audios s) (tracks s) 0 = Some position
    /\ currentTime s <= position
    /\ List.length l' = List.length (audios s)
    /\ onFrame s = Ok tt (ticked position l' s)
    /\ currentTime (ticked position l' s) == position.
Proof.
  intros Hla.
  destruct (onFrame_reduce_spec (audios s) (tracks s) 0 (currentTime s))
    as (position & Hred & _); [simpl; lia|].
  pose proof (onFrame_reduce_ge _ _ _ _ _ Hred) as Hge.
  exists position. unfold ticked.
  destruct (Qltb (currentTime s) position) eqn:Hlt.
  - destruct (updatePosition_ok position true s) as (l' & Hupd & Hl' & _); [lia|].
    exists l'. split; [exact Hred|]. split; [exact Hge|]. split; [exact Hl'|]. split.
    + unfold onFrame, bind at 1, get. rewrite Hred, Hlt.
      erewrite bind_ok by exact Hupd. apply rescheduled_run.
    + apply (moved_currentTime position true s).
  - exists (audios s). split; [exact Hred|]. split; [exact Hge|]. split; [reflexivity|]. split.
    + unfold onFrame, bind at 1, get. rewrite Hred, Hlt.
      erewrite bind_ok by reflexivity. apply rescheduled_run.
    + apply Qltb_ge in Hlt. apply Qle_antisym; assumption.
Qed.

(** [play_forEach] never throws; it leaves an audio playing exactly when it
    was playing or its index is listed, and touches nothing else of it but
    the record of calls. *)
Lemma play_forEach_run (indexes : list Z) :
  forall s, exists l',
    play_forEach indexes s = Ok tt (with_audios (fun _ => l') s)
    /\ List.length l' = List.length (audios s)
    /\ (forall i a, audios s !! i = Some a ->
          exists a', l' !! i = Some a'
            /\ Audio.src a' = Audio.src a
            /\ Audio.currentTime a' = Audio.currentTime a
            /\ (Audio.paused a' = false <->
                Audio.paused a = false \/ In (Z.of_nat i) indexes)).
Proof.
  induction indexes as [|index rest IH]; intros s.
  - exists (audios s). split; [simpl; unfold ret; rewrite with_audios_id; reflexivity|].
    split; [reflexivity|]. intros i a Ha. exists a. repeat split; auto.
    intros [H|[]]. exact H.
  - simpl. unfold play_index.
    destruct (index <? 0)%Z eqn:Hneg.
    + destruct (IH s) as (l' & Hrun & Hlen & Hl').
      exists l'. split; [erewrite bind_ok by reflexivity; exact Hrun|].
      split; [exact Hlen|]. intros i a Ha.
      destruct (Hl' i a Ha) as (a' & Ha' & Hs & Hc & Hp).
      exists a'. repeat split; try assumption.
      * intros H. apply Hp in H. destruct H; [left|right; right]; assumption.
      * intros [H|[H|H]]; apply Hp; [left; exact H | | right; exact H].
        apply Z.ltb_lt in Hneg. lia.
    + apply Z.ltb_ge in Hneg.
      set (s1 := with_audios (alter Audio.play (Z.to_nat index)) s).
      destruct (IH s1) as (l' & Hrun & Hlen & Hl').
      exists l'. split; [erewrite bind_ok by reflexivity; fold s1; rewrite Hrun; reflexivity|].
      split; [rewrite Hlen; subst s1; simpl; apply length_alter|].
      intros i a Ha.
      destruct (decide (i = Z.to_nat index)) as [Hi|Hi].
      * destruct (Hl' i (Audio.play a)) as (a' & Ha' & Hs & Hc & Hp).
        { subst s1; simpl. rewrite Hi, list_lookup_alter_eq, <- Hi, Ha. reflexivity. }
        exists a'. split; [exact Ha'|]. split; [exact Hs|]. split; [exact Hc|].
        split; [intros _; right; left; lia|]. intros _. apply Hp. left. reflexivity.
      * destruct (Hl' i a) as (a' & Ha' & Hs & Hc & Hp).
        { subst s1; simpl. rewrite list_lookup_alter_ne by congruence. exact Ha. }
        exists a'. repeat split; try assumption.
        -- intros H. apply Hp in H. destruct H; [left|right; right]; assumption.
        -- intros [H|[H|H]]; apply Hp; [left; exact H | | right; exact H]. lia.
Qed.

Lemma ticked_fields (position : Q) (l' : list Audio.t) (s : MultiTrack) :
  pendingFrames (ticked position l' s) = pendingFrames s ++ [nextFrame s]
  /\ nextFrame (ticked position l' s) = S (nextFrame s)
  /\ frameRequest (ticked position l' s) = Some (nextFrame s)
  /\ tracks (ticked position l' s) = tracks s
  /\ durations (ticked position l' s) = durations s
  /\ maxDuration (ticked position l' s) = maxDuration s
  /\ emitted (ticked position l' s) = emitted s
  /\ (List.length l' = List.length (audios s) ->
      List.length (audios (ticked position l' s)) = List.length (audios s)).
Proof.
  unfold ticked, rescheduled.
  destruct (moved_fields position true s) as (Ht & Ha & Hd & Hm & Hp & Hn & Hf & He).
  destruct (Qltb (currentTime s) position); simpl;
    rewrite ?Ht, ?Hd, ?Hm, ?Hp, ?Hn, ?He; repeat split; auto.
Qed.

(** [play()] in a state with as many audios as tracks: one tick, then the
    current tracks are played. *)
Lemma play_run (s : MultiTrack) :
  List.length (audios s) = List.length (tracks s) ->
  exists position l1 l2,
    play s = Ok tt (with_audios (fun _ => l2) (ticked position l1 s))
    /\ onFrame_reduce (currentTime s) (audios s) (tracks s) 0 = Some position
    /\ currentTime s <= position
    /\ currentTime (ticked position l1 s) == position
    /\ List.length l1 = List.length (audios s)
    /\ List.length l2 = List.length (audios s)
    /\ (forall i a, audios (ticked position l1 s) !! i = Some a ->
          exists a', l2 !! i = Some a'
            /\ (Audio.paused a' = false <->
                Audio.paused a = false
                \/ In (Z.of_nat i) (findCurrentTracks (ticked position l1 s)))).
Proof.
  intros Hla.
  destruct (onFrame_run s Hla) as (position & l1 & Hred & Hge & Hl1 & Hrun & Hcur).
  destruct (play_forEach_run (findCurrentTracks (ticked position l1 s)) (ticked position l1 s))
    as (l2 & Hplay & Hl2 & Hin).
  exists position, l1, l2.
  split; [|split; [exact Hred|split; [exact Hge|split; [exact Hcur|split; [exact Hl1|split]]]]].
  - unfold play, startSync. erewrite bind_ok by exact Hrun.
    unfold bind, get. exact Hplay.
  - rewrite Hl2. apply ticked_fields, Hl1.
  - intros i a Ha. destruct (Hin i a Ha) as (a' & Ha' & _ & _ & Hp). eauto.
Qed.

(** X1.  In a state with an audio for every track, [setTime(t)] returns and
    leaves the global position at [t] when nothing was playing, and between
    [t] and [t + 0.3] when playback was active: the [play()] it then runs
    ticks once, and an audio left playing is at most the tolerance ahead.
    [seekTo(p)] does the same at [p * maxDuration]. *)
Theorem setTime_lands_within_tolerance (s : MultiTrack) (time position : Q) :
  aligned s ->
  (exists s', setTime time s = Ok tt s'
     /\ time <= currentTime s' /\ currentTime s' <= time + precisionSeconds
     /\ (isPlaying s = false -> currentTime s' == time))
  /\ (exists s', seekTo position s = Ok tt s'
     /\ position * maxDuration s <= currentTime s'
     /\ currentTime s' <= position * maxDuration s + precisionSeconds
     /\ (isPlaying s = false -> currentTime s' == position * maxDuration s)).
Proof.
  intros [Hla Hld].
  assert (H : forall t, exists s',
             (updatePosition t false ;; if isPlaying s then play else ret tt) s = Ok tt s'
             /\ t <= currentTime s' /\ currentTime s' <= t + precisionSeconds
             /\ (isPlaying s = false -> currentTime s' == t)).
  { intros t.
    destruct (updatePosition_ok t false s) as (l' & Hupd & Hl' & Hin & _); [lia|].
    destruct (moved_fields t false s) as (Hmt & Hma & Hmd & _).
    pose proof (moved_currentTime t false s) as Hcur.
    set (s1 := with_audios (fun _ => l') (moved t false s)) in *.
    erewrite bind_ok by exact Hupd.
    destruct (isPlaying s) eqn:Hplaying.
    - assert (Hla1 : List.length (audios s1) = List.length (tracks s1)).
      { subst s1; simpl. rewrite Hl', Hmt. exact Hla. }
      destruct (play_run s1 Hla1) as (p & l1 & l2 & Hplay & Hred & Hge & Hp & _).
      exists (with_audios (fun _ => l2) (ticked p l1 s1)).
      split; [exact Hplay|].
      change (currentTime (with_audios (fun _ => l2) (ticked p l1 s1)))
        with (currentTime (ticked p l1 s1)).
      rewrite Hp.
      change (currentTime s1) with (currentTime (moved t false s)) in Hge.
      rewrite Hcur in Hge. split; [exact Hge|]. split; [|discriminate].
      apply (onFrame_reduce_le (audios s1) (tracks s1) (t + precisionSeconds)
               0 (currentTime s1) p); [| |exact Hred].
      * change (currentTime s1) with (currentTime (moved t false s)).
        rewrite Hcur. unfold precisionSeconds. lra.
      * intros j a tr Ha Hpa Htr. simpl in Htr.
        change (tracks s1) with (tracks (moved t false s)) in Htr. rewrite Hmt in Htr.
        destruct (Hin j tr Htr) as (a0 & _ & Ha').
        change (audios s1) with l' in Ha. rewrite Ha' in Ha. injection Ha as <-.
        apply updatePosition_track_near, Hpa.
    - exists s1. split; [reflexivity|].
      change (currentTime s1) with (currentTime (moved t false s)). rewrite Hcur.
      split; [apply Qle_refl|]. split; [unfold precisionSeconds; lra|].
      intros _. reflexivity. }
  split.
  - destruct (H time) as (s' & Hrun & Hrest). exists s'. split; [|exact Hrest].
    unfold setTime, bind at 1, get. exact Hrun.
  - destruct (H (position * maxDuration s)) as (s' & Hrun & Hrest).
    exists s'. split; [|exact Hrest].
    unfold seekTo, bind at 1, get. exact Hrun.
Qed.

Lemma setTime_lands_within_tolerance_witness :
  (exists s', setTime 3 demo_playing = Ok tt s'
     /\ 3 <= currentTime s' /\ currentTime s' <= 3 + precisionSeconds
     /\ (isPlaying demo_playing = false -> currentTime s' == 3))
  /\ (exists s', seekTo (1 # 2) demo_playing = Ok tt s'
     /\ (1 # 2) * maxDuration demo_playing <= currentTime s'
     /\ currentTime s' <= (1 # 2) * maxDuration demo_playing + precisionSeconds
     /\ (isPlaying demo_playing = false
         -> currentTime s' == (1 # 2) * maxDuration demo_playing)).
Proof.
  refine (setTime_lands_within_tolerance demo_playing 3 (1 # 2) _).
  split; vm_compute; reflexivity.
Defined.

(** ** [play] and [findCurrentTracks] *)

Lemma findIndex_from_complete {A} (p : A -> bool) (l : list A) :
  (exists x, In x l /\ p x = true) ->
  forall k, exists i, findIndex_from p l k = Some i.
Proof.
  induction l as [|y l IH]; intros (x & Hin & Hp) k; [destruct Hin|].
  simpl. destruct (p y) eqn:Hy; [eauto|].
  destruct Hin as [->|Hin]; [congruence|]. apply IH. eauto.
Qed.

(** Every index the scan lists is that of a track. *)
Lemma findCurrentTracks_forEach_lt (s : MultiTrack) (ts : list TrackOptions) :
  forall index z, In z (findCurrentTracks_forEach s ts index) ->
    exists i, z = Z.of_nat i /\ (index <= i < index + List.length ts)%nat.
Proof.
  induction ts as [|track ts IH]; intros index z H; [destruct H|].
  simpl in H. apply in_app_or in H as [H|H].
  - destruct (_ && _); [|destruct H]. destruct H as [<-|[]].
    exists index. simpl. split; [reflexivity | lia].
  - apply IH in H as (i & -> & Hi). exists i. simpl. split; [reflexivity | lia].
Qed.

Lemma Math_min_attained (l : list Q) :
  l <> [] -> exists m x, Math_min l = Some m /\ In x l /\ x == m.
Proof.
  induction l as [|y l IH]; [congruence|]. intros _. simpl.
  destruct l as [|y' l].
  - exists y, y. simpl. split; [reflexivity|]. split; [left; reflexivity | reflexivity].
  - destruct IH as (m & x & Hm & Hin & Hx); [discriminate|]. rewrite Hm.
    exists (Qmin y m). destruct (Q.min_dec y m) as [H|H].
    + exists y. split; [reflexivity|]. split; [left; reflexivity | symmetry; exact H].
    + exists x. split; [reflexivity|]. split; [right; exact Hin | rewrite H; exact Hx].
Qed.

(** [findCurrentTracks] lists at least one index; when some track has a url,
    the first one listed is that of a track. *)
Lemma findCurrentTracks_first (s : MultiTrack) :
  (exists track, In track (tracks s) /\ truthy_str (url track) = true) ->
  exists i rest, findCurrentTracks s = Z.of_nat i :: rest
    /\ (i < List.length (tracks s))%nat.
Proof.
  intros (track & Hin & Hurl). unfold findCurrentTracks.
  destruct (findCurrentTracks_forEach s (tracks s) 0) as [|z rest] eqn:Hscan.
  - destruct (Math_min_attained
                (List.map startPosition
                   (List.filter (fun t => truthy_str (url t)) (tracks s))))
      as (m & x & Hm & Hx & Hxm).
    { intros Hnil. apply map_eq_nil in Hnil.
      assert (Hf : In track (List.filter (fun t => truthy_str (url t)) (tracks s)))
        by (apply filter_In; split; assumption).
      rewrite Hnil in Hf. destruct Hf. }
    rewrite Hm. apply in_map_iff in Hx as (t & <- & Ht). apply filter_In in Ht as [Ht _].
    destruct (findIndex_from_complete (fun track0 => Qeqb (startPosition track0) m) (tracks s))
      with (k := 0%nat) as [i Hi].
    { exists t. split; [exact Ht | apply Qeqb_eq, Hxm]. }
    unfold findIndex. rewrite Hi. exists i, []. split; [reflexivity|].
    apply findIndex_from_lt in Hi. lia.
  - destruct (findCurrentTracks_forEach_lt s (tracks s) 0 z) as (i & -> & Hi).
    { rewrite Hscan. left. reflexivity. }
    exists i, rest. split; [reflexivity | lia].
Qed.

Lemma lookup_In {A} (l : list A) (i : nat) (x : A) : l !! i = Some x -> In x l.
Proof.
  revert i. induction l as [|y l IH]; intros [|i] H; try discriminate.
  - injection H as <-. left. reflexivity.
  - right. exact (IH i H).
Qed.

(** X2.  In a state with an audio for every track, [play()] returns; it
    schedules exactly one more tick, under a new handle that it keeps in
    [frameRequest], and leaves the ticks already pending where they are; and
    when some track has a url it leaves at least one audio playing. *)
Theorem play_schedules_and_starts (s : MultiTrack) :
  List.length (audios s) = List.length (tracks s) ->
  exists s', play s = Ok tt s'
    /\ pendingFrames s' = pendingFrames s ++ [nextFrame s]
    /\ frameRequest s' = Some (nextFrame s)
    /\ nextFrame s' = S (nextFrame s)
    /\ tracks s' = tracks s /\ durations s' = durations s
    /\ maxDuration s' = maxDuration s
    /\ currentTime s <= currentTime s'
    /\ ((exists track, In track (tracks s) /\ truthy_str (url track) = true) ->
        isPlaying s' = true).
Proof.
  intros Hla.
  destruct (play_run s Hla) as (p & l1 & l2 & Hplay & _ & Hge & Hp & Hl1 & Hl2 & Hin).
  destruct (ticked_fields p l1 s) as (Hpf & Hnf & Hfr & Ht & Hd & Hm & _ & Hlen).
  exists (with_audios (fun _ => l2) (ticked p l1 s)).
  split; [exact Hplay|]. split; [exact Hpf|]. split; [exact Hfr|]. split; [exact Hnf|].
  split; [exact Ht|]. split; [exact Hd|]. split; [exact Hm|]. split.
  - change (currentTime s <= currentTime (ticked p l1 s)). rewrite Hp. exact Hge.
  - intros Hurl.
    destruct (findCurrentTracks_first (ticked p l1 s)) as (i & rest & Hfirst & Hi).
    { rewrite Ht. exact Hurl. }
    rewrite Ht, <- Hla, <- (Hlen Hl1) in Hi.
    destruct (lookup_lt_is_Some_2 _ _ Hi) as [a Ha].
    destruct (Hin i a Ha) as (a' & Ha' & Hpa).
    apply existsb_exists. exists a'. split; [exact (lookup_In _ _ _ Ha')|].
    apply negb_true_iff, Hpa. right. rewrite Hfirst. left. reflexivity.
Qed.

Lemma play_schedules_and_starts_witness :
  exists s', play demo = Ok tt s'
    /\ pendingFrames s' = pendingFrames demo ++ [nextFrame demo]
    /\ frameRequest s' = Some (nextFrame demo)
    /\ nextFrame s' = S (nextFrame demo)
    /\ tracks s' = tracks demo /\ durations s' = durations demo
    /\ maxDuration s' = maxDuration demo
    /\ currentTime demo <= currentTime s'
    /\ ((exists track, In track (tracks demo) /\ truthy_str (url track) = true) ->
        isPlaying s' = true).
Proof.
  refine (play_schedules_and_starts demo _). vm_compute. reflexivity.
Defined.

(** ** [updatePosition]: what it leaves in the audios *)

Lemma updatePosition_track_rest isPaused time track duration a :
  Audio.duration (updatePosition_track isPaused time track duration a) = Audio.duration a
  /\ Audio.playbackRate (updatePosition_track isPaused time track duration a)
     = Audio.playbackRate a
  /\ Audio.volume (updatePosition_track isPaused time track duration a) = Audio.volume a.
Proof.
  unfold updatePosition_track. cbv zeta.
  generalize (Qltb precisionSeconds
                (Qabs (Audio.currentTime a - (time - startPosition track)))).
  generalize (isMuted (time - startPosition track) track).
  generalize (Qltb (time - startPosition track) 0).
  generalize (gt_undef (time - startPosition track) duration).
  generalize (Qmax 0 (time - startPosition track)).
  intros x far neg muted' seek.
  destruct a as [src0 dur0 cur0 paused0 muted0 rate0 vol0 calls0].
  destruct isPaused, far, neg, muted', seek, paused0, muted0; repeat split; reflexivity.
Qed.

(** X3.  In a state with an audio for every track, [updatePosition(time)]
    returns with the global position at [time] and, for every track, its
    audio muted exactly by the cue rule at the local time, within 0.3 s of
    the local time when that lies within the clip (not negative, and not
    beyond the duration of the element, when it has one), not moved at all
    when it was within 0.3 s already, and with its source, rate and volume
    untouched. *)
Theorem updatePosition_synchronises (time : Q) (autoCenter : bool) (s : MultiTrack)
    (j : nat) (track : TrackOptions) :
  (List.length (tracks s) <= List.length (audios s))%nat ->
  tracks s !! j = Some track ->
  exists s' a a',
    updatePosition time autoCenter s = Ok tt s'
    /\ currentTime s' == time
    /\ audios s !! j = Some a /\ audios s' !! j = Some a'
    /\ Audio.muted a' = isMuted (time - startPosition track) track
    /\ (0 <= time - startPosition track ->
        (forall d, Audio.duration a = Some d -> time - startPosition track <= d) ->
        Qabs (Audio.currentTime a' - (time - startPosition track)) <= precisionSeconds)
    /\ (Qabs (Audio.currentTime a - (time - startPosition track)) <= precisionSeconds ->
        Audio.currentTime a' = Audio.currentTime a)
    /\ Audio.src a' = Audio.src a
    /\ Audio.playbackRate a' = Audio.playbackRate a
    /\ Audio.volume a' = Audio.volume a.
Proof.
  intros Hlen Hj.
  destruct (updatePosition_ok time autoCenter s Hlen) as (l' & Hrun & _ & Hin & _).
  destruct (Hin j track Hj) as (a & Ha & Ha').
  destruct (updatePosition_track_rest (negb (isPlaying s)) time track (durations s !! j) a)
    as (_ & Hrate & Hvol).
  eexists _, a, _. split; [exact Hrun|]. split; [apply moved_currentTime|].
  split; [exact Ha|]. split; [exact Ha'|].
  split; [apply updatePosition_track_muted|].
  split; [intros Hpos _; apply updatePosition_track_within, Hpos|].
  split; [|split; [apply updatePosition_track_src|split; assumption]].
  intros Hnear. rewrite updatePosition_track_currentTime.
  apply Qltb_ge in Hnear. rewrite Hnear. reflexivity.
Qed.

Lemma updatePosition_synchronises_witness :
  exists s' a a',
    updatePosition 7 false demo_playing = Ok tt s'
    /\ currentTime s' == 7
    /\ audios demo_playing !! 1%nat = Some a /\ audios s' !! 1%nat = Some a'
    /\ Audio.muted a' = isMuted (7 - startPosition trackB) trackB
    /\ (0 <= 7 - startPosition trackB ->
        (forall d, Audio.duration a = Some d -> 7 - startPosition trackB <= d) ->
        Qabs (Audio.currentTime a' - (7 - startPosition trackB)) <= precisionSeconds)
    /\ (Qabs (Audio.currentTime a - (7 - startPosition trackB)) <= precisionSeconds ->
        Audio.currentTime a' = Audio.currentTime a)
    /\ Audio.src a' = Audio.src a
    /\ Audio.playbackRate a' = Audio.playbackRate a
    /\ Audio.volume a' = Audio.volume a.
Proof.
  refine (updatePosition_synchronises 7 false demo_playing 1 trackB _ _).
  - vm_compute. lia.
  - vm_compute. reflexivity.
Defined.

(** With fewer audios than tracks the loop throws at the first track
    without one. *)
Lemma updatePosition_forEach_throws (isPaused : bool) (time : Q) (ts : list TrackOptions) :
  forall (index : nat) (s : MultiTrack),
    (index <= List.length (audios s) < index + List.length ts)%nat ->
    exists l', updatePosition_forEach isPaused time ts index s
               = Throw TypeError (with_audios (fun _ => l') s)
      /\ List.length l' = List.length (audios s).
Proof.
  induction ts as [|track ts IH]; intros index s Hlen; [simpl in Hlen; lia|].
  simpl. unfold bind at 1, get.
  destruct (audios s !! index) as [audio|] eqn:Ha.
  - apply lookup_lt_Some in Ha.
    set (s1 := with_audios
           <[index := updatePosition_track isPaused time track (durations s !! index) audio]> s).
    destruct (IH (S index) s1) as (l' & Hrun & Hl').
    { subst s1; simpl. rewrite length_insert. simpl in Hlen. lia. }
    exists l'. split.
    + unfold bind at 1, modify. fold s1. rewrite Hrun. reflexivity.
    + rewrite Hl'. subst s1; simpl. apply length_insert.
  - exists (audios s). split; [rewrite with_audios_id; reflexivity | reflexivity].
Qed.

(** X4.  Before the load has completed there is no audio yet: [setTime] and
    [seekTo] throw a [TypeError], after the global position has been written;
    [play()] does not throw, schedules its tick and starts nothing; and
    [setTrackStartPosition] changes nothing, whatever the track and value. *)
Theorem calls_before_load (tracks0 : list TrackOptions) (db : option bool)
    (time : Q) (index : nat) (value : Q) :
  let s := create tracks0 db in
  (exists s', setTime time s = Throw TypeError s'
     /\ currentTime s' == time /\ audios s' = [] /\ pendingFrames s' = [])
  /\ (exists s', seekTo time s = Throw TypeError s' /\ currentTime s' == 0)
  /\ (exists s', play s = Ok tt s'
     /\ audios s' = [] /\ pendingFrames s' = [1%nat] /\ currentTime s' = 0)
  /\ ((index <= List.length tracks0)%nat ->
      setTrackStartPosition index value s = Ok tt s
      /\ onDrag index value s = Ok tt s).
Proof.
  intros s.
  assert (Hthrow : forall t, exists l',
            updatePosition t false s = Throw TypeError (with_audios (fun _ => l') (moved t false s))
            /\ l' = []).
  { intros t.
    destruct (updatePosition_forEach_throws (negb (isPlaying s)) t (tracks s) 0 (moved t false s))
      as (l' & Hrun & Hl').
    { destruct (moved_fields t false s) as (_ & Ha & _). rewrite Ha.
      subst s; simpl. rewrite length_map, length_app. simpl. lia. }
    exists l'. split.
    - unfold updatePosition, bind at 1, get. unfold bind at 1.
      replace ((if negb (Qeqb t (currentTime s))
                then bind (modify (with_currentTime t))
                       (fun _ => render (UpdateCursor t (maxDuration s) false))
                else ret tt) s)
        with (Ok tt (moved t false s)).
      + exact Hrun.
      + unfold moved. destruct (negb (Qeqb t (currentTime s))); reflexivity.
    - destruct (moved_fields t false s) as (_ & Ha & _). rewrite Ha in Hl'.
      destruct l'; [reflexivity | discriminate]. }
  split; [|split; [|split]].
  - destruct (Hthrow time) as (l' & Hrun & ->).
    eexists. split.
    + unfold setTime, bind at 1, get. unfold bind. rewrite Hrun. reflexivity.
    + split; [apply (moved_currentTime time false s)|]. split; [reflexivity|].
      simpl. apply moved_fields.
  - destruct (Hthrow (time * maxDuration s)) as (l' & Hrun & ->).
    eexists. split.
    + unfold seekTo, bind at 1, get. unfold bind. rewrite Hrun. reflexivity.
    + change (currentTime (moved (time * maxDuration s) false s) == 0).
      rewrite moved_currentTime. subst s; simpl. ring.
  - destruct (play_forEach_run (findCurrentTracks (rescheduled s)) (rescheduled s))
      as (l2 & Hrun & Hl2 & _).
    destruct l2; [|discriminate].
    exists (with_audios (fun _ => []) (rescheduled s)). split; [|repeat split].
    unfold play, startSync. erewrite bind_ok by (apply onFrame_paused; reflexivity).
    unfold bind, get. exact Hrun.
  - intros Hi.
    assert (Ht : exists track, tracks s !! index = Some track).
    { apply lookup_lt_is_Some_2. subst s; simpl. rewrite length_map, length_app. simpl. lia. }
    destruct Ht as [track Ht].
    unfold setTrackStartPosition, onDrag, bind, get. rewrite Ht.
    destruct (negb (truthy_bool (draggable track))); split; reflexivity.
Qed.

Lemma Audio_ext (a b : Audio.t) :
  Audio.src a = Audio.src b -> Audio.duration a = Audio.duration b ->
  Audio.currentTime a = Audio.currentTime b -> Audio.paused a = Audio.paused b ->
  Audio.muted a = Audio.muted b -> Audio.playbackRate a = Audio.playbackRate b ->
  Audio.volume a = Audio.volume b -> Audio.calls a = Audio.calls b ->
  a = b.
Proof. destruct a, b; simpl; intros; subst; reflexivity. Qed.

(** Re-synchronising an audio that has just been synchronised at the same
    time changes nothing, when the play state wanted is the same. *)
Lemma updatePosition_track_stable isPaused isPaused1 time track duration a :
  isPaused1 || Qltb (time - startPosition track) 0
    || gt_undef (time - startPosition track) duration
  = isPaused || Qltb (time - startPosition track) 0
    || gt_undef (time - startPosition track) duration ->
  updatePosition_track isPaused1 time track duration
    (updatePosition_track isPaused time track duration a)
  = updatePosition_track isPaused time track duration a.
Proof.
  intros Hsame.
  set (a' := updatePosition_track isPaused time track duration a).
  destruct (updatePosition_track_rest isPaused1 time track duration a') as (Hd & Hr & Hv).
  assert (Hp : Audio.paused (updatePosition_track isPaused1 time track duration a')
               = Audio.paused a').
  { subst a'. rewrite !updatePosition_track_paused. exact Hsame. }
  apply Audio_ext; try assumption.
  - apply updatePosition_track_src.
  - rewrite updatePosition_track_currentTime.
    subst a'. rewrite updatePosition_track_currentTime.
    destruct (Qltb precisionSeconds
                (Qabs (Audio.currentTime a - (time - startPosition track)))) eqn:E.
    + destruct (Qltb precisionSeconds (Qabs (Qmax 0 _ - _))); reflexivity.
    + rewrite E. reflexivity.
  - subst a'. rewrite !updatePosition_track_muted. reflexivity.
  - rewrite updatePosition_track_calls. cbv zeta. rewrite Hp.
    rewrite eqb_reflx. apply app_nil_r.
Qed.

Lemma existsb_false_lookup {A} (f : A -> bool) (l : list A) (i : nat) (x : A) :
  existsb f l = false -> l !! i = Some x -> f x = false.
Proof.
  intros H Hx. apply lookup_In in Hx.
  destruct (f x) eqn:E; [|reflexivity].
  assert (Ht : existsb f l = true) by (apply existsb_exists; eauto). congruence.
Qed.

(** X5.  Applying the same position twice leaves what applying it once
    leaves: in a state with one audio per track, a second
    [updatePosition(time)] right after the first returns the very state the
    first left, so that no [play()] or [pause()] reaches any audio and no
    cursor update is made.  The second call does assign [audio.currentTime]
    again for a track that starts more than 0.3 s after the position: the
    first call has put its audio at 0, which is still more than 0.3 s from
    the negative local time, and the second call puts it at 0 once more. *)
Theorem updatePosition_idempotent (time : Q) (autoCenter autoCenter' : bool)
    (s : MultiTrack) :
  List.length (audios s) = List.length (tracks s) ->
  exists s', updatePosition time autoCenter s = Ok tt s'
    /\ updatePosition time autoCenter' s' = Ok tt s'
    /\ (forall j track a a',
          tracks s !! j = Some track ->
          audios s !! j = Some a -> audios s' !! j = Some a' ->
          time - startPosition track < - precisionSeconds ->
          0 <= Audio.currentTime a ->
          Audio.currentTime a' == 0
          /\ Qltb precisionSeconds
               (Qabs (Audio.currentTime a' - (time - startPosition track))) = true
          /\ Qmax 0 (time - startPosition track) == 0).
Proof.
  intros Hla.
  destruct (updatePosition_ok time autoCenter s) as (l' & Hrun & Hl' & Hin & _); [lia|].
  destruct (moved_fields time autoCenter s) as (Hmt & Hma & Hmd & _).
  set (s1 := with_audios (fun _ => l') (moved time autoCenter s)) in *.
  exists s1. split; [exact Hrun|].
  assert (Hseek : forall j track a a',
            tracks s !! j = Some track ->
            audios s !! j = Some a -> audios s1 !! j = Some a' ->
            time - startPosition track < - precisionSeconds ->
            0 <= Audio.currentTime a ->
            Audio.currentTime a' == 0
            /\ Qltb precisionSeconds
                 (Qabs (Audio.currentTime a' - (time - startPosition track))) = true
            /\ Qmax 0 (time - startPosition track) == 0).
  { intros j track a a' Hj Ha Ha' Hneg Hcur.
    destruct (Hin j track Hj) as (a0 & Ha0 & Ha0').
    rewrite Ha in Ha0. injection Ha0 as <-.
    change (audios s1) with l' in Ha'. rewrite Ha0' in Ha'. injection Ha' as <-.
    unfold precisionSeconds in *.
    assert (Hmax : Qmax 0 (time - startPosition track) == 0) by (apply Q.max_l; lra).
    assert (Hfar : Qltb (3 # 10) (Qabs (Audio.currentTime a - (time - startPosition track)))
                   = true).
    { apply Qltb_lt.
      pose proof (Qle_Qabs (Audio.currentTime a - (time - startPosition track))). lra. }
    assert (Hzero : Audio.currentTime
                      (updatePosition_track (negb (isPlaying s)) time track
                         (durations s !! j) a) == 0).
    { rewrite updatePosition_track_currentTime. unfold precisionSeconds.
      rewrite Hfar. exact Hmax. }
    split; [exact Hzero|]. split; [|exact Hmax].
    apply Qltb_lt.
    pose proof (Qle_Qabs (Audio.currentTime
                            (updatePosition_track (negb (isPlaying s)) time track
                               (durations s !! j) a) - (time - startPosition track))).
    lra. }
  split; [|exact Hseek].
  destruct (updatePosition_ok time autoCenter' s1) as (l'' & Hrun2 & Hl'' & Hin2 & _).
  { subst s1; simpl. rewrite Hmt, Hl'. lia. }
  assert (Hmoved : moved time autoCenter' s1 = s1).
  { unfold moved.
    replace (Qeqb time (currentTime s1)) with true; [reflexivity|].
    symmetry. apply Qeqb_eq. symmetry. apply (moved_currentTime time autoCenter s). }
  rewrite Hmoved in Hrun2. rewrite Hrun2. f_equal.
  replace l'' with l'; [apply (with_audios_id s1)|].
  apply list_eq. intros j.
  destruct (tracks s !! j) as [track|] eqn:Hj.
  - destruct (Hin j track Hj) as (a & Ha & Ha').
    destruct (Hin2 j track) as (a1 & Ha1 & Ha'').
    { subst s1; simpl. rewrite Hmt. exact Hj. }
    change (audios s1) with l' in Ha1. rewrite Ha' in Ha1. injection Ha1 as <-.
    change (durations s1) with (durations (moved time autoCenter s)) in Ha''.
    rewrite Hmd in Ha''. rewrite Ha', Ha''. f_equal. symmetry.
    apply updatePosition_track_stable.
    change (isPlaying s1) with (existsb (fun audio => negb (Audio.paused audio)) l').
    destruct (existsb (fun audio => negb (Audio.paused audio)) l') eqn:Hplay; simpl.
    + apply existsb_exists in Hplay as (b & Hb & Hpb).
      apply list_elem_of_In, list_elem_of_lookup in Hb as [k Hk].
      destruct (tracks s !! k) as [tk|] eqn:Htk.
      * destruct (Hin k tk Htk) as (ak & _ & Hk'). rewrite Hk in Hk'. injection Hk' as ->.
        rewrite updatePosition_track_paused in Hpb. apply negb_true_iff in Hpb.
        apply orb_false_iff in Hpb as [Hpb _]. apply orb_false_iff in Hpb as [Hpb _].
        rewrite Hpb. reflexivity.
      * apply lookup_ge_None in Htk. apply lookup_lt_Some in Hk. lia.
    + pose proof (existsb_false_lookup _ _ _ _ Hplay Ha') as Hpa.
      apply negb_false_iff in Hpa. rewrite updatePosition_track_paused in Hpa.
      symmetry. exact Hpa.
  - apply lookup_ge_None in Hj.
    rewrite (lookup_ge_None_2 l' j) by lia.
    rewrite (lookup_ge_None_2 l'' j); [reflexivity|].
    rewrite Hl''. change (audios s1) with l'. lia.
Qed.

Lemma updatePosition_idempotent_witness :
  exists s', updatePosition 1 false demo_playing = Ok tt s'
    /\ updatePosition 1 true s' = Ok tt s'
    /\ (forall j track a a',
          tracks demo_playing !! j = Some track ->
          audios demo_playing !! j = Some a -> audios s' !! j = Some a' ->
          1 - startPosition track < - precisionSeconds ->
          0 <= Audio.currentTime a ->
          Audio.currentTime a' == 0
          /\ Qltb precisionSeconds
               (Qabs (Audio.currentTime a' - (1 - startPosition track))) = true
          /\ Qmax 0 (1 - startPosition track) == 0).
Proof.
  refine (updatePosition_idempotent 1 false true demo_playing _). vm_compute. reflexivity.
Defined.

(** At position 1 track B, which starts at 5, has the local time -4: the
    seek test holds before the first call and before the second. *)
Example demo_seek_repeated :
  let s' := state_of (updatePosition 1 false demo_playing) in
  (Audio.currentTime <$> audios demo_playing !! 1%nat) = Some 0
  /\ Qltb precisionSeconds (Qabs (0 - (1 - 5))) = true
  /\ (Audio.currentTime <$> audios s' !! 1%nat) = Some 0
  /\ updatePosition 1 false s' = Ok tt s'.
Proof. vm_compute. repeat split; reflexivity. Qed.

(** ** Drag and set, replacement, rate *)

Lemma get_bind {B} (k : MultiTrack -> M B) (s : MultiTrack) : bind get k s = k s s.
Proof. reflexivity. Qed.

(** X6.  A drag is a set at the target [startPosition + delta * maxDuration]:
    for an index that has a track, [onDrag] returns what
    [setTrackStartPosition] returns for that value; for an index without a
    track both throw a [TypeError] and leave the state as it was. *)
Theorem onDrag_is_set_at_target (s : MultiTrack) (index : nat) (delta value : Q) :
  (forall track, tracks s !! index = Some track ->
     onDrag index delta s
     = setTrackStartPosition index (startPosition track + delta * maxDuration s) s)
  /\ (tracks s !! index = None ->
      onDrag index delta s = Throw TypeError s
      /\ setTrackStartPosition index value s = Throw TypeError s).
Proof.
  split.
  - intros track Ht. unfold onDrag, setTrackStartPosition. rewrite !get_bind, Ht.
    destruct (negb (truthy_bool (draggable track))); [reflexivity|].
    destruct (durations s !! index); reflexivity.
  - intros Ht. unfold onDrag, setTrackStartPosition. rewrite !get_bind, Ht.
    split; reflexivity.
Qed.

Lemma findIndex_from_None {A} (p : A -> bool) (l : list A) :
  forall k, findIndex_from p l k = None <-> forall x, In x l -> p x = false.
Proof.
  induction l as [|y l IH]; intros k; simpl.
  - split; [intros _ x [] | reflexivity].
  - destruct (p y) eqn:Hy.
    + split; [discriminate|]. intros H. rewrite (H y) in Hy by (left; reflexivity). discriminate.
    + rewrite IH. split.
      * intros H x [<-|Hx]; [exact Hy | exact (H x Hx)].
      * intros H x Hx. apply H. right. exact Hx.
Qed.

Lemma findIndex_from_first {A} (p : A -> bool) (l : list A) :
  forall k i, findIndex_from p l k = Some i ->
    (exists x, l !! (i - k)%nat = Some x /\ p x = true)
    /\ (forall j x, (j < i - k)%nat -> l !! j = Some x -> p x = false).
Proof.
  induction l as [|y l IH]; intros k i H; [discriminate|].
  simpl in H. destruct (p y) eqn:Hy.
  - injection H as <-. rewrite Nat.sub_diag. split; [exists y; auto|]. intros j x Hj. lia.
  - pose proof (findIndex_from_lt p l _ _ H) as Hlt.
    destruct (IH (S k) i H) as ((x & Hx & Hpx) & Hbefore).
    replace (i - k)%nat with (S (i - S k)) by lia. split; [exists x; auto|].
    intros [|j] z Hj Hz.
    + simpl in Hz. injection Hz as <-. exact Hy.
    + apply (Hbefore j z); [lia | exact Hz].
Qed.

(** X7.  [addTrack] with an id no track has changes nothing.  With an id
    some track has, it puts the new track in the place of the first track
    with that id: the other tracks, the number of tracks, the audios, the
    durations and [maxDuration] are as before (they follow once the new
    element has loaded). *)
Theorem addTrack_replaces_in_place (track : TrackOptions) (s : MultiTrack) :
  ((forall t, In t (tracks s) -> TrackId_eqb (id t) (id track) = false) ->
     addTrack track s = Ok None s)
  /\ ((exists t, In t (tracks s) /\ TrackId_eqb (id t) (id track) = true) ->
      exists index old,
        addTrack track s = Ok (Some index) (with_tracks <[index := track]> s)
        /\ tracks s !! index = Some old /\ TrackId_eqb (id old) (id track) = true
        /\ (forall j t, (j < index)%nat -> tracks s !! j = Some t ->
              TrackId_eqb (id t) (id track) = false)
        /\ <[index := track]> (tracks s) !! index = Some track
        /\ (forall j, j <> index -> <[index := track]> (tracks s) !! j = tracks s !! j)
        /\ List.length (<[index := track]> (tracks s)) = List.length (tracks s)).
Proof.
  split.
  - intros Hnone. unfold addTrack, bind, get.
    replace (findIndex (fun t => TrackId_eqb (id t) (id track)) (tracks s)) with (@None nat);
      [reflexivity|].
    symmetry. apply findIndex_from_None. exact Hnone.
  - intros Hsome.
    destruct (findIndex_from_complete (fun t => TrackId_eqb (id t) (id track)) (tracks s) Hsome 0)
      as [index Hi].
    destruct (findIndex_from_first _ _ _ _ Hi) as ((old & Hold & Hid) & Hbefore).
    rewrite Nat.sub_0_r in Hold, Hbefore.
    exists index, old. split; [|split; [exact Hold|split; [exact Hid|split; [|split; [|split]]]]].
    + unfold addTrack, bind at 1, get. unfold findIndex. rewrite Hi. reflexivity.
    + intros j t Hj Ht. exact (Hbefore j t Hj Ht).
    + apply list_lookup_insert_eq. eapply lookup_lt_Some, Hold.
    + intros j Hj. apply list_lookup_insert_ne. congruence.
    + apply length_insert.
Qed.


(** ** The clock's handles *)

Lemma rescheduled_clock_wf (s : MultiTrack) : clock_wf s -> clock_wf (rescheduled s).
Proof.
  intros (Hn & Hall & Hnd & Hfr). unfold clock_wf, rescheduled; simpl.
  split; [lia|]. split; [|split].
  - apply Forall_app. split.
    + eapply Forall_impl; [exact Hall|]. simpl. intros h Hh. lia.
    + constructor; [lia | constructor].
  - apply NoDup_app. split; [exact Hnd|]. split.
    + intros h Hh Hin. apply list_elem_of_In in Hh, Hin.
      destruct Hin as [<-|[]].
      rewrite List.Forall_forall in Hall. specialize (Hall _ Hh). lia.
    + apply NoDup_singleton.
  - intros h Hh. injection Hh as <-. lia.
Qed.

Lemma cancel_clock_wf (h : nat) (s : MultiTrack) :
  clock_wf s ->
  clock_wf (with_pendingFrames (List.filter (fun x => negb (x =? h)%nat)) s).
Proof.
  intros (Hn & Hall & Hnd & Hfr). unfold clock_wf; simpl.
  split; [exact Hn|]. split; [|split; [|exact Hfr]].
  - apply List.Forall_forall. intros x Hx. apply filter_In in Hx as [Hx _].
    rewrite List.Forall_forall in Hall. exact (Hall x Hx).
  - apply NoDup_ListNoDup, List.NoDup_filter, NoDup_ListNoDup, Hnd.
Qed.

Lemma updatePosition_clock (time : Q) (autoCenter : bool) :
  keeps clock_wf (updatePosition time autoCenter).
Proof.
  apply updatePosition_keeps. intros s l' H. unfold moved.
  destruct (negb (Qeqb time (currentTime s))); exact H.
Qed.

Lemma initDurations_clock (ds : list Q) : keeps clock_wf (initDurations ds).
Proof. apply initDurations_keeps. intros s ds' m l' r' H _. exact H. Qed.

Lemma onFrame_clock : keeps clock_wf onFrame.
Proof.
  unfold onFrame. apply keeps_get_bind'. intros s _.
  destruct (onFrame_reduce (currentTime s) (audios s) (tracks s) 0) as [position|];
    [|apply keeps_throw].
  apply keeps_bind; [apply keeps_if; [apply updatePosition_clock | apply keeps_ret]|intros _].
  intros s0 H0. rewrite rescheduled_run. apply rescheduled_clock_wf, H0.
Qed.

Lemma play_clock : keeps clock_wf play.
Proof.
  unfold play, startSync. apply keeps_bind; [apply onFrame_clock | intros _].
  apply keeps_get_bind'. intros s _.
  intros s0 H0. destruct (play_forEach_run (findCurrentTracks s) s0) as (l' & -> & _).
  exact H0.
Qed.

Lemma commit_clock (s : MultiTrack) (index : nat) (track : TrackOptions) (x : Q) :
  keeps clock_wf
    (modify (with_tracks <[index := set_startPosition x track]>) ;;
     initDurations (durations s) ;;
     render SetContainerOffsets ;;
     updatePosition (currentTime s) false ;;
     emit (EvStartPositionChange (id track) x)).
Proof.
  apply keeps_bind; [keeps_steps|intros _].
  apply keeps_bind; [apply initDurations_clock|intros _].
  apply keeps_bind; [unfold render; keeps_steps|intros _].
  apply keeps_bind; [apply updatePosition_clock|intros _].
  unfold emit. keeps_steps.
Qed.

Lemma create_then_clock loaded : keeps clock_wf (create_then loaded).
Proof.
  unfold create_then. apply keeps_bind; [|intros ds; apply keeps_bind].
  - unfold initAllAudios. apply keeps_get_bind'. intros s _.
    apply keeps_bind; [keeps_steps|intros _].
    apply keeps_get_bind'. intros s' _. destruct (initAllAudios_durations _); keeps_steps.
  - apply initDurations_clock.
  - intros _. unfold emit. keeps_steps.
Qed.

Lemma setTime_clock time : keeps clock_wf (setTime time).
Proof.
  unfold setTime. apply keeps_get_bind'. intros s _.
  apply keeps_bind; [apply updatePosition_clock|intros _].
  apply keeps_if; [apply play_clock | apply keeps_ret].
Qed.

Lemma seekTo_clock position : keeps clock_wf (seekTo position).
Proof.
  unfold seekTo. apply keeps_get_bind'. intros s _.
  apply keeps_bind; [apply updatePosition_clock|intros _].
  apply keeps_if; [apply play_clock | apply keeps_ret].
Qed.

Lemma addTrack_clock track : keeps clock_wf (addTrack track).
Proof.
  unfold addTrack. apply keeps_get_bind'. intros s _.
  destruct (findIndex _ (tracks s)); keeps_steps.
Qed.

Lemma addTrack_then_clock index track audio :
  keeps clock_wf (addTrack_then index track audio).
Proof.
  unfold addTrack_then. apply keeps_get_bind'. intros s _.
  destruct (array_set index audio (audios s)); [|apply keeps_throw].
  apply keeps_bind; [keeps_steps|intros _].
  destruct (match optDuration track with Some d => Some d | None => Audio.duration audio end);
    [|apply keeps_throw].
  destruct (array_set index _ (durations s)); [|apply keeps_throw].
  apply keeps_bind; [keeps_steps|intros _].
  apply keeps_bind; [apply initDurations_clock|intros _].
  unfold emit. keeps_steps.
Qed.

Lemma setTrackStartPosition_clock index value :
  keeps clock_wf (setTrackStartPosition index value).
Proof.
  unfold setTrackStartPosition. apply keeps_get_bind'. intros s _.
  destruct (tracks s !! index) as [track|]; [|apply keeps_throw].
  apply keeps_if; [apply keeps_ret|].
  destruct (durations s !! index) as [d|]; [|apply keeps_ret].
  apply keeps_if; [|apply keeps_ret]. apply commit_clock.
Qed.

Lemma onDrag_clock index delta : keeps clock_wf (onDrag index delta).
Proof.
  unfold onDrag. apply keeps_get_bind'. intros s _.
  destruct (tracks s !! index) as [track|]; [|apply keeps_throw].
  apply keeps_if; [apply keeps_ret|].
  destruct (durations s !! index) as [d|]; [|apply keeps_ret].
  apply keeps_if; [|apply keeps_ret]. apply commit_clock.
Qed.

Lemma animationFrame_clock h : keeps clock_wf (animationFrame h).
Proof.
  unfold animationFrame. apply keeps_get_bind'. intros s _.
  apply keeps_if; [|apply keeps_ret].
  apply keeps_bind; [|intros _; apply onFrame_clock].
  unfold cancelAnimationFrame. apply keeps_modify. apply cancel_clock_wf.
Qed.

Lemma destroy_clock : keeps clock_wf destroy.
Proof.
  unfold destroy. apply keeps_get_bind'. intros s _.
  apply keeps_bind; [|intros _; unfold render; keeps_steps].
  destruct (frameRequest s) as [h|]; [|apply keeps_ret].
  apply keeps_if; [apply keeps_ret|].
  unfold cancelAnimationFrame. apply keeps_modify. apply cancel_clock_wf.
Qed.

Lemma run_op_clock (s : MultiTrack) (o : Op) : clock_wf s -> clock_wf (run_op s o).
Proof.
  intros Hs. destruct o; simpl.
  - apply create_then_clock, Hs.
  - apply play_clock, Hs.
  - exact Hs.
  - apply setTime_clock, Hs.
  - apply seekTo_clock, Hs.
  - revert s Hs. change (keeps clock_wf (setAudioRate rate)).
    unfold setAudioRate. keeps_steps.
  - apply addTrack_clock, Hs.
  - apply addTrack_then_clock, Hs.
  - apply setTrackStartPosition_clock, Hs.
  - apply onDrag_clock, Hs.
  - apply animationFrame_clock, Hs.
  - exact Hs.
  - apply destroy_clock, Hs.
Qed.

Lemma create_clock_wf (tracks0 : list TrackOptions) (db : option bool) :
  clock_wf (create tracks0 db).
Proof.
  unfold clock_wf; simpl. split; [lia|]. split; [constructor|]. split; [constructor|].
  discriminate.
Qed.

(** X9.  Whatever operations run after construction, the handles of the
    clock stay in order: every pending handle and the one in [frameRequest]
    is positive and was given out before the next one, and no handle is
    pending twice.  So [destroy()]'s test [if (this.frameRequest)] never
    skips a handle, and a tick cancelled or run is not pending any more. *)
Theorem clock_handles_invariant (tracks0 : list TrackOptions) (db : option bool)
    (ops : list Op) :
  let s := run_ops ops (create tracks0 db) in
  clock_wf s
  /\ (forall h, frameRequest s = Some h -> h <> 0%nat)
  /\ (forall h, ~ In h (pendingFrames (state_of (animationFrame h s))))
  /\ (forall h, frameRequest s = Some h ->
        ~ In h (pendingFrames (state_of (destroy s)))).
Proof.
  intros s.
  assert (Hwf : clock_wf s).
  { subst s. generalize (create tracks0 db), (create_clock_wf tracks0 db).
    induction ops as [|o ops IH]; intros s0 H0; [exact H0|].
    simpl. apply IH, run_op_clock, H0. }
  split; [exact Hwf|]. split; [|split].
  - intros h Hh. destruct Hwf as (_ & _ & _ & Hfr). specialize (Hfr h Hh). lia.
  - intros h. unfold animationFrame. rewrite get_bind.
    destruct (existsb (fun x => (x =? h)%nat) (pendingFrames s)) eqn:Hex.
    + assert (Hc : clock_wf (with_pendingFrames (List.filter (fun x => negb (x =? h)%nat)) s))
        by (apply cancel_clock_wf, Hwf).
      erewrite bind_ok by reflexivity.
      set (s1 := with_pendingFrames (List.filter (fun x => negb (x =? h)%nat)) s) in *.
      assert (Hh : (h < nextFrame s1)%nat).
      { apply existsb_exists in Hex as (x & Hx & Hxh). apply Nat.eqb_eq in Hxh. subst x.
        destruct Hwf as (_ & Hall & _). rewrite List.Forall_forall in Hall.
        specialize (Hall h Hx). simpl. lia. }
      assert (Hnot : ~ In h (pendingFrames s1)) by (subst s1; simpl; apply filter_not_In).
      clearbody s1. clear Hex.
      assert (K : keeps (fun s' => ~ In h (pendingFrames s') /\ (h < nextFrame s')%nat) onFrame).
      { clear. unfold onFrame. apply keeps_get_bind'. intros s _.
        destruct (onFrame_reduce (currentTime s) (audios s) (tracks s) 0) as [position|];
          [|apply keeps_throw].
        apply keeps_bind; [apply keeps_if; [|apply keeps_ret]|intros _].
        - apply updatePosition_keeps. intros s0 l' H. unfold moved.
          destruct (negb (Qeqb position (currentTime s0))); exact H.
        - intros s0 [Hn Hl]. rewrite rescheduled_run. simpl. split; [|lia].
          intros Hin. apply in_app_or in Hin as [Hin|[Hin|[]]]; [contradiction | lia]. }
      apply (K s1). split; assumption.
    + simpl. intros Hin.
      assert (Ht : existsb (fun x => (x =? h)%nat) (pendingFrames s) = true).
      { apply existsb_exists. exists h. split; [exact Hin | apply Nat.eqb_refl]. }
      congruence.
  - intros h Hh. unfold destroy. rewrite get_bind, Hh.
    destruct (h =? 0)%nat eqn:Hz.
    + apply Nat.eqb_eq in Hz. destruct Hwf as (_ & _ & _ & Hfr). specialize (Hfr h Hh). lia.
    + simpl. apply filter_not_In.
Qed.

(** X10.  [destroy()] always returns.  It pauses every audio and empties
    its source, so the placeholder audio is no longer found by its url; of
    the pending ticks it cancels the one whose handle [frameRequest] holds
    and no other: the tick of a loop an earlier [play()] started stays
    pending. *)
Theorem destroy_cancels_one_tick (s : MultiTrack) :
  exists s', destroy s = Ok tt s'
    /\ (forall h, In h (pendingFrames s') <->
          In h (pendingFrames s) /\ (frameRequest s = Some h -> h = 0%nat))
    /\ Forall (fun a => Audio.paused a = true /\ Audio.src a = "") (audios s')
    /\ isPlaying s' = false
    /\ findIndex is_placeholder_audio (audios s') = None
    /\ tracks s' = tracks s /\ durations s' = durations s
    /\ maxDuration s' = maxDuration s /\ currentTime s' = currentTime s.
Proof.
  set (stop := fun audio => Audio.set_src "" (Audio.pause audio)).
  assert (Hstop : forall l, Forall (fun a => Audio.paused a = true /\ Audio.src a = "")
                              (List.map stop l)).
  { intros l. apply Forall_map, List.Forall_forall. intros a _. split; reflexivity. }
  assert (Hnone : forall l, findIndex is_placeholder_audio (List.map stop l) = None).
  { intros l. apply findIndex_from_None. intros a Ha.
    apply in_map_iff in Ha as (a0 & <- & _). reflexivity. }
  unfold destroy. rewrite get_bind. fold stop.
  destruct (frameRequest s) as [h|] eqn:Hf; [destruct (h =? 0)%nat eqn:Hz|].
  - apply Nat.eqb_eq in Hz. subst h.
    eexists. split; [reflexivity|]. simpl. split; [|split; [apply Hstop|split;
      [apply existsb_map_pause; reflexivity|split; [apply Hnone|repeat split]]]].
    intros h. split; [intros H; split; [exact H|congruence]|tauto].
  - apply Nat.eqb_neq in Hz.
    eexists. split; [reflexivity|]. simpl. split; [|split; [apply Hstop|split;
      [apply existsb_map_pause; reflexivity|split; [apply Hnone|repeat split]]]].
    intros h'. rewrite filter_In, negb_true_iff, Nat.eqb_neq. split.
    + intros [Hin Hne]. split; [exact Hin|]. intros Heq. injection Heq as ->. contradiction.
    + intros [Hin Himp]. split; [exact Hin|]. intros ->. specialize (Himp eq_refl). contradiction.
  - eexists. split; [reflexivity|]. simpl. split; [|split; [apply Hstop|split;
      [apply existsb_map_pause; reflexivity|split; [apply Hnone|repeat split]]]].
    intros h. split; [intros H; split; [exact H|discriminate]|tauto].
Qed.

(** ** The cue window *)

Lemma or_default_0 (c : Q) : or_default (Some c) 0 == c.
Proof.
  unfold or_default. destruct (Qeqb c 0) eqn:E; [|reflexivity].
  apply Qeqb_eq in E. symmetry. exact E.
Qed.

(** X11.  Muting is monotone in the cues: a point that is not muted stays
    not muted when the start cue is set to an earlier value (one at or
    below the present bound), and when an end cue that is not zero is set
    to a later value. *)
Theorem isMuted_monotone (newTime start' c end' : Q) (track : TrackOptions) :
  isMuted newTime track = false ->
  (start' <= or_default (startCue track) 0 ->
     isMuted newTime (set_startCue start' track) = false)
  /\ (endCue track = Some c -> ~ c == 0 -> c <= end' ->
     isMuted newTime (set_endCue end' track) = false).
Proof.
  unfold isMuted. intros H. apply orb_false_iff in H as [Hs He].
  apply Qltb_ge in Hs. split.
  - intros Hc. apply orb_false_iff. split; [|exact He].
    apply Qltb_ge. change (or_default (Some start') 0 <= newTime).
    pose proof (or_default_0 start'). lra.
  - intros Hend Hnz Hc. apply orb_false_iff. split; [apply Qltb_ge; exact Hs|].
    rewrite Hend in He. unfold or_Infinity in He.
    destruct (Qeqb c 0) eqn:E; [apply Qeqb_eq in E; contradiction|].
    simpl in He. apply Qltb_ge in He.
    change (gt_bound newTime (or_Infinity (Some end')) = false). unfold or_Infinity.
    destruct (Qeqb end' 0); [reflexivity|]. simpl. apply Qltb_ge. lra.
Qed.

Lemma isMuted_monotone_witness :
  isMuted 5 (set_startCue 1 (cue_track (Some 2) (Some 8))) = false
  /\ isMuted 5 (set_endCue 9 (cue_track (Some 2) (Some 8))) = false.
Proof.
  pose proof (isMuted_monotone 5 1 8 9 (cue_track (Some 2) (Some 8)) eq_refl) as [H1 H2].
  split.
  - apply H1. apply Qleb_le. reflexivity.
  - apply H2; [reflexivity | | apply Qleb_le; reflexivity].
    intros H. apply Qeqb_eq in H. discriminate.
Defined.

(** ** [findCurrentTracks] *)

Lemma findCurrentTracks_forEach_iff (s : MultiTrack) (ts : list TrackOptions) :
  forall index z,
    In z (findCurrentTracks_forEach s ts index) <->
    exists j track, ts !! j = Some track /\ z = Z.of_nat (index + j)
      /\ is_current s (index + j) track = true.
Proof.
  induction ts as [|t ts IH]; intros index z.
  - simpl. split; [intros [] | intros (j & track & H & _); discriminate].
  - change (findCurrentTracks_forEach s (t :: ts) index)
      with ((if is_current s index t then [Z.of_nat index] else [])
            ++ findCurrentTracks_forEach s ts (S index)).
    rewrite in_app_iff, IH. split.
    + intros [H|(j & track & Hj & -> & Hc)].
      * destruct (is_current s index t) eqn:Hc; [|destruct H]. destruct H as [<-|[]].
        exists 0%nat, t. rewrite Nat.add_0_r. auto.
      * exists (S j), track. replace (index + S j)%nat with (S index + j)%nat by lia. auto.
    + intros ([|j] & track & Hj & -> & Hc).
      * simpl in Hj. injection Hj as <-. rewrite Nat.add_0_r in *. left.
        rewrite Hc. left. reflexivity.
      * right. exists j, track. replace (S index + j)%nat with (index + S j)%nat by lia. auto.
Qed.

Lemma Math_min_le (l : list Q) (m : Q) :
  Math_min l = Some m -> forall x, In x l -> m <= x.
Proof.
  revert m. induction l as [|y l IH]; intros m H x Hx; [destruct Hx|].
  simpl in H. destruct (Math_min l) as [m'|] eqn:Hm.
  - injection H as <-. destruct Hx as [<-|Hx].
    + apply Q.le_min_l.
    + eapply Qle_trans; [apply Q.le_min_r | exact (IH m' eq_refl x Hx)].
  - injection H as <-. destruct l; [|simpl in Hm; destruct (Math_min l); discriminate].
    destruct Hx as [<-|[]]. apply Qle_refl.
Qed.

(** X12.  [findCurrentTracks] never returns an empty list.  When some track
    with a source contains the global position ([startPosition <=
    currentTime < startPosition + duration]) it returns exactly the indexes
    of those tracks.  Otherwise it returns one index: -1 when no track has
    a url, and else that of a track that starts no later than any track
    with a url. *)
Theorem findCurrentTracks_spec (s : MultiTrack) :
  findCurrentTracks s <> []
  /\ ((exists i track, tracks s !! i = Some track /\ is_current s i track = true) ->
      forall z, In z (findCurrentTracks s) <->
        exists i track, z = Z.of_nat i /\ tracks s !! i = Some track
          /\ is_current s i track = true)
  /\ ((forall i track, tracks s !! i = Some track -> is_current s i track = false) ->
      (findCurrentTracks s = [(-1)%Z]
       /\ forall t, In t (tracks s) -> truthy_str (url t) = false)
      \/ (exists i track, findCurrentTracks s = [Z.of_nat i]
            /\ tracks s !! i = Some track
            /\ forall t, In t (tracks s) -> truthy_str (url t) = true ->
                 startPosition track <= startPosition t)).
Proof.
  pose proof (findCurrentTracks_forEach_iff s (tracks s) 0) as Hscan.
  unfold findCurrentTracks.
  destruct (findCurrentTracks_forEach s (tracks s) 0) as [|z0 rest] eqn:E.
  - split; [discriminate|]. split.
    + intros (i & track & Hi & Hc). exfalso.
      apply (proj2 (Hscan (Z.of_nat i))). exists i, track. auto.
    + intros _.
      destruct (List.filter (fun t => truthy_str (url t)) (tracks s)) as [|u us] eqn:Hf.
      * left. split; [reflexivity|]. intros t Ht.
        destruct (truthy_str (url t)) eqn:Hu; [|reflexivity].
        assert (Hin : In t (List.filter (fun t => truthy_str (url t)) (tracks s)))
          by (apply filter_In; auto).
        rewrite Hf in Hin. destruct Hin.
      * right.
        destruct (Math_min_attained (List.map startPosition (u :: us)))
          as (m & x & Hm & Hx & Hxm); [discriminate|].
        rewrite Hm. apply in_map_iff in Hx as (tx & <- & Htx).
        rewrite <- Hf in Htx. apply filter_In in Htx as [Htx _].
        destruct (findIndex_from_complete (fun track => Qeqb (startPosition track) m)
                    (tracks s)) with (k := 0%nat) as [i Hi].
        { exists tx. split; [exact Htx | apply Qeqb_eq, Hxm]. }
        destruct (findIndex_from_first _ _ _ _ Hi) as ((track & Htrack & Heq) & _).
        rewrite Nat.sub_0_r in Htrack. apply Qeqb_eq in Heq.
        exists i, track. unfold findIndex. rewrite Hi.
        split; [reflexivity|]. split; [exact Htrack|].
        intros t Ht Hu. rewrite Heq. apply (Math_min_le _ _ Hm).
        apply in_map. rewrite <- Hf. apply filter_In. auto.
  - split; [discriminate|]. split.
    + intros _ z. rewrite Hscan. split.
      * intros (j & track & Hj & -> & Hc). exists j, track. auto.
      * intros (i & track & -> & Hi & Hc). exists i, track. auto.
    + intros Hnone. exfalso.
      destruct (proj1 (Hscan z0)) as (j & track & Hj & _ & Hc); [left; reflexivity|].
      simpl in Hc. rewrite (Hnone j track Hj) in Hc. discriminate.
Qed.

(** * The rendering *)

Lemma setContainerOffsets_forEach_done (tracks0 : list TrackOptions) (px : Q) (ds : list Q)
    (cs : list Rendering.container) :
  forall i, (i + List.length cs <= List.length tracks0)%nat ->
    exists cs', Rendering.setContainerOffsets_forEach tracks0 px ds cs i = Rendering.Done cs'
      /\ List.length cs' = List.length cs
      /\ forall k c, cs !! k = Some c ->
           exists track, tracks0 !! (i + k)%nat = Some track
             /\ cs' !! k = Some (Rendering.mkContainer
                   (match ds !! (i + k)%nat with
                    | Some d => if Qeqb d 0 then Rendering.width c else Some (d * px)
                    | None => Rendering.width c
                    end)
                   (startPosition track * px)).
Proof.
  induction cs as [|c cs IH]; intros i Hlen.
  - exists []. repeat split. intros k c Hk. discriminate.
  - simpl in Hlen.
    destruct (lookup_lt_is_Some_2 tracks0 i) as [track Ht]; [lia|].
    destruct (IH (S i)) as (cs' & Hrun & Hl & Hin); [lia|].
    eexists. simpl. rewrite Ht, Hrun. split; [reflexivity|]. split; [simpl; congruence|].
    intros [|k] c0 Hk.
    + simpl in Hk. injection Hk as <-. rewrite Nat.add_0_r. exists track. auto.
    + simpl in Hk. destruct (Hin k c0 Hk) as (tk & Htk & Hck).
      replace (i + S k)%nat with (S i + k)%nat by lia. exists tk. auto.
Qed.

(** A second pass over the containers forgets the first. *)
Lemma setContainerOffsets_forEach_absorb (tracks0 : list TrackOptions) (px px' : Q)
    (ds : list Q) (cs : list Rendering.container) :
  forall i cs1,
    Rendering.setContainerOffsets_forEach tracks0 px ds cs i = Rendering.Done cs1 ->
    Rendering.setContainerOffsets_forEach tracks0 px' ds cs1 i
    = Rendering.setContainerOffsets_forEach tracks0 px' ds cs i.
Proof.
  induction cs as [|c cs IH]; intros i cs1 H; simpl in H.
  - injection H as <-. reflexivity.
  - destruct (tracks0 !! i) as [track|] eqn:Ht; [|discriminate].
    destruct (Rendering.setContainerOffsets_forEach tracks0 px ds cs (S i)) as [cs'| |] eqn:E;
      try discriminate.
    injection H as <-. simpl. rewrite Ht, (IH (S i) cs' E).
    destruct (Rendering.setContainerOffsets_forEach tracks0 px' ds cs (S i)); try reflexivity.
    do 2 f_equal. destruct (ds !! i) as [d|]; [|reflexivity].
    destruct (Qeqb d 0); reflexivity.
Qed.

Lemma Qdiv_nonneg (x y : Q) : 0 <= x -> 0 < y -> 0 <= x / y.
Proof.
  intros Hx Hy. unfold Qdiv. apply Qmult_le_0_compat; [exact Hx|].
  apply Qlt_le_weak, Qinv_lt_0_compat, Hy.
Qed.

Lemma Qdiv_mult_cancel (x y : Q) : 0 < y -> x / y * y == x.
Proof. intros Hy. field. intros H. rewrite H in Hy. exact (Qlt_irrefl _ Hy). Qed.

(** The width of the timeline: the zoom's, and never less than the
    wrapper's own. *)
Lemma mainWidth_formula (a cw m : Q) :
  0 < m -> Qmax a (cw / m) * m == Qmax (a * m) cw.
Proof.
  intros Hm. pose proof (Qdiv_mult_cancel cw m Hm) as Hc.
  destruct (Q.max_spec a (cw / m)) as [[Hlt ->]|[Hle ->]].
  - rewrite Hc. symmetry. apply Q.max_r. rewrite <- Hc.
    apply Qmult_le_compat_r; [apply Qlt_le_weak, Hlt | apply Qlt_le_weak, Hm].
  - symmetry. apply Q.max_l. rewrite <- Hc.
    apply Qmult_le_compat_r; [exact Hle | apply Qlt_le_weak, Hm].
Qed.

(** X13.  [setMainWidth(durations, maxDuration)] with a positive
    [maxDuration] and a container per track: the scale is the larger of
    [minPxPerSec] and the one that fits the wrapper, the timeline is as wide
    as the larger of [minPxPerSec * maxDuration] and the wrapper, and the
    container of every track that has a duration and ends by [maxDuration]
    is translated to [startPosition * pxPerSec] and ends inside the
    timeline. *)
Theorem setMainWidth_layout (ds : list Q) (m : Q) (tracks0 : list TrackOptions)
    (r : Rendering.t) :
  0 < m -> 0 <= Rendering.clientWidth r ->
  (List.length (Rendering.containers r) <= List.length tracks0)%nat ->
  exists r', Rendering.setMainWidth ds m tracks0 r = Rendering.Done r'
    /\ Rendering.pxPerSec r'
       = Qmax (or_default (Rendering.minPxPerSec r) 0) (Rendering.clientWidth r / m)
    /\ Rendering.mainWidth r'
       == Qmax (or_default (Rendering.minPxPerSec r) 0 * m) (Rendering.clientWidth r)
    /\ Rendering.wrapperWidth r' = Rendering.mainWidth r'
    /\ Rendering.durations r' = ds
    /\ List.length (Rendering.containers r') = List.length (Rendering.containers r)
    /\ (forall k c' track d,
          Rendering.containers r' !! k = Some c' ->
          tracks0 !! k = Some track -> ds !! k = Some d -> ~ d == 0 ->
          startPosition track + d <= m ->
          Rendering.translateX c' = startPosition track * Rendering.pxPerSec r'
          /\ Rendering.width c' = Some (d * Rendering.pxPerSec r')
          /\ Rendering.translateX c' + d * Rendering.pxPerSec r' <= Rendering.mainWidth r').
Proof.
  intros Hm Hcw Hlen.
  set (px := Qmax (or_default (Rendering.minPxPerSec r) 0) (Rendering.clientWidth r / m)).
  destruct (setContainerOffsets_forEach_done tracks0 px ds (Rendering.containers r) 0)
    as (cs' & Hrun & Hl & Hin); [simpl; lia|].
  assert (Hpx : 0 <= px).
  { eapply Qle_trans; [apply (Qdiv_nonneg _ _ Hcw Hm) | apply Q.le_max_r]. }
  eexists. split.
  - unfold Rendering.setMainWidth.
    replace (Qeqb m 0) with false.
    + cbv zeta. unfold Rendering.setContainerOffsets. simpl. fold px. rewrite Hrun. reflexivity.
    + symmetry. apply Qeqb_neq. intros H. rewrite H in Hm. exact (Qlt_irrefl _ Hm).
  - simpl. split; [reflexivity|]. split; [apply mainWidth_formula, Hm|].
    split; [reflexivity|]. split; [reflexivity|]. split; [exact Hl|].
    intros k c' track d Hc' Ht Hd Hnz Hend.
    destruct (lookup_lt_is_Some_2 (Rendering.containers r) k) as [c Hc].
    { rewrite <- Hl. eapply lookup_lt_Some, Hc'. }
    destruct (Hin k c Hc) as (track' & Ht' & Hk). simpl in Ht', Hk.
    rewrite Ht in Ht'. injection Ht' as <-. rewrite Hd in Hk.
    apply Qeqb_neq in Hnz. rewrite Hnz in Hk. rewrite Hc' in Hk. injection Hk as ->.
    simpl. fold px. split; [reflexivity|]. split; [reflexivity|].
    assert (He : startPosition track * px + d * px == (startPosition track + d) * px)
      by ring.
    rewrite He. apply Qle_trans with (m * px).
    + apply Qmult_le_compat_r; assumption.
    + rewrite (Qmult_comm m px). apply Qle_refl.
Qed.

Lemma setMainWidth_layout_witness :
  exists r', Rendering.setMainWidth (durations demo) 15 (tracks demo)
               (Rendering.init (tracks demo) 600 None) = Rendering.Done r'
    /\ Rendering.pxPerSec r'
       = Qmax (or_default (Rendering.minPxPerSec (Rendering.init (tracks demo) 600 None)) 0)
           (Rendering.clientWidth (Rendering.init (tracks demo) 600 None) / 15)
    /\ Rendering.mainWidth r'
       == Qmax (or_default (Rendering.minPxPerSec (Rendering.init (tracks demo) 600 None)) 0
                * 15)
            (Rendering.clientWidth (Rendering.init (tracks demo) 600 None))
    /\ Rendering.wrapperWidth r' = Rendering.mainWidth r'
    /\ Rendering.durations r' = durations demo
    /\ List.length (Rendering.containers r')
       = List.length (Rendering.containers (Rendering.init (tracks demo) 600 None))
    /\ (forall k c' track d,
          Rendering.containers r' !! k = Some c' ->
          tracks demo !! k = Some track -> durations demo !! k = Some d -> ~ d == 0 ->
          startPosition track + d <= 15 ->
          Rendering.translateX c' = startPosition track * Rendering.pxPerSec r'
          /\ Rendering.width c' = Some (d * Rendering.pxPerSec r')
          /\ Rendering.translateX c' + d * Rendering.pxPerSec r' <= Rendering.mainWidth r').
Proof.
  refine (setMainWidth_layout (durations demo) 15 (tracks demo)
            (Rendering.init (tracks demo) 600 None) _ _ _).
  - reflexivity.
  - apply Qleb_le. reflexivity.
  - vm_compute. lia.
Defined.

(** The timeline of [demo] in a wrapper of 600 pixels: 40 pixels a second;
    B starts 200 pixels in and is 400 wide. *)
Example demo_layout :
  match Rendering.setMainWidth (durations demo) (maxDuration demo) (tracks demo)
          (Rendering.init (tracks demo) 600 None) with
  | Rendering.Done r' =>
      Rendering.pxPerSec r' == 40 /\ Rendering.mainWidth r' == 600
      /\ List.map (fun c => Qred (Rendering.translateX c)) (Rendering.containers r')
         = [0; 200; 0]
      /\ List.map (fun c => option_map Qred (Rendering.width c)) (Rendering.containers r')
         = [Some 400; Some 400; Some 600]
  | _ => False
  end.
Proof. vm_compute. repeat split; reflexivity. Qed.

Lemma setMainWidth_run (ds : list Q) (m : Q) (tracks0 : list TrackOptions)
    (r : Rendering.t) (cs : list Rendering.container) :
  Qeqb m 0 = false ->
  Rendering.setContainerOffsets_forEach tracks0
    (Qmax (or_default (Rendering.minPxPerSec r) 0) (Rendering.clientWidth r / m))
    ds (Rendering.containers r) 0 = Rendering.Done cs ->
  Rendering.setMainWidth ds m tracks0 r
  = Rendering.Done
      (Rendering.mk
         (Qmax (or_default (Rendering.minPxPerSec r) 0) (Rendering.clientWidth r / m))
         ds
         (Qmax (or_default (Rendering.minPxPerSec r) 0) (Rendering.clientWidth r / m) * m)
         (Rendering.clientWidth r) (Rendering.minPxPerSec r)
         (Qmax (or_default (Rendering.minPxPerSec r) 0) (Rendering.clientWidth r / m) * m)
         cs).
Proof.
  intros Hm H. unfold Rendering.setMainWidth. rewrite Hm. cbv zeta.
  unfold Rendering.setContainerOffsets.
  cbn [Rendering.pxPerSec Rendering.durations Rendering.containers Rendering.clientWidth
       Rendering.minPxPerSec Rendering.mainWidth Rendering.wrapperWidth].
  rewrite H. reflexivity.
Qed.

(** The redrawing reads the rendering only through the wrapper's width and
    what a pass over the containers makes of them. *)
Lemma zoom_ext (p : Q) (s : MultiTrack) (r r' : Rendering.t) :
  Rendering.clientWidth r' = Rendering.clientWidth r ->
  (forall px, Rendering.setContainerOffsets_forEach (tracks s) px (durations s)
                (Rendering.containers r') 0
              = Rendering.setContainerOffsets_forEach (tracks s) px (durations s)
                  (Rendering.containers r) 0) ->
  zoom_redraw p s r' = zoom_redraw p s r.
Proof.
  intros Hcw Hcs. unfold zoom_redraw, Rendering.setMainWidth.
  destruct (Qeqb (maxDuration s) 0); [reflexivity|]. cbv zeta.
  unfold Rendering.setContainerOffsets.
  cbn [Rendering.pxPerSec Rendering.durations Rendering.containers Rendering.clientWidth
       Rendering.minPxPerSec Rendering.mainWidth Rendering.wrapperWidth].
  rewrite Hcw, Hcs. reflexivity.
Qed.

(** The loop over the wavesurfers passes when there is a track for each and
    the [zoom] of each returns. *)
Lemma zoom_forEach_passes (wavesurfers : list bool) (ts : list TrackOptions) :
  forall index,
    (index + List.length wavesurfers <= List.length ts)%nat ->
    Forall (fun returns => returns = true) wavesurfers ->
    zoom_forEach wavesurfers ts index = None.
Proof.
  induction wavesurfers as [|w ws IH]; intros index Hlen Hall; [reflexivity|].
  simpl in *. inversion Hall as [|? ? Hw Hws]; subst.
  destruct (lookup_lt_is_Some_2 ts index) as [t Ht]; [lia|].
  rewrite Ht, andb_false_r. apply IH; [lia | exact Hws].
Qed.

(** X14.  [zoom(p)] on a timeline of positive length.  [options.minPxPerSec]
    is written first.  When the [zoom] of a wavesurfer then throws (its
    audio is not decoded yet), [zoom(p)] throws with nothing redrawn: the
    scale, the widths and the containers are as before, only the option has
    changed.  When the loop passes, as it does when there is a track for
    every wavesurfer and each [zoom] returns, the scale becomes the larger
    of [p] and the one that fits the wrapper, so the timeline is
    [p * maxDuration] wide or, when that is less, as wide as the wrapper;
    and a zoom forgets the zooms before it: [zoom(q)] after [zoom(p)] leaves
    what [zoom(q)] alone leaves. *)
Theorem zoom_last_wins (p q : Q) (wavesurfers : list bool) (s : MultiTrack)
    (r : Rendering.t) :
  0 < maxDuration s -> 0 <= Rendering.clientWidth r ->
  (List.length (Rendering.containers r) <= List.length (tracks s))%nat ->
  (forall e, zoom_forEach wavesurfers (tracks s) 0 = Some e ->
     exists r0, zoom p wavesurfers s r = ZoomThrows e r0
       /\ Rendering.minPxPerSec r0 = Some p
       /\ Rendering.pxPerSec r0 = Rendering.pxPerSec r
       /\ Rendering.mainWidth r0 = Rendering.mainWidth r
       /\ Rendering.wrapperWidth r0 = Rendering.wrapperWidth r
       /\ Rendering.containers r0 = Rendering.containers r)
  /\ (zoom_forEach wavesurfers (tracks s) 0 = None ->
      exists r1, zoom p wavesurfers s r = ZoomRedrawn (Rendering.Done r1)
        /\ Rendering.pxPerSec r1
           = Qmax (or_default (Some p) 0) (Rendering.clientWidth r / maxDuration s)
        /\ Rendering.mainWidth r1 == Qmax (p * maxDuration s) (Rendering.clientWidth r)
        /\ Rendering.clientWidth r <= Rendering.mainWidth r1
        /\ Rendering.minPxPerSec r1 = Some p
        /\ zoom q wavesurfers s r1 = zoom q wavesurfers s r)
  /\ ((List.length wavesurfers <= List.length (tracks s))%nat ->
      Forall (fun returns => returns = true) wavesurfers ->
      zoom_forEach wavesurfers (tracks s) 0 = None).
Proof.
  intros Hm Hcw Hlen. split; [|split].
  - intros e He. unfold zoom. rewrite He. eexists. split; [reflexivity|].
    repeat split; reflexivity.
  - intros Hpass.
    set (px := Qmax (or_default (Some p) 0) (Rendering.clientWidth r / maxDuration s)).
    destruct (setContainerOffsets_forEach_done (tracks s) px (durations s)
                (Rendering.containers r) 0) as (cs1 & Hrun & Hl & _); [simpl; lia|].
    pose proof (setContainerOffsets_forEach_absorb _ px px _ _ _ _ Hrun) as Hagain.
    rewrite Hrun in Hagain.
    assert (Hnz : Qeqb (maxDuration s) 0 = false).
    { apply Qeqb_neq. intros H. rewrite H in Hm. exact (Qlt_irrefl _ Hm). }
    assert (Hw : px * maxDuration s == Qmax (p * maxDuration s) (Rendering.clientWidth r)).
    { subst px. rewrite mainWidth_formula by exact Hm.
      apply Q.max_compat; [|reflexivity]. rewrite or_default_0. reflexivity. }
    exists (Rendering.mk px (durations s) (px * maxDuration s) (Rendering.clientWidth r)
              (Some p) (px * maxDuration s) cs1).
    split; [|split; [reflexivity|split; [exact Hw|split; [|split; [reflexivity|]]]]].
    + unfold zoom. rewrite Hpass. f_equal.
      unfold zoom_redraw. erewrite setMainWidth_run by (try exact Hnz; exact Hrun).
      unfold Rendering.setContainerOffsets.
      cbn [Rendering.pxPerSec Rendering.durations Rendering.containers Rendering.clientWidth
           Rendering.minPxPerSec Rendering.mainWidth Rendering.wrapperWidth].
      fold px. rewrite Hagain. reflexivity.
    + simpl. rewrite Hw. apply Q.le_max_r.
    + unfold zoom. rewrite Hpass. f_equal.
      apply zoom_ext; [reflexivity|]. intros px'.
      apply (setContainerOffsets_forEach_absorb _ px px' _ _ _ _ Hrun).
  - intros Hws Hall. apply zoom_forEach_passes; [simpl; exact Hws | exact Hall].
Qed.

Lemma zoom_last_wins_witness :
  (exists r0, zoom 100 [true; false; true] demo (Rendering.init (tracks demo) 600 None)
              = ZoomThrows ZoomWaveSurferError r0
     /\ Rendering.minPxPerSec r0 = Some 100
     /\ Rendering.pxPerSec r0 = 0)
  /\ (exists r1, zoom 100 [true; true; true] demo (Rendering.init (tracks demo) 600 None)
                = ZoomRedrawn (Rendering.Done r1)
     /\ Rendering.mainWidth r1
        == Qmax (100 * maxDuration demo)
             (Rendering.clientWidth (Rendering.init (tracks demo) 600 None))
     /\ zoom 10 [true; true; true] demo r1
        = zoom 10 [true; true; true] demo (Rendering.init (tracks demo) 600 None)).
Proof.
  assert (H1 : 0 < maxDuration demo) by (apply Qltb_lt; vm_compute; reflexivity).
  assert (H2 : 0 <= Rendering.clientWidth (Rendering.init (tracks demo) 600 None))
    by (apply Qleb_le; reflexivity).
  assert (H3 : (List.length (Rendering.containers (Rendering.init (tracks demo) 600 None))
                <= List.length (tracks demo))%nat) by (vm_compute; lia).
  split.
  - destruct (zoom_last_wins 100 10 [true; false; true] demo
                (Rendering.init (tracks demo) 600 None) H1 H2 H3) as [Hthrow _].
    destruct (Hthrow ZoomWaveSurferError) as (r0 & Hrun & Hmin & Hpx & _).
    + vm_compute. reflexivity.
    + exists r0. split; [exact Hrun|]. split; [exact Hmin|]. rewrite Hpx. reflexivity.
  - destruct (zoom_last_wins 100 10 [true; true; true] demo
                (Rendering.init (tracks demo) 600 None) H1 H2 H3) as (_ & Hpass & _).
    destruct Hpass as (r1 & Hrun & _ & Hw & _ & _ & Hlast).
    + vm_compute. reflexivity.
    + exists r1. split; [exact Hrun|]. split; [exact Hw | exact Hlast].
Defined.

(** ** Dragging by pixels *)

Lemma Qpos_neq_0 (x : Q) : 0 < x -> ~ x == 0.
Proof. intros H E. rewrite E in H. exact (Qlt_irrefl _ H). Qed.

(** On a timeline no track reaches beyond, a committed move returns and
    leaves the timeline as long as it was; the rendering is told the new
    widths, then the offsets. *)
Lemma commit_settled (s : MultiTrack) (index : nat) (track : TrackOptions) (d x : Q) :
  timeline_state s ->
  Forall (fun e => e <= maxDuration s) (track_ends s) ->
  0 <= maxDuration s ->
  tracks s !! index = Some track -> truthy_bool (draggable track) = true ->
  durations s !! index = Some d ->
  x <= maxDuration s - d ->
  exists s',
    (modify (with_tracks <[index := set_startPosition x track]>) ;;
     initDurations (durations s) ;;
     render SetContainerOffsets ;;
     updatePosition (currentTime s) false ;;
     emit (EvStartPositionChange (id track) x)) s = Ok tt s'
    /\ tracks s' = <[index := set_startPosition x track]> (tracks s)
    /\ maxDuration s' == maxDuration s
    /\ rendered s'
       = rendered s ++ [SetMainWidth (durations s') (maxDuration s'); SetContainerOffsets].
Proof.
  intros (Hal & p & Hp & dp & Hdp & Hdpm) Hends HM Ht Hdrag Hd Hhi.
  destruct (commit_ok s p index track x Hal Hp Ht Hdrag)
    as (m & l' & Hok & _ & _ & Hge & _ & _).
  exists (commit_done p m l' index x track s).
  split; [exact Hok|]. split; [reflexivity|]. split.
  - change (m == maxDuration s). apply Qle_antisym.
    + pose proof (commit_reduce s _ index track x Hok) as Hred.
      apply maxDuration_reduce_is_maximum in Hred. rewrite drop_0 in Hred.
      change (maxDuration (commit_done p m l' index x track s)) with m in Hred.
      change (tracks (commit_done p m l' index x track s))
        with (<[index := set_startPosition x track]> (tracks s)) in Hred.
      destruct Hred as [Hex _].
      apply stdpp.list_relations.list.Exists_exists in Hex as (e & He & Hem).
      rewrite <- Hem. apply elem_of_cons in He as [->|He]; [exact HM|].
      apply list_elem_of_lookup in He as [j Hj].
      apply lookup_zip_with_Some in Hj as (t & dj & -> & Htj & Hdj).
      destruct (decide (j = index)) as [->|Hne].
      * rewrite list_lookup_insert_eq in Htj by (eapply lookup_lt_Some, Ht).
        injection Htj as <-. rewrite Hd in Hdj. injection Hdj as <-. simpl. lra.
      * rewrite list_lookup_insert_ne in Htj by congruence.
        apply (Forall_lookup_1 _ _ j _ Hends).
        apply lookup_zip_with_Some. exists t, dj. auto.
    + rewrite <- Hdpm. exact (Hge dp Hdp).
  - unfold commit_done, initDurations_done; simpl. rewrite <- app_assoc. reflexivity.
Qed.

(** X15.  The track follows the pointer.  On a timeline no track reaches
    beyond, drawn at the scale [setMainWidth] gives it, with the parent as
    wide as the timeline ([pxPerSec * maxDuration]), a drag of [dx] pixels
    on a draggable track asks for the start [startPosition + dx / pxPerSec].
    When that passes the bounds test the track starts there, the timeline
    keeps its length, and the rendering is called as the code calls it:
    [setMainWidth] with the new durations, which keeps the scale, then
    [setContainerOffsets]; the container is then exactly [dx] pixels
    further.  When the test fails, and when the parent has no width,
    nothing changes. *)
Theorem drag_follows_pointer (s : MultiTrack) (r : Rendering.t) (overallWidth dx : Q)
    (index : nat) (track : TrackOptions) (d : Q) :
  timeline_state s ->
  Forall (fun e => e <= maxDuration s) (track_ends s) ->
  tracks s !! index = Some track ->
  truthy_bool (draggable track) = true ->
  durations s !! index = Some d ->
  0 < maxDuration s -> 0 < Rendering.pxPerSec r ->
  Rendering.pxPerSec r
    == Qmax (or_default (Rendering.minPxPerSec r) 0)
         (Rendering.clientWidth r / maxDuration s) ->
  overallWidth == Rendering.pxPerSec r * maxDuration s ->
  (List.length (Rendering.containers r) <= List.length (tracks s))%nat ->
  (index < List.length (Rendering.containers r))%nat ->
  let target := startPosition track + dx / Rendering.pxPerSec r in
  let minStart := if truthy_bool (dragBounds s) then 0 else - d - 1 in
  let maxStart := maxDuration s - d in
  (minStart <= target /\ target <= maxStart ->
     exists s' t' r1 r2 c',
       initDragging_onDrag overallWidth index dx s = Ok tt s'
       /\ tracks s' !! index = Some t'
       /\ startPosition t' == target
       /\ maxDuration s' == maxDuration s
       /\ rendered s'
          = rendered s ++ [SetMainWidth (durations s') (maxDuration s'); SetContainerOffsets]
       /\ Rendering.setMainWidth (durations s') (maxDuration s') (tracks s') r
          = Rendering.Done r1
       /\ Rendering.setContainerOffsets (tracks s') r1 = Rendering.Done r2
       /\ Rendering.pxPerSec r2 == Rendering.pxPerSec r
       /\ Rendering.containers r2 !! index = Some c'
       /\ Rendering.translateX c'
          == startPosition track * Rendering.pxPerSec r + dx)
  /\ (~ (minStart <= target /\ target <= maxStart) ->
      initDragging_onDrag overallWidth index dx s = Ok tt s)
  /\ initDragging_onDrag 0 index dx s = Ok tt s.
Proof.
  intros Htl Hends Ht Hdrag Hd Hm Hpx Hdrawn HW Hlen Hidx target minStart maxStart.
  pose proof (Qpos_neq_0 _ Hm) as Hm0. pose proof (Qpos_neq_0 _ Hpx) as Hpx0.
  assert (HW0 : Qeqb overallWidth 0 = false).
  { apply Qeqb_neq. rewrite HW. apply Qpos_neq_0.
    apply Qmult_lt_0_compat; assumption. }
  assert (Htarget : startPosition track + dx / overallWidth * maxDuration s == target).
  { subst target. rewrite HW. field. split; assumption. }
  assert (Hrun : initDragging_onDrag overallWidth index dx s
                 = onDrag index (dx / overallWidth) s).
  { unfold initDragging_onDrag. rewrite HW0. reflexivity. }
  rewrite Hrun. rewrite (onDrag_unfold s index (dx / overallWidth) track d Ht Hdrag Hd).
  cbv zeta. fold minStart maxStart.
  set (newStart := startPosition track + dx / overallWidth * maxDuration s) in *.
  split; [|split].
  - intros [Hlo Hhi].
    rewrite (proj2 (bounds_test minStart newStart maxStart))
      by (rewrite Htarget; split; assumption).
    destruct (commit_settled s index track d newStart Htl Hends (Qlt_le_weak _ _ Hm)
                Ht Hdrag Hd) as (s' & Hok & Htr & Hmax & Hrend).
    { rewrite Htarget. exact Hhi. }
    assert (Hnz : Qeqb (maxDuration s') 0 = false).
    { apply Qeqb_neq. rewrite Hmax. exact Hm0. }
    set (px1 := Qmax (or_default (Rendering.minPxPerSec r) 0)
                  (Rendering.clientWidth r / maxDuration s')).
    assert (Hpx1 : px1 == Rendering.pxPerSec r).
    { subst px1. rewrite Hdrawn. apply Q.max_compat; [reflexivity|].
      rewrite Hmax. reflexivity. }
    destruct (setContainerOffsets_forEach_done (tracks s') px1 (durations s')
                (Rendering.containers r) 0) as (cs1 & Hcs & _ & Hin).
    { rewrite Htr, length_insert. simpl. lia. }
    pose proof (setContainerOffsets_forEach_absorb _ px1 px1 _ _ _ _ Hcs) as Hagain.
    rewrite Hcs in Hagain.
    destruct (lookup_lt_is_Some_2 _ _ Hidx) as [c Hc].
    destruct (Hin index c Hc) as (t' & Ht' & Hc').
    simpl in Ht'. rewrite Htr in Ht'.
    rewrite list_lookup_insert_eq in Ht' by (eapply lookup_lt_Some, Ht).
    injection Ht' as <-.
    eexists s', _, _, _, _.
    split; [exact Hok|]. split.
    { rewrite Htr. apply list_lookup_insert_eq. eapply lookup_lt_Some, Ht. }
    split; [exact Htarget|]. split; [exact Hmax|]. split; [exact Hrend|]. split.
    { apply setMainWidth_run; [exact Hnz | exact Hcs]. }
    split.
    { unfold Rendering.setContainerOffsets.
      cbn [Rendering.pxPerSec Rendering.durations Rendering.containers
           Rendering.clientWidth Rendering.minPxPerSec Rendering.mainWidth
           Rendering.wrapperWidth].
      fold px1. rewrite Hagain. reflexivity. }
    split; [exact Hpx1|]. split; [exact Hc'|].
    cbn [Rendering.translateX startPosition set_startPosition].
    rewrite Hpx1, Htarget. subst target. field. exact Hpx0.
  - intros Hout.
    replace (Qleb minStart newStart && Qleb newStart maxStart) with false; [reflexivity|].
    symmetry. apply not_true_is_false. rewrite bounds_test, Htarget. exact Hout.
  - unfold initDragging_onDrag. simpl. rewrite get_bind, Ht. reflexivity.
Qed.

Lemma drag_follows_pointer_witness :
  exists s' c',
    initDragging_onDrag 600 1 (-80) demo = Ok tt s'
    /\ maxDuration s' == maxDuration demo
    /\ (exists r1 r2,
          Rendering.setMainWidth (durations s') (maxDuration s') (tracks s') demo_rendering
          = Rendering.Done r1
          /\ Rendering.setContainerOffsets (tracks s') r1 = Rendering.Done r2
          /\ Rendering.containers r2 !! 1%nat = Some c')
    /\ Rendering.translateX c'
       == startPosition trackB * Rendering.pxPerSec demo_rendering + -80.
Proof.
  assert (H0 : Forall (fun e => e <= maxDuration demo) (track_ends demo)).
  { repeat constructor; apply Qleb_le; vm_compute; reflexivity. }
  assert (H1 : tracks demo !! 1%nat = Some trackB) by (vm_compute; reflexivity).
  assert (H2 : durations demo !! 1%nat = Some 10) by (vm_compute; reflexivity).
  assert (H3 : 0 < maxDuration demo) by (apply Qltb_lt; vm_compute; reflexivity).
  assert (H4 : 0 < Rendering.pxPerSec demo_rendering) by reflexivity.
  assert (Hd : Rendering.pxPerSec demo_rendering
               == Qmax (or_default (Rendering.minPxPerSec demo_rendering) 0)
                    (Rendering.clientWidth demo_rendering / maxDuration demo))
    by (apply Qeqb_eq; vm_compute; reflexivity).
  assert (H5 : 600 == Rendering.pxPerSec demo_rendering * maxDuration demo)
    by (apply Qeqb_eq; vm_compute; reflexivity).
  assert (H6 : (List.length (Rendering.containers demo_rendering)
                <= List.length (tracks demo))%nat) by (vm_compute; lia).
  assert (H7 : (1 < List.length (Rendering.containers demo_rendering))%nat)
    by (vm_compute; lia).
  pose proof (drag_follows_pointer demo demo_rendering 600 (-80) 1 trackB 10
                demo_timeline_state H0 H1 eq_refl H2 H3 H4 Hd H5 H6 H7) as H.
  cbv zeta in H. destruct H as [H _].
  destruct H as (s' & t' & r1 & r2 & c' & Hrun & _ & _ & Hmax & _ & Hr1 & Hr2 & _ & Hc & Hx).
  - split; apply Qleb_le; vm_compute; reflexivity.
  - exists s', c'. split; [exact Hrun|]. split; [exact Hmax|].
    split; [exists r1, r2; auto | exact Hx].
Defined.

(** The same drag, evaluated: B goes from 5 s to 3 s and its container from
    200 to 120 pixels, on a timeline still 600 pixels wide. *)
Example demo_drag_pixels :
  let s' := state_of (initDragging_onDrag 600 1 (-80) demo) in
  match Rendering.setMainWidth (durations s') (maxDuration s') (tracks s') demo_rendering with
  | Rendering.Done r1 =>
      (Qred <$> (startPosition <$> tracks s' !! 1%nat)) = Some 3
      /\ Qred (Rendering.mainWidth r1) = 600
      /\ List.map (fun c => Qred (Rendering.translateX c)) (Rendering.containers r1)
         = [0; 120; 0]
  | _ => False
  end.
Proof. vm_compute. repeat split; reflexivity. Qed.


(** ** The constructor's load, track by track *)

Lemma initAllAudios_durations_lookup (l : list Audio.t) :
  forall ds i a, initAllAudios_durations l = Some ds -> l !! i = Some a ->
    ds !! i = if String.eqb (Audio.src a) "" then Some 0 else Audio.duration a.
Proof.
  induction l as [|b l IH]; intros ds i a Hds Ha; [discriminate|].
  simpl in Hds.
  destruct (if String.eqb (Audio.src b) "" then Some 0 else Audio.duration b)
    as [d|] eqn:Hd; [|discriminate].
  destruct (initAllAudios_durations l) as [ds'|] eqn:Hl; [|discriminate].
  injection Hds as <-. destruct i as [|i]; simpl in *.
  - injection Ha as <-. symmetry. exact Hd.
  - exact (IH ds' i a eq_refl Ha).
Qed.

Lemma initAudio_url (track : TrackOptions) (loaded : option Q) :
  truthy_str (url track) = true ->
  url track = Some (Audio.src (initAudio track loaded))
  /\ Audio.duration (initAudio track loaded) = loaded.
Proof.
  unfold initAudio, truthy_str. destruct (url track) as [u|]; [|discriminate].
  intros Hu. simpl. rewrite Hu.
  destruct (volume track); simpl;
    rewrite (negb_true_iff _) in Hu; rewrite Hu; simpl; split; reflexivity.
Qed.

Lemma initAudio_no_source (track : TrackOptions) (loaded : option Q) :
  truthy_str (url track) = false -> media track = None ->
  Audio.src (initAudio track loaded) = "".
Proof.
  unfold initAudio. intros -> ->. destruct (volume track); reflexivity.
Qed.

(** X16.  The constructor's load.  When no user track resolves to the silent
    clip's url and every element reports a duration, the continuation of
    [initAllAudios] returns and emits [canplay] exactly once; the position
    is 0 and no tick is scheduled.  The state holds the user tracks in their
    order followed by one placeholder lane, with one audio and one duration
    per lane.  A track with a url has that url as its audio's source and
    the duration its element reported; a track with neither url nor media
    element has duration 0; the placeholder lane lasts [maxDuration]. *)
Theorem load_contract (tracks0 : list TrackOptions) (db : option bool)
    (loaded : TrackOptions -> option Q) :
  Forall (fun t => is_placeholder_audio (initAudio t None) = false) tracks0 ->
  (forall t, loaded t <> None) ->
  exists s', create_then loaded (create tracks0 db) = Ok tt s'
    /\ List.length (tracks s') = S (List.length tracks0)
    /\ aligned s'
    /\ emitted s' = [EvCanplay]
    /\ currentTime s' = 0 /\ frameRequest s' = None /\ pendingFrames s' = []
    /\ durations s' !! List.length tracks0 = Some (maxDuration s')
    /\ forall i t, tracks0 !! i = Some t ->
         exists t' a d,
           tracks s' !! i = Some t' /\ id t' = id t /\ url t' = url t
           /\ startPosition t' == startPosition t
           /\ audios s' !! i = Some a /\ durations s' !! i = Some d
           /\ (truthy_str (url t) = true ->
                 url t = Some (Audio.src a) /\ loaded t' = Some d)
           /\ (truthy_str (url t) = false -> media t = None -> d = 0).
Proof.
  intros Huser Hloaded.
  set (s0 := create tracks0 db).
  set (norm := fun track => set_startPosition (or_default (Some (startPosition track)) 0) track).
  set (s1 := with_audios
               (fun _ => List.map (fun track => initAudio track (loaded track)) (tracks s0)) s0).
  set (p := List.length tracks0).
  destruct (initAllAudios_durations_ok (audios s1)) as (ds & Hds & Hlen).
  { subst s1; simpl. apply Forall_map, List.Forall_forall. intros t _.
    apply initAudio_duration, Hloaded. }
  assert (Hlt : List.length (tracks s1) = S p).
  { subst s1 s0 p; simpl. rewrite length_map, length_app. simpl. lia. }
  assert (Hlen1 : List.length (audios s1) = List.length (tracks s1)).
  { subst s1; simpl. apply length_map. }
  assert (Hfind : findIndex is_placeholder_audio (audios s1) = Some p).
  { subst s1 s0; simpl. rewrite !map_app. simpl.
    unfold findIndex. rewrite findIndex_from_app.
    - rewrite !length_map. reflexivity.
    - apply Forall_map, Forall_map.
      eapply Forall_impl; [exact Huser|]. intros t Ht. simpl.
      unfold is_placeholder_audio in *. simpl in *.
      rewrite initAudio_src. exact Ht.
    - unfold is_placeholder_audio. simpl.
      unfold initAudio. simpl. reflexivity. }
  assert (Htp : tracks s1 !! p = Some (norm PLACEHOLDER_TRACK)).
  { subst s1 s0 p; simpl. rewrite map_app. simpl.
    rewrite lookup_app_r by (rewrite length_map; lia).
    rewrite length_map, Nat.sub_diag. reflexivity. }
  destruct (initDurations_ok ds s1 p (norm PLACEHOLDER_TRACK))
    as (m & Hinit & _ & _ & _ & _).
  { rewrite Hlen. exact Hlen1. }
  { exact Hfind. }
  { exact Htp. }
  { reflexivity. }
  exists (with_emitted (fun l => l ++ [EvCanplay]) (initDurations_done p m ds s1)).
  split; [|split; [|split; [|split; [|split; [|split; [|split; [|split]]]]]]].
  - unfold create_then. fold s0.
    assert (Hall : initAllAudios loaded s0 = Ok ds s1).
    { unfold initAllAudios, bind at 1, get. erewrite bind_ok by reflexivity. fold s1.
      unfold bind, get. rewrite Hds. reflexivity. }
    erewrite bind_ok by exact Hall. erewrite bind_ok by exact Hinit. reflexivity.
  - exact Hlt.
  - unfold aligned; simpl. rewrite length_alter, length_insert.
    split; [exact Hlen1 | rewrite Hlen; exact Hlen1].
  - reflexivity.
  - reflexivity.
  - reflexivity.
  - reflexivity.
  - simpl. apply list_lookup_insert_eq. rewrite Hlen, Hlen1, Hlt. lia.
  - intros i t Ht.
    assert (Hi : (i < p)%nat) by (eapply lookup_lt_Some, Ht).
    assert (Ht0 : tracks s0 !! i = Some (norm t)).
    { unfold s0; simpl. rewrite list_lookup_fmap, lookup_app_l by exact Hi.
      rewrite Ht. reflexivity. }
    assert (Ht' : tracks s1 !! i = Some (norm t)) by exact Ht0.
    assert (Ha : audios s1 !! i = Some (initAudio (norm t) (loaded (norm t)))).
    { change (audios s1)
        with (List.map (fun track => initAudio track (loaded track)) (tracks s0)).
      rewrite list_lookup_fmap, Ht0. reflexivity. }
    pose proof (initAllAudios_durations_lookup _ ds i _ Hds Ha) as Hd.
    assert (Hdi : exists d, ds !! i = Some d).
    { apply lookup_lt_is_Some. rewrite Hlen, Hlen1, Hlt. lia. }
    destruct Hdi as [d Hdi].
    exists (norm t), (initAudio (norm t) (loaded (norm t))), d.
    split; [exact Ht'|]. split; [reflexivity|]. split; [reflexivity|]. split.
    { subst norm; simpl. destruct (Qeqb (startPosition t) 0) eqn:E; [|reflexivity].
      apply Qeqb_sym_true, E. }
    split.
    { simpl. rewrite list_lookup_alter_ne by lia. exact Ha. }
    split.
    { simpl. rewrite list_lookup_insert_ne by lia. exact Hdi. }
    split.
    + intros Hu. destruct (initAudio_url (norm t) (loaded (norm t)) Hu) as [Hsrc Hdur].
      split; [exact Hsrc|].
      rewrite Hdi in Hd. rewrite Hdur in Hd.
      assert (Hne : String.eqb (Audio.src (initAudio (norm t) (loaded (norm t)))) "" = false).
      { unfold truthy_str in Hu. change (url (norm t)) with (url t) in Hsrc.
        rewrite Hsrc in Hu. apply negb_true_iff in Hu. exact Hu. }
      rewrite Hne in Hd. symmetry. exact Hd.
    + intros Hu Hm.
      rewrite (initAudio_no_source (norm t) (loaded (norm t)) Hu Hm) in Hd.
      simpl in Hd. rewrite Hdi in Hd. injection Hd as ->. reflexivity.
Qed.

Lemma load_contract_witness :
  exists s', create_then demo_loaded (create [trackA; trackB] None) = Ok tt s'
    /\ List.length (tracks s') = 3%nat.
Proof.
  assert (H1 : Forall (fun t => is_placeholder_audio (initAudio t None) = false)
                 [trackA; trackB]).
  { constructor; [vm_compute; reflexivity|].
    constructor; [vm_compute; reflexivity|]. constructor. }
  assert (H2 : forall t, demo_loaded t <> None).
  { intros t. unfold demo_loaded. repeat case_match; discriminate. }
  destruct (load_contract [trackA; trackB] None demo_loaded H1 H2)
    as (s' & Hrun & Hlen & _).
  exists s'. split; [exact Hrun | exact Hlen].
Defined.
